(** * Jacobian-based Saliency Map Attack: [art/attacks/saliency_map.py]

    A shallow embedding of [SaliencyMapMethod] ([set_params], [generate],
    [_saliency_map]) over a small store of NumPy arrays, and the properties
    of the attack loop established on it.

    Numbers.  Feature values, [theta], [gamma] and the clip bounds are
    rationals ([Q]): the values floats have.  Comparisons, [min], [max],
    negation and the sums of zeros and ones are exact on floats and are
    those of [Q]; so is the quotient on line 121 in the runs of [generate],
    where the sum it divides stays 0.  The one operation of the attack that
    rounds is [v + theta] in the loop body: it is [float_add], which the
    runtime provides, and of which it is assumed that it is monotone and
    that it is the sum where the sum is a float of every type ([on_grid]).
    NaN and overflow are outside the model.  The two infinities that
    [_saliency_map] writes into the gradient array are the extra
    constructors of [ext].

    Arrays.  A NumPy array object is a view ([arr]) onto a buffer of the
    store: basic slicing and [np.reshape] return views that share the buffer,
    indexing with an integer array (and [np.copy], [np.zeros_like]) allocates
    a new buffer.  Every 2-D float array is kept as its rows of flattened
    features (row-major), the trailing dimensions being carried by the view. *)

From Stdlib Require Import QArith Qround Qminmax ZArith Lia.
From stdpp Require Import base list.

Local Open Scope Q_scope.

(** ** Scalars *)

Module Scalar.

(** [a < b], [a > b], [a == b], [a <= b] on floats, as booleans. *)
Definition ltb (a b : Q) : bool :=
  match a ?= b with Lt => true | _ => false end.
Definition gtb (a b : Q) : bool := ltb b a.
Definition eqb (a b : Q) : bool := Qeq_bool a b.
Definition leb (a b : Q) : bool := Qle_bool a b.

(** A float that may be infinite: the entries of the masked gradient. *)
Inductive ext : Type :=
  | NegInf
  | Fin (q : Q)
  | PosInf.

(** [-e] *)
Definition ext_opp (e : ext) : ext :=
  match e with
  | NegInf => PosInf
  | Fin q => Fin (- q)
  | PosInf => NegInf
  end.

(** [a <= b] on extended floats. *)
Definition ext_leb (a b : ext) : bool :=
  match a, b with
  | NegInf, _ => true
  | _, PosInf => true
  | Fin x, Fin y => leb x y
  | _, _ => false
  end.

Definition ext_le (a b : ext) : Prop := ext_leb a b = true.

(** [-np.inf * coeff] for an integer [coeff]; [coeff] is [1] or [-1] at the
    only call site ([-inf * 0] would be NaN, which the model does not have
    and which that call site never computes). *)
Definition neg_inf_times (coeff : Z) : ext :=
  if (0 <? coeff)%Z then NegInf else PosInf.

Definition is_fin (e : ext) : bool :=
  match e with Fin _ => true | _ => false end.

(** [v] is [m / 2^e] for an integer [m] with [|m| <= 2^10]: a multiple of
    the power of two [2^-e], and a small one.  The sum of two such values
    is [m' / 2^e] with [|m'| <= 2^11], which every binary float type of
    NumPy (float16, float32, float64) holds as it is when [e <= 14]: floats
    add such values without rounding. *)
Definition on_grid (e : nat) (v : Q) : bool :=
  let s := v * inject_Z (2 ^ Z.of_nat e) in
  eqb (inject_Z (Qfloor s)) s && (Z.abs (Qfloor s) <=? 2 ^ 10)%Z.

End Scalar.
Export Scalar.

(** ** The NumPy store *)

Module Numpy.

(** The rows of a 2-D float array. *)
Abbreviation matrix := (list (list Q)).

(** An array object: rows [off, off + len) of buffer [buf], each row read
    with trailing shape [dims].  Its shape is [len :: dims]. *)
Record arr : Type := mkArr {
  buf : nat;
  off : nat;
  len : nat;
  dims : list nat
}.

Definition shape (a : arr) : list nat := len a :: dims a.

(** [np.product] of a shape that is not empty.  (Of the empty shape it is
    the float [1.0], which is not a dimension: see [generate].) *)
Definition product (ds : list nat) : nat := fold_right Nat.mul 1%nat ds.

Inductive exn : Type :=
  | ValueError
  | IndexError
  | TypeError.

(** The attributes of the attack object ([self]). *)
Record attack : Type := mkAttack {
  theta : Q;
  gamma : Q;
  batch_size : Z;
  nb_features : nat
}.

(** A call into the classifier, with the rows it was given. *)
Inductive event : Type :=
  | Predict (x : matrix)
  | ClassGradient (x : matrix) (label : list nat).

(** Everything the program can read or change: the array buffers, the
    classifier calls made so far (oldest first), the position of the global
    random generator, and the attack object. *)
Record world : Type := mkWorld {
  mem : list matrix;
  calls : list event;
  rng : nat;
  obj : attack
}.

Definition with_mem (w : world) (m : list matrix) : world :=
  mkWorld m (calls w) (rng w) (obj w).
Definition with_call (w : world) (e : event) : world :=
  mkWorld (mem w) (calls w ++ [e]) (rng w) (obj w).
Definition with_rng (w : world) (n : nat) : world :=
  mkWorld (mem w) (calls w) n (obj w).
Definition with_obj (w : world) (o : attack) : world :=
  mkWorld (mem w) (calls w) (rng w) o.

(** The result of running a piece of the program: a value and the world it
    leaves, an exception and the world it leaves, or the fuel of a [while]
    loop ran out. *)
Inductive outcome (A : Type) : Type :=
  | Ok (a : A) (w : world)
  | Raise (e : exn) (w : world)
  | OutOfFuel.
Arguments Ok {A} a w.
Arguments Raise {A} e w.
Arguments OutOfFuel {A}.

Definition M (A : Type) : Type := world -> outcome A.

Definition ret {A} (a : A) : M A := fun w => Ok a w.
Definition raise {A} (e : exn) : M A := fun w => Raise e w.
Definition bind {A B} (m : M A) (k : A -> M B) : M B :=
  fun w =>
    match m w with
    | Ok a w' => k a w'
    | Raise e w' => Raise e w'
    | OutOfFuel => OutOfFuel
    end.

Notation "'do' x <- m ; k" := (bind m (fun x => k))
  (at level 10, x pattern, m at level 100, k at level 200).

Definition get : M world := fun w => Ok w w.
Definition put (w : world) : M unit := fun _ => Ok tt w.

(** The rows of buffer [b]. *)
Definition buffer (w : world) (b : nat) : matrix := default [] (mem w !! b).

(** The rows an array object shows. *)
Definition view (w : world) (a : arr) : matrix :=
  take (len a) (drop (off a) (buffer w (buf a))).

Definition load (a : arr) : M matrix := fun w => Ok (view w a) w.

(** Overwrite, in place, the rows an array object shows. *)
Definition splice (rows : matrix) (o n : nat) (new : matrix) : matrix :=
  take o rows ++ new ++ drop (o + n) rows.

Definition store_world (w : world) (a : arr) (new : matrix) : world :=
  with_mem w (<[buf a := splice (buffer w (buf a)) (off a) (len a) new]> (mem w)).

Definition store (a : arr) (new : matrix) : M unit :=
  fun w => Ok tt (store_world w a new).

(** A new buffer holding [rows]. *)
Definition alloc_world (w : world) (rows : matrix) : world :=
  with_mem w (mem w ++ [rows]).

Definition alloc (rows : matrix) (ds : list nat) : M arr :=
  fun w => Ok (mkArr (length (mem w)) 0 (length rows) ds) (alloc_world w rows).

(** [np.copy(a)] *)
Definition np_copy (a : arr) : M arr :=
  do rows <- load a ; alloc rows (dims a).

(** [np.zeros_like(a)] *)
Definition np_zeros_like (a : arr) : M arr :=
  do rows <- load a ; alloc (map (map (fun _ => 0)) rows) (dims a).

(** [np.reshape(a, (-1, f))] and [np.reshape(a, [a.shape[0]] + ds)]: a view
    of the same rows with other trailing dimensions.  NumPy refuses a shape
    of another size, and cannot infer [-1] next to a zero dimension. *)
Definition np_reshape_flat (a : arr) (f : nat) : M arr :=
  if decide (f = 0%nat \/ f <> product (dims a)) then raise ValueError
  else ret (mkArr (buf a) (off a) (len a) [f]).

Definition np_reshape (a : arr) (ds : list nat) : M arr :=
  if decide (product ds = product (dims a))
  then ret (mkArr (buf a) (off a) (len a) ds)
  else raise ValueError.

(** [a[i:j]]: a view. *)
Definition slice (a : arr) (i j : nat) : arr :=
  let i' := Nat.min i (len a) in
  let j' := Nat.min j (len a) in
  mkArr (buf a) (off a + i') (j' - i') (dims a).

(** [l[i:j]] on a pure 1-D array. *)
Definition slice_list {A} (l : list A) (i j : nat) : list A :=
  take (j - i) (drop i l).

(** Elementwise comparison with a scalar: [rows < c], [rows > c], [rows == c]. *)
Definition cmp_mask (f : Q -> Q -> bool) (rows : matrix) (c : Q) : list (list bool) :=
  map (map (fun v => f v c)) rows.

(** [rows[mask] = v] *)
Definition mask_assign (rows : matrix) (mask : list (list bool)) (v : Q) : matrix :=
  zip_with (zip_with (fun x (b : bool) => if b then v else x)) rows mask.

Definition setitem_mask (a : arr) (mask : list (list bool)) (v : Q) : M unit :=
  do rows <- load a ; store a (mask_assign rows mask v).

(** [rows[idx]] with an integer index array: the selected rows, fresh. *)
Definition rows_at {A} (rows : list (list A)) (idx : list nat) : list (list A) :=
  map (fun i => default [] (rows !! i)) idx.

Definition in_range (n : nat) (idx : list nat) : bool :=
  forallb (fun i => (i <? n)%nat) idx.

Definition getitem_rows (a : arr) (idx : list nat) : M arr :=
  do rows <- load a ;
  if in_range (length rows) idx then alloc (rows_at rows idx) (dims a)
  else raise IndexError.

(** [np.arange(n)] *)
Definition np_arange (n : nat) : list nat := seq 0 n.

(** [rows[rs, cs]] with two integer index arrays: entry [(rs[k], cs[k])]
    for each [k]. *)
Definition cell (rows : matrix) (r c : nat) : Q :=
  default 0 (default [] (rows !! r) !! c).

Definition take_cells (rows : matrix) (rs cs : list nat) : list Q :=
  zip_with (cell rows) rs cs.

Definition cell_in_range (rows : matrix) (r c : nat) : bool :=
  match rows !! r with
  | Some row => (c <? length row)%nat
  | None => false
  end.

Definition cells_in_range (rows : matrix) (rs cs : list nat) : bool :=
  (length rs =? length cs)%nat && forallb id (zip_with (cell_in_range rows) rs cs).

Definition getitem_cells (a : arr) (rs cs : list nat) : M (list Q) :=
  do rows <- load a ;
  if cells_in_range rows rs cs then ret (take_cells rows rs cs)
  else raise IndexError.

(** [rows[rs, cs] = vals]: the entries are written in order. *)
Definition put_cell (rows : matrix) (r c : nat) (v : Q) : matrix :=
  <[r := <[c := v]> (default [] (rows !! r))]> rows.

Fixpoint put_cells (rows : matrix) (rs cs : list nat) (vals : list Q) : matrix :=
  match rs, cs, vals with
  | r :: rs', c :: cs', v :: vals' => put_cells (put_cell rows r c v) rs' cs' vals'
  | _, _, _ => rows
  end.

Definition setitem_cells (a : arr) (rs cs : list nat) (vals : list Q) : M unit :=
  do rows <- load a ;
  if cells_in_range rows rs cs && (length vals =? length rs)%nat
  then store a (put_cells rows rs cs vals)
  else raise IndexError.

(** [rows[idx] = src]: row [idx[k]] becomes row [k] of [src], in order. *)
Fixpoint put_rows (rows : matrix) (idx : list nat) (src : matrix) : matrix :=
  match idx, src with
  | i :: idx', r :: src' => put_rows (<[i := r]> rows) idx' src'
  | _, _ => rows
  end.

Definition setitem_rows (a : arr) (idx : list nat) (src : arr) : M unit :=
  do rows <- load a ;
  do new <- load src ;
  if in_range (length rows) idx then store a (put_rows rows idx new)
  else raise IndexError.

(** [a[:] = src] for a view [a] *)
Definition setitem_all (a : arr) (src : arr) : M unit :=
  do new <- load src ; store a new.

(** [np.sum(rows, axis=1)] *)
Definition Qsum (l : list Q) : Q := fold_right Qplus 0 l.
Definition sum_axis1 (rows : matrix) : list Q := map Qsum rows.

(** [np.argmax(row)]: the first position of the largest entry ([0] on an
    empty row, where NumPy raises; no classifier has zero classes). *)
Fixpoint argmax_from (best : Q) (besti i : nat) (row : list Q) : nat :=
  match row with
  | [] => besti
  | v :: row' =>
      if ltb best v then argmax_from v i (S i) row'
      else argmax_from best besti (S i) row'
  end.

Definition argmax (row : list Q) : nat :=
  match row with
  | [] => 0%nat
  | v :: row' => argmax_from v 0%nat 1%nat row'
  end.

(** [np.argmax(rows, axis=1)] *)
Definition argmax_axis1 (rows : matrix) : list nat := map argmax rows.

(** [np.where(cond)[0]]: the positions where [cond] holds, ascending. *)
Fixpoint where_from (i : nat) (cond : list bool) : list nat :=
  match cond with
  | [] => []
  | b :: cond' => if b then i :: where_from (S i) cond' else where_from (S i) cond'
  end.

Definition np_where (cond : list bool) : list nat := where_from 0 cond.

End Numpy.
Export Numpy.

(** ** The attack *)

(** The classifier the attack is given.  [predict] returns one row of class
    scores per sample; [class_gradient x label] is
    [classifier.class_gradient(x, label=label, logits=False)] with each
    sample's gradient flattened, as [_saliency_map] reshapes it.  Both get
    the samples as rows of flattened features: every array the attack passes
    has the trailing dimensions of its input. *)
Class Classifier : Type := {
  predict : matrix -> matrix;
  class_gradient : matrix -> list nat -> matrix;
  clip_values : Q * Q;
  nb_classes : nat
}.

(** The keyword arguments of [generate] and [set_params]; an absent key and
    an explicit [None] are both [None]. *)
Record kwargs : Type := mkKwargs {
  kw_y : option matrix;
  kw_theta : option Q;
  kw_gamma : option Q;
  kw_batch_size : option Z
}.

(** What the attack uses and this file of the repository does not define:
    the choice [np.argpartition(row, -2)[-2:]] makes on one row (NumPy fixes
    it up to ties), the global random generator ([random_raw n] is its
    [n]-th raw draw), [Attack.set_params] of the base class, which saves
    the keyword arguments as attributes, and the sum of two floats
    ([float_add x y] is [x + y] as NumPy computes it: the sum, rounded to a
    float of the type of the array). *)
Class Runtime : Type := {
  argpartition_last2 : list ext -> nat * nat;
  random_raw : nat -> nat;
  Attack_set_params : kwargs -> attack -> attack;
  float_add : Q -> Q -> Q
}.

Section SaliencyMapMethod.

Context {C : Classifier} {R : Runtime}.

Definition get_self : M attack := fun w => Ok (obj w) w.
Definition set_self (o : attack) : M unit := fun w => Ok tt (with_obj w o).

(** [self.classifier.predict(a)] *)
Definition classifier_predict (a : arr) : M matrix :=
  do rows <- load a ;
  fun w => Ok (predict rows) (with_call w (Predict rows)).

(** [self.classifier.class_gradient(a, label=label, logits=False)] *)
Definition classifier_class_gradient (a : arr) (label : list nat) : M matrix :=
  do rows <- load a ;
  fun w => Ok (class_gradient rows label) (with_call w (ClassGradient rows label)).

Definition set_params (kw : kwargs) : M bool :=
  (* Save attack-specific parameters *)
  do self <- get_self ;
  do _ <- set_self (Attack_set_params kw self) ;
  do self <- get_self ;
  if leb (gamma self) 0 || gtb (gamma self) 1 then raise ValueError
  else if (batch_size self <=? 0)%Z then raise ValueError
  else ret true.

(** [__init__]: the base class keeps the classifier, then the parameters
    are checked and saved. *)
Definition init (theta gamma : Q) (batch_size : Z) : M unit :=
  let kwargs := mkKwargs None (Some theta) (Some gamma) (Some batch_size) in
  do _ <- set_params kwargs ;
  ret tt.

(** [grads[mask] = v] on the gradient array. *)
Definition mask_assign_ext (rows : list (list ext)) (mask : list (list bool)) (v : ext)
  : list (list ext) :=
  zip_with (zip_with (fun x (b : bool) => if b then v else x)) rows mask.

(** Whether two 2-D arrays have the same shape. *)
Fixpoint same_shape {A B} (a : list (list A)) (b : list (list B)) : bool :=
  match a, b with
  | [], [] => true
  | r :: a', s :: b' => (length r =? length s)%nat && same_shape a' b'
  | _, _ => false
  end.

Definition _saliency_map (x : arr) (target : list nat) (search_space : arr)
  : M (list (nat * nat)) :=
  do self <- get_self ;
  do grads <- classifier_class_gradient x target ;
  do search_space <- load search_space ;
  (* np.reshape(grads, (-1, self._nb_features)); the boolean index below
     must have the shape of grads *)
  if negb (same_shape grads search_space
           && forallb (fun r => (length r =? nb_features self)%nat) grads)
  then raise IndexError
  else
  (* Remove gradients for already used features *)
  let used_features := map (map (fun s => 1 - s)) search_space in
  let coeff := (2 * (if gtb (theta self) 0 then 1 else 0) - 1)%Z in
  let grads :=
    mask_assign_ext (map (map Fin) grads) (cmp_mask eqb used_features 1)
                    (neg_inf_times coeff) in
  (* kth = -2 is out of bounds on an axis shorter than 2 *)
  if (nb_features self <? 2)%nat then raise ValueError
  else if gtb (theta self) 0
  then ret (map argpartition_last2 grads)
  else ret (map argpartition_last2 (map (map ext_opp) grads)).

(** [a != b] on integer arrays of one length.  (On arrays of two lengths
    NumPy broadcasts a one-element array and refuses the others; here the
    positions beyond the shorter array are dropped.  What is stated of the
    active samples is stated of batches with one prediction and one target
    per sample.) *)
Definition ne_mask (a b : list nat) : list bool :=
  zip_with (fun p t => negb (p =? t)%nat) a b.

(** The product of the three conditions on line 120. *)
Definition and3 (a b c : list bool) : list bool :=
  zip_with andb (zip_with andb a b) c.

(** One pass through the body of the [while] loop (lines 91 to 122); the
    result is the new [active_indices].  [target[active_indices]] is read
    with [0] for an index outside [target], where NumPy raises
    [IndexError]: with one target per row of [batch] no active index is
    outside. *)
Definition loop_body (dims : list nat) (clip_min clip_max : Q)
    (batch search_space all_feat : arr) (target active_indices : list nat)
  : M (list nat) :=
  do self <- get_self ;
  let n := length active_indices in
  (* Compute saliency map *)
  do batch_r <- np_reshape batch dims ;
  do x_act <- getitem_rows batch_r active_indices ;
  do ss_act <- getitem_rows search_space active_indices ;
  do feat_ind <- _saliency_map x_act (map (fun i => default 0%nat (target !! i)) active_indices) ss_act ;
  (* Update used features *)
  do af0 <- getitem_rows all_feat active_indices ;
  do _ <- setitem_cells af0 (np_arange n) (map fst feat_ind) (repeat 1 n) ;
  do af1 <- getitem_rows all_feat active_indices ;
  do _ <- setitem_cells af1 (np_arange n) (map snd feat_ind) (repeat 1 n) ;
  (* Prepare update depending of theta *)
  let '(clip_func, clip_value) :=
    if gtb (theta self) 0 then (Qmin, clip_max) else (Qmax, clip_min) in
  (* Update adversarial examples *)
  do tmp_batch <- getitem_rows batch active_indices ;
  do v0 <- getitem_cells tmp_batch (np_arange n) (map fst feat_ind) ;
  do _ <- setitem_cells tmp_batch (np_arange n) (map fst feat_ind)
            (map (fun v => clip_func clip_value (float_add v (theta self))) v0) ;
  do v1 <- getitem_cells tmp_batch (np_arange n) (map snd feat_ind) ;
  do _ <- setitem_cells tmp_batch (np_arange n) (map snd feat_ind)
            (map (fun v => clip_func clip_value (float_add v (theta self))) v1) ;
  do _ <- setitem_rows batch active_indices tmp_batch ;
  (* Remove indices from search space if max/min values were reached *)
  do b <- load batch ;
  do _ <- setitem_mask search_space (cmp_mask eqb b clip_value) 0 ;
  (* Recompute model prediction *)
  do batch_r <- np_reshape batch dims ;
  do scores <- classifier_predict batch_r ;
  let current_pred := argmax_axis1 scores in
  (* Update active_indices *)
  do af <- load all_feat ;
  do ss <- load search_space ;
  ret (np_where (and3 (ne_mask current_pred target)
                      (map (fun s => leb (s / inject_Z (Z.of_nat (nb_features self))) (gamma self))
                           (sum_axis1 af))
                      (map (fun s => gtb s 0) (sum_axis1 ss)))).

(** [while len(active_indices) != 0: ...].  The result is the history of
    [active_indices]: its value in every pass, first pass first.  The
    program does not keep it; it is kept here to count passes. *)
Fixpoint batch_loop (fuel : nat) (dims : list nat) (clip_min clip_max : Q)
    (batch search_space all_feat : arr) (target active_indices : list nat)
  : M (list (list nat)) :=
  match active_indices with
  | [] => ret []
  | _ :: _ =>
      match fuel with
      | O => fun _ => OutOfFuel
      | S fuel' =>
          do active_indices' <-
            loop_body dims clip_min clip_max batch search_space all_feat
                      target active_indices ;
          do passes <-
            batch_loop fuel' dims clip_min clip_max batch search_space all_feat
                       target active_indices' ;
          ret (active_indices :: passes)
      end
  end.

(** The body of the [for] loop over batches (lines 73 to 124); the result
    is the history of [active_indices] of its [while] loop.  The bounds of
    the slices are those of Python for a batch size that is not negative:
    [set_params] has refused the others. *)
Definition attack_batch (fuel : nat) (dims : list nat) (clip_min clip_max : Q)
    (x_adv : arr) (preds targets : list nat) (batch_id : nat)
  : M (list (list nat)) :=
  do self <- get_self ;
  let batch_index_1 := Z.to_nat (Z.of_nat batch_id * batch_size self) in
  let batch_index_2 := Z.to_nat ((Z.of_nat batch_id + 1) * batch_size self) in
  let batch := slice x_adv batch_index_1 batch_index_2 in
  (* Initialize the search space; optimize to remove features that can't be changed *)
  do search_space <- np_zeros_like batch ;
  do b <- load batch ;
  do _ <- (if gtb (theta self) 0
           then setitem_mask search_space (cmp_mask ltb b clip_max) 1
           else setitem_mask search_space (cmp_mask gtb b clip_min) 1) ;
  (* Get current predictions *)
  let current_pred := slice_list preds batch_index_1 batch_index_2 in
  let target := slice_list targets batch_index_1 batch_index_2 in
  let active_indices := np_where (ne_mask current_pred target) in
  do all_feat <- np_zeros_like batch ;
  do passes <- batch_loop fuel dims clip_min clip_max batch search_space all_feat
                          target active_indices ;
  do _ <- setitem_all (slice x_adv batch_index_1 batch_index_2) batch ;
  ret passes.

(** [for a in l: body(a)] *)
Fixpoint for_each {A} (l : list A) (body : A -> M unit) : M unit :=
  match l with
  | [] => ret tt
  | a :: l' => do _ <- body a ; for_each l' body
  end.

(** [int(np.ceil(n / float(batch_size)))] *)
Definition nb_batches (n : nat) (batch_size : Z) : nat :=
  Z.to_nat (Qceiling (inject_Z (Z.of_nat n) / inject_Z batch_size)).

(** Row [c] of the identity matrix: class [c] as a one-hot row. *)
Definition to_categorical (c nb : nat) : list Q :=
  map (fun k => if (k =? c)%nat then 1 else 0) (seq 0 nb).

(** [np.random.choice(l)] *)
Definition random_choice (l : list nat) : M nat :=
  fun w =>
    match l with
    | [] => Raise ValueError w
    | _ :: _ =>
        Ok (default 0%nat (l !! (random_raw (rng w) mod length l)%nat))
           (with_rng w (S (rng w)))
    end.

Definition other_classes (nb label : nat) : list nat :=
  filter (fun c => c <> label) (seq 0 nb).

(** Modelled from the spec: [art.utils.random_targets] is not among the
    sources.  For each sample it draws a class uniformly from all classes
    except the sample's label, and returns the draws as one-hot rows. *)
Fixpoint random_targets (labels : list nat) (nb : nat) : M matrix :=
  match labels with
  | [] => ret []
  | label :: labels' =>
      do c <- random_choice (other_classes nb label) ;
      do rest <- random_targets labels' nb ;
      ret (to_categorical c nb :: rest)
  end.

(** Lines 63 to 69: the target class of every sample. *)
Definition resolve_targets (kw : kwargs) (preds : list nat) : M (list nat) :=
  match kw_y kw with
  | None =>
      (* Randomly choose target from the incorrect classes for each sample *)
      do t <- random_targets preds nb_classes ;
      ret (argmax_axis1 t)
  | Some y => ret (argmax_axis1 y)
  end.

Definition generate (fuel : nat) (x : arr) (kw : kwargs) : M arr :=
  (* Parse and save attack-specific parameters *)
  do _ <- set_params kw ;
  let '(clip_min, clip_max) := clip_values in
  (* Initialize variables *)
  let dims := dims x in
  do self <- get_self ;
  do _ <- set_self (mkAttack (theta self) (gamma self) (batch_size self) (product dims)) ;
  do self <- get_self ;
  do x_copy <- np_copy x ;
  (* np.product([]) is the float 1.0, which np.reshape refuses as a dimension *)
  do x_adv <- (if decide (dims = []) then raise TypeError
               else np_reshape_flat x_copy (nb_features self)) ;
  do scores <- classifier_predict x ;
  let preds := argmax_axis1 scores in
  (* Determine target classes for attack *)
  do targets <- resolve_targets kw preds ;
  (* Compute perturbation with implicit batching *)
  do _ <- for_each (seq 0 (nb_batches (len x_adv) (batch_size self)))
            (fun batch_id =>
               do _ <- attack_batch fuel dims clip_min clip_max x_adv preds targets
                                    batch_id ;
               ret tt) ;
  do x_adv <- np_reshape x_adv dims ;
  do _ <- classifier_predict x ;
  do _ <- classifier_predict x_adv ;
  ret x_adv.

End SaliencyMapMethod.

(** ** Instances to run the attack on *)

Module Demo.

(** The position of a largest entry of [row] outside position [skip],
    scanning from position [i] with the best so far in [cur]. *)
Fixpoint best_from (skip : option nat) (i : nat) (cur : option (nat * ext))
    (row : list ext) : option (nat * ext) :=
  match row with
  | [] => cur
  | e :: row' =>
      let cur' :=
        if decide (skip = Some i) then cur
        else match cur with
             | None => Some (i, e)
             | Some (bi, be) => if ext_leb e be then cur else Some (i, e)
             end in
      best_from skip (S i) cur' row'
  end.

Definition best_index (skip : option nat) (row : list ext) : nat :=
  match best_from skip 0 None row with
  | Some (i, _) => i
  | None => 0%nat
  end.

(** One choice [np.argpartition(row, -2)[-2:]] may make: the position of a
    largest entry last, before it the position of a largest of the others. *)
Definition select_top2 (row : list ext) : nat * nat :=
  let j := best_index None row in
  (best_index (Some j) row, j).

(** [Attack.set_params] as a plain saver: every parameter that is passed
    replaces the attribute. *)
Definition save_params (kw : kwargs) (self : attack) : attack :=
  mkAttack (default (theta self) (kw_theta kw))
           (default (gamma self) (kw_gamma kw))
           (default (batch_size self) (kw_batch_size kw))
           (nb_features self).

(** Floats are added without rounding, as they are on the runs below whose
    values are multiples of 0.25; on the runs with [theta = 0.3] the
    rounding of a float sum changes no comparison the attack makes. *)
#[export] Instance runtime : Runtime := {
  argpartition_last2 := select_top2;
  random_raw := fun n => n;
  Attack_set_params := save_params;
  float_add := Qplus
}.

(** The same runtime with the one rounded sum of the run it is used in:
    in float64, [2^53 + 1] is [2^53]. *)
Definition two_53 : Q := inject_Z (2 ^ 53).

Definition rounding : Runtime := {|
  argpartition_last2 := select_top2;
  random_raw := fun n => n;
  Attack_set_params := save_params;
  float_add := fun x y => if eqb x two_53 && eqb y 1 then x else x + y
|}.

(** A two-class classifier that answers class [0] whatever it is shown, and
    whose gradient ranks the features by position, the first one highest. *)
Definition stubborn (clip : Q * Q) : Classifier := {|
  predict := map (fun _ => [1; 0]);
  class_gradient := fun x _ =>
    map (fun row => map (fun k => - inject_Z (Z.of_nat k)) (seq 0 (length row))) x;
  clip_values := clip;
  nb_classes := 2
|}.

(** The attack object before [__init__] has saved anything, and a world
    whose only buffer is the input. *)
Definition blank : attack := mkAttack 0 0 0 0.

Definition world_of (x : matrix) (self : attack) : world :=
  mkWorld [x] [] 0 self.

Definition input_of (x : matrix) (ds : list nat) : arr :=
  mkArr 0 0 (length x) ds.

End Demo.


(** ** The loop as a function of the arrays

    What one pass of the loop body computes from the rows of [batch],
    [search_space] and [all_feat], without the store. *)

Section LoopView.

Context {C : Classifier} {R : Runtime}.
Variables (th ga : Q) (F : nat) (clip_min clip_max : Q) (target : list nat).

Definition clip_value : Q := if gtb th 0 then clip_max else clip_min.

Definition clip_func : Q -> Q -> Q := if gtb th 0 then Qmin else Qmax.

Definition clip_step (v : Q) : Q := clip_func clip_value (float_add v th).

Definition masked_grads (grads ss : matrix) : list (list ext) :=
  mask_assign_ext (map (map Fin) grads)
                  (cmp_mask eqb (map (map (fun s => 1 - s)) ss) 1)
                  (neg_inf_times (2 * (if gtb th 0 then 1 else 0) - 1)).

Definition saliency (x : matrix) (t : list nat) (ss : matrix) : list (nat * nat) :=
  let g := masked_grads (class_gradient x t) ss in
  if gtb th 0 then map argpartition_last2 g
  else map argpartition_last2 (map (map ext_opp) g).

(** One row of [masked_grads], and the row [np.argpartition] is shown. *)
Definition masked_row (grow srow : list Q) : list ext :=
  zip_with (fun x (b : bool) =>
              if b then neg_inf_times (2 * (if gtb th 0 then 1 else 0) - 1) else x)
           (map Fin grow)
           (map (fun v => eqb v 1) (map (fun s => 1 - s) srow)).

Definition oriented (g : list ext) : list ext :=
  if gtb th 0 then g else map ext_opp g.

Definition targets_at (act : list nat) : list nat :=
  map (fun i => default 0%nat (target !! i)) act.

Definition perturbed (rows : matrix) (feat : list (nat * nat)) (n : nat) : matrix :=
  let r1 := put_cells rows (np_arange n) (map fst feat)
              (map clip_step (take_cells rows (np_arange n) (map fst feat))) in
  put_cells r1 (np_arange n) (map snd feat)
    (map clip_step (take_cells r1 (np_arange n) (map snd feat))).

Definition next_batch (B S : matrix) (act : list nat) : matrix :=
  put_rows B act
    (perturbed (rows_at B act)
               (saliency (rows_at B act) (targets_at act) (rows_at S act))
               (length act)).

Definition next_space (B' S : matrix) : matrix :=
  mask_assign S (cmp_mask eqb B' clip_value) 0.

Definition next_active (B' S' A : matrix) : list nat :=
  np_where (and3 (ne_mask (argmax_axis1 (predict B')) target)
                 (map (fun s => leb (s / inject_Z (Z.of_nat F)) ga) (sum_axis1 A))
                 (map (fun s => gtb s 0) (sum_axis1 S'))).

(** The loop from the rows at its start: the rows of [batch] and
    [search_space] it ends with and the [active_indices] of every pass, or
    [None] when the fuel runs out. *)
Fixpoint loop_view (fuel : nat) (B S A : matrix) (act : list nat)
  : option (list (list nat) * matrix * matrix) :=
  match act with
  | [] => Some ([], B, S)
  | _ :: _ =>
      match fuel with
      | O => None
      | Datatypes.S fuel' =>
          let B' := next_batch B S act in
          let S' := next_space B' S in
          match loop_view fuel' B' S' A (next_active B' S' A) with
          | Some (tr, Bf, Sf) => Some (act :: tr, Bf, Sf)
          | None => None
          end
      end
  end.

(** What the two assignments of one pass do to one sample, given the pair
    of features selected for it. *)
Definition step_row (row : list Q) (ij : nat * nat) : list Q :=
  let r1 := <[ij.1 := clip_step (default 0 (row !! ij.1))]> row in
  <[ij.2 := clip_step (default 0 (r1 !! ij.2))]> r1.

(** A feature value that can still be moved: below [clip_max] when
    [theta > 0], above [clip_min] otherwise. *)
Definition eligible (v : Q) : bool :=
  if gtb th 0 then ltb v clip_max else gtb v clip_min.

Definition bit (b : bool) : Q := if b then 1 else 0.

(** The search space that belongs to the rows [B]. *)
Definition space_of (B : matrix) : matrix := map (map (fun v => bit (eligible v))) B.

(** The number of steps of size [theta] after which a feature value is
    saturated. *)
Definition steps_left (v : Q) : nat :=
  if eligible v
  then Z.to_nat (Qceiling ((clip_value - v) / th))
  else 0%nat.

Definition row_steps (row : list Q) : nat := sum_list (map steps_left row).

Definition batch_steps (B : matrix) : nat := sum_list (map row_steps B).

Definition sample_steps (B : matrix) (r : nat) : nat :=
  default 0%nat (row_steps <$> B !! r).

End LoopView.

(** The number of passes in which sample [r] is active. *)
Definition active_count (r : nat) (tr : list (list nat)) : nat :=
  length (filter (fun act => r ∈ act) tr).

(** The number of passes a run has made through the loop body: each pass
    asks the classifier for the gradient once, and nothing else does. *)
Definition is_gradient (e : event) : bool :=
  match e with
  | ClassGradient _ _ => true
  | Predict _ => false
  end.

Definition passes_run (w : world) : nat := length (filter is_gradient (calls w)).

(** [ceil(f * gamma / 2)] *)
Definition pair_budget (f : nat) (gamma : Q) : nat :=
  Z.to_nat (Qceiling (inject_Z (Z.of_nat f) * gamma / 2)).

(** ** What the classifier and NumPy are relied on for *)

(** The array has [n] rows of [f] entries. *)
Definition has_shape {A} (n f : nat) (rows : list (list A)) : Prop :=
  length rows = n /\ Forall (fun r => length r = f) rows.

(** One score row per sample, and a gradient of the shape of the input. *)
Class ClassifierOk (C : Classifier) : Prop := {
  predict_rows : forall x, length (predict x) = length x;
  class_gradient_shape : forall x t n f,
    has_shape n f x -> has_shape n f (class_gradient x t)
}.

(** [np.argpartition(row, -2)[-2:]] on a row of at least two entries: two
    distinct positions, the last one of a largest entry, the first one of a
    largest entry among the others. *)
Definition top2_of (row : list ext) (ij : nat * nat) : Prop :=
  exists ei ej,
    row !! ij.1 = Some ei /\ row !! ij.2 = Some ej /\ ij.1 <> ij.2 /\
    ext_le ei ej /\
    forall k e, row !! k = Some e -> k <> ij.1 -> k <> ij.2 -> ext_le e ei.

(** The same for the two smallest entries, the smallest one last. *)
Definition lowest2_of (row : list ext) (ij : nat * nat) : Prop :=
  exists ei ej,
    row !! ij.1 = Some ei /\ row !! ij.2 = Some ej /\ ij.1 <> ij.2 /\
    ext_le ej ei /\
    forall k e, row !! k = Some e -> k <> ij.1 -> k <> ij.2 -> ext_le ei e.

(** The sum of floats is monotone: rounding does not carry a sum to the
    other side of a summand.  It is the sum itself where the sum is a
    float: so for two small multiples of one power of two. *)
Class RuntimeOk (R : Runtime) : Prop := {
  argpartition_last2_spec : forall row,
    (2 <= length row)%nat -> top2_of row (argpartition_last2 row);
  float_add_up : forall x y, 0 <= y -> x <= float_add x y;
  float_add_down : forall x y, y <= 0 -> float_add x y <= x;
  float_add_exact : forall e x y,
    (e <= 14)%nat -> on_grid e x = true -> on_grid e y = true ->
    float_add x y == x + y
}.

(** ** The words the statements are written in *)

(** *** The store *)

Definition mlen (w : world) : nat := length (mem w).

(** The view lies inside an existing buffer. *)
Definition wf_view (w : world) (a : arr) : Prop :=
  (buf a < mlen w)%nat /\ (off a + len a <= length (buffer w (buf a)))%nat.

(** *** The state of the loop *)

Section LoopState.

Context {C : Classifier} {R : Runtime}.
Variables (dims : list nat) (clip_min clip_max : Q) (batch ss af : arr) (target : list nat).

(** What holds of [batch], [search_space] and [all_feat] whenever the loop
    body starts: three views of three buffers, of [n] rows of [F] entries. *)
Record loop_inv (w : world) (n F : nat) : Prop := {
  inv_batch : wf_view w batch;
  inv_space : wf_view w ss;
  inv_feat : wf_view w af;
  inv_bs : buf batch <> buf ss;
  inv_ba : buf batch <> buf af;
  inv_sa : buf ss <> buf af;
  inv_dims : product dims = product (Numpy.dims batch);
  inv_F : nb_features (obj w) = F;
  inv_shape_b : has_shape n F (view w batch);
  inv_shape_s : has_shape n F (view w ss);
  inv_shape_a : has_shape n F (view w af)
}.

(** What one pass of the loop body leaves behind. *)
Record body_post (w w' : world) (act : list nat) : Prop := {
  post_batch : view w' batch =
    next_batch (theta (obj w)) clip_min clip_max target (view w batch) (view w ss) act;
  post_space : view w' ss =
    next_space (theta (obj w)) clip_min clip_max (view w' batch) (view w ss);
  post_feat : view w' af = view w af;
  post_wf_batch : wf_view w' batch;
  post_wf_space : wf_view w' ss;
  post_wf_feat : wf_view w' af;
  post_obj : obj w' = obj w;
  post_rng : rng w' = rng w;
  post_calls : calls w' =
    calls w ++ [ClassGradient (rows_at (view w batch) act) (targets_at target act);
                Predict (view w' batch)];
  post_mlen : (mlen w <= mlen w')%nat;
  post_frame : forall b, (b < mlen w)%nat -> b <> buf batch -> b <> buf ss ->
    buffer w' b = buffer w b;
  post_buffer : buffer w' (buf batch) =
    splice (buffer w (buf batch)) (off batch) (len batch) (view w' batch)
}.

(** What a run of the loop leaves behind. *)
Record loop_post (w w' : world) (Bf Sf : matrix) (iters : nat) : Prop := {
  lp_batch : view w' batch = Bf;
  lp_space : view w' ss = Sf;
  lp_feat : view w' af = view w af;
  lp_obj : obj w' = obj w;
  lp_rng : rng w' = rng w;
  lp_calls : length (calls w') = (length (calls w) + 2 * iters)%nat;
  lp_mlen : (mlen w <= mlen w')%nat;
  lp_frame : forall b, (b < mlen w)%nat -> b <> buf batch -> b <> buf ss ->
    buffer w' b = buffer w b;
  lp_buffer : buffer w' (buf batch) =
    splice (buffer w (buf batch)) (off batch) (len batch) Bf
}.

End LoopState.

(** *** Rows, passes and the search space *)

Section RowWords.

Context {R : Runtime}.
Variables (th clip_min clip_max : Q).

(** Every active sample has an eligible feature. *)
Definition live (B : matrix) (act : list nat) : Prop :=
  forall r, r ∈ act ->
    exists row f v, B !! r = Some row /\ row !! f = Some v /\
                    eligible th clip_min clip_max v = true.

(** Every entry of [B'] is the entry of [B] at its place after some number
    of clamped updates. *)
Definition moved (B B' : matrix) : Prop :=
  length B' = length B /\
  forall r row, B !! r = Some row ->
    exists row', B' !! r = Some row' /\
      forall f, exists k,
        row' !! f = Nat.iter k (clip_step th clip_min clip_max) <$> row !! f.

(** Sample [r] has a feature that can still be moved. *)
Definition has_eligible (B : matrix) (r : nat) : Prop :=
  exists row f v, B !! r = Some row /\ row !! f = Some v /\
                  eligible th clip_min clip_max v = true.

(** The sums the loop computes on values of [G] are not rounded: [G] holds
    of what a clamped update makes of a value of [G], and adding [theta]
    to a value of [G] that can still be moved gives the sum of the two. *)
Definition exact_on (G : Q -> Prop) : Prop :=
  forall v, G v ->
    G (clip_step th clip_min clip_max v) /\
    (eligible th clip_min clip_max v = true -> float_add v th == v + th).

End RowWords.

(** [theta], the clip bounds and every value of [B] are small multiples of
    [2^-e], with [e <= 14]: the sums [v + theta] a loop on [B] computes are
    not rounded.  ([1e16 + 1.0], which is [1e16], is not such a sum.) *)
Definition addition_exact (e : nat) (th clip_min clip_max : Q) (B : matrix) : bool :=
  (e <=? 14)%nat && on_grid e th && on_grid e clip_min && on_grid e clip_max
  && forallb (forallb (on_grid e)) B.

(** Every entry of [S'] is the entry of [S] at its place, or 0. *)
Definition kept_or_cleared (S S' : matrix) : Prop :=
  forall r srow', S' !! r = Some srow' ->
    exists srow, S !! r = Some srow /\
      forall f s', srow' !! f = Some s' ->
        exists s, srow !! f = Some s /\ (s' = 0 \/ s' = s).

(** [clip_func(clip_value, v + theta)] with the two cases written out. *)
Definition clamped_step {R : Runtime} (th clip_min clip_max v : Q) : Q :=
  if gtb th 0 then Qmin clip_max (float_add v th)
  else Qmax clip_min (float_add v th).

(** *** One batch *)

(** The rows of the batch a run of [attack_batch] works on, and its first
    [active_indices]. *)
Definition batch_of (x_adv : arr) (bs : Z) (batch_id : nat) : arr :=
  slice x_adv (Z.to_nat (Z.of_nat batch_id * bs))
              (Z.to_nat ((Z.of_nat batch_id + 1) * bs)).

Definition first_active (preds targets : list nat) (bs : Z) (batch_id : nat) : list nat :=
  np_where
    (ne_mask (slice_list preds (Z.to_nat (Z.of_nat batch_id * bs))
                         (Z.to_nat ((Z.of_nat batch_id + 1) * bs)))
             (slice_list targets (Z.to_nat (Z.of_nat batch_id * bs))
                         (Z.to_nat ((Z.of_nat batch_id + 1) * bs)))).

Definition batch_target (targets : list nat) (bs : Z) (batch_id : nat) : list nat :=
  slice_list targets (Z.to_nat (Z.of_nat batch_id * bs))
             (Z.to_nat ((Z.of_nat batch_id + 1) * bs)).

(** What a run of [attack_batch] leaves behind. *)
Record batch_post (x_adv : arr) (batch_id : nat) (w w' : world) (Bf : matrix) : Prop := {
  bp_view : view w' (batch_of x_adv (batch_size (obj w)) batch_id) = Bf;
  bp_obj : obj w' = obj w;
  bp_rng : rng w' = rng w;
  bp_mlen : (mlen w <= mlen w')%nat;
  bp_frame : forall b, (b < mlen w)%nat -> b <> buf x_adv -> buffer w' b = buffer w b;
  bp_buffer : buffer w' (buf x_adv) =
    splice (buffer w (buf x_adv))
           (off (batch_of x_adv (batch_size (obj w)) batch_id))
           (len (batch_of x_adv (batch_size (obj w)) batch_id)) Bf
}.

(** *** The whole run *)

(** [set_params] saves what the base class saves, then checks. *)
Definition valid_params (self : attack) : bool :=
  negb (leb (gamma self) 0 || gtb (gamma self) 1) && negb (batch_size self <=? 0)%Z.

(** The saved attributes are refused. *)
Definition refused (self : attack) : Prop :=
  gamma self <= 0 \/ 1 < gamma self \/ (batch_size self <= 0)%Z.

(** What holds between batches of the working copy of [N] rows of [F]
    entries in buffer [c]: the attack object is [o], the buffers below [c]
    are those of [w0], and [P] holds of every value. *)
Record gen_inv (c N F : nat) (o : attack) (w0 : world) (P : Q -> Prop) (w : world)
  : Prop := {
  gi_buf : (c < mlen w)%nat;
  gi_shape : has_shape N F (buffer w c);
  gi_obj : obj w = o;
  gi_frame : forall b, (b < c)%nat -> buffer w b = buffer w0 b;
  gi_P : Forall (Forall P) (buffer w c)
}.

(** The class the [n]-th raw draw selects for a sample labelled [p]. *)
Definition drawn {R : Runtime} (nb p n : nat) : nat :=
  default 0%nat
    (other_classes nb p !! (random_raw n mod length (other_classes nb p))%nat).

(** *** The sample runtime *)

(** What [best_from] has found once it has scanned the positions below [i]. *)
Definition best_inv (skip : option nat) (L : list ext) (i : nat)
    (cur : option (nat * ext)) : Prop :=
  match cur with
  | None => forall k, (k < i)%nat -> (k < length L)%nat -> skip = Some k
  | Some (bi, be) =>
      L !! bi = Some be /\ skip <> Some bi /\
      forall k e, (k < i)%nat -> L !! k = Some e -> skip <> Some k -> ext_le e be
  end.

(** Worlds and arguments of the runs the properties are tried on. *)
Module Runs.

Import Demo.

(** One sample of two features, both at [clip_max = 1]; [theta = 0.25];
    the classifier answers class 0 and the target is class 1. *)
Definition saturated : world := mkWorld [[[1; 1]]] [] 0 (mkAttack (1 # 4) 1 1 2).

(** The same with both features at [clip_min = 0]. *)
Definition fresh : world := mkWorld [[[0; 0]]] [] 0 (mkAttack (1 # 4) 1 1 2).

(** Both features at 0.5 and [theta = 0]. *)
Definition stuck : world := mkWorld [[[1 # 2; 1 # 2]]] [] 0 (mkAttack 0 1 1 2).

Definition sample : arr := mkArr 0 0 1 [2%nat].

(** The state of the loop of C1: [batch], [search_space] and [all_feat] of
    one sample of four features. *)
Definition looping : world :=
  mkWorld [[[0; 0; 0; 0]]; [[1; 1; 1; 1]]; [[0; 0; 0; 0]]] [] 0
          (mkAttack (3 # 10) 1 1 4).

(** Both features at [2^53], [theta = 1]; the clip range of the run is
    [[0, 2^53 + 2]]. *)
Definition absorbed : world :=
  mkWorld [[[two_53; two_53]]] [] 0 (mkAttack 1 1 1 2).

Definition no_kwargs : kwargs := mkKwargs None None None None.

Definition to_class_1 : kwargs := mkKwargs (Some [[0; 1]]) None None None.

End Runs.

(** More worlds and arguments to run the attack on. *)
Module MoreRuns.

Import Demo.

(** Two samples of two features in one batch: the first at [clip_min = 0],
    the second at [clip_max = 1]; [theta = 0.25]. *)
Definition pair : world := mkWorld [[[0; 0]; [1; 1]]] [] 0 (mkAttack (1 # 4) 1 2 2).

Definition two_samples : arr := mkArr 0 0 2 [2%nat].

(** One sample of one feature. *)
Definition lone : world := mkWorld [[[0]]] [] 0 (mkAttack (1 # 4) 1 1 1).

Definition one_feature : arr := mkArr 0 0 1 [1%nat].

(** Five samples, to be cut into batches. *)
Definition five_samples : arr := mkArr 0 0 5 [2%nat].



(** The state of a loop on one sample of four features, all at 0: [batch],
    [search_space] and [all_feat]; [theta = 0.25]. *)
Definition in_quarters : world :=
  mkWorld [[[0; 0; 0; 0]]; [[1; 1; 1; 1]]; [[0; 0; 0; 0]]] [] 0
          (mkAttack (1 # 4) 1 1 4).

End MoreRuns.

(** * Facts *)

(** ** Comparisons *)

Section ScalarFacts.

Lemma ltb_lt a b : ltb a b = true <-> a < b.
Proof.
  unfold ltb. rewrite Qlt_alt. destruct (a ?= b); intuition congruence.
Qed.

Lemma ltb_ge a b : ltb a b = false <-> b <= a.
Proof.
  split; intros H.
  - apply Qnot_lt_le. intros Hlt. apply ltb_lt in Hlt. congruence.
  - destruct (ltb a b) eqn:E; [|reflexivity].
    apply ltb_lt in E. exfalso. exact (Qlt_not_le _ _ E H).
Qed.

Lemma eqb_eq a b : eqb a b = true <-> a == b.
Proof. apply Qeq_bool_iff. Qed.

Lemma leb_le a b : leb a b = true <-> a <= b.
Proof. apply Qle_bool_iff. Qed.

Lemma ext_le_refl e : ext_le e e.
Proof.
  destruct e; unfold ext_le; simpl; auto. apply leb_le. apply Qle_refl.
Qed.

Lemma ext_le_trans a b c : ext_le a b -> ext_le b c -> ext_le a c.
Proof.
  unfold ext_le. destruct a, b, c; simpl; auto; try discriminate.
  rewrite !leb_le. apply Qle_trans.
Qed.

Lemma ext_le_total a b : ext_le a b \/ ext_le b a.
Proof.
  unfold ext_le. destruct a, b; simpl; auto.
  rewrite !leb_le. destruct (Qlt_le_dec q q0) as [H|H]; auto.
  left. apply Qlt_le_weak, H.
Qed.

Lemma ext_opp_le a b : ext_le (ext_opp a) (ext_opp b) <-> ext_le b a.
Proof.
  unfold ext_le. destruct a, b; simpl; try tauto; try (split; discriminate).
  rewrite !leb_le. split; intros H.
  - apply Qopp_le_compat in H. now rewrite !Qopp_involutive in H.
  - now apply Qopp_le_compat.
Qed.


End ScalarFacts.

(** ** Small multiples of a power of two *)

Section GridFacts.

Variable e : nat.

Local Abbreviation scale := (inject_Z (2 ^ Z.of_nat e)).

Lemma scale_pos : 0 < scale.
Proof.
  change 0 with (inject_Z 0). rewrite <- Zlt_Qlt.
  apply Z.pow_pos_nonneg; lia.
Qed.

Lemma on_grid_spec v :
  on_grid e v = true <->
  exists m : Z, (Z.abs m <= 2 ^ 10)%Z /\ v * scale == inject_Z m.
Proof.
  unfold on_grid. cbv zeta. rewrite andb_true_iff, eqb_eq, Z.leb_le. split.
  - intros [H1 H2]. exists (Qfloor (v * scale)). split; [assumption|].
    symmetry. exact H1.
  - intros (m & Hm & E).
    assert (Hf : Qfloor (v * scale) = m).
    { rewrite E. apply Qfloor_Z. }
    rewrite Hf. split; [symmetry; exact E|exact Hm].
Qed.

Lemma on_grid_eq v v' : v == v' -> on_grid e v = true -> on_grid e v' = true.
Proof.
  intros E. rewrite !on_grid_spec. intros (m & Hm & H).
  exists m. split; [assumption|]. now rewrite <- E.
Qed.

Lemma on_grid_sum x y :
  on_grid e x = true -> on_grid e y = true ->
  exists m : Z, (x + y) * scale == inject_Z m.
Proof.
  rewrite !on_grid_spec. intros (mx & _ & Hx) (my & _ & Hy).
  exists (mx + my)%Z. rewrite inject_Z_plus, <- Hx, <- Hy. ring.
Qed.

Lemma grid_le a b ma mb :
  a * scale == inject_Z ma -> b * scale == inject_Z mb -> a <= b -> (ma <= mb)%Z.
Proof.
  intros Ha Hb Hle. rewrite Zle_Qle, <- Ha, <- Hb.
  apply Qmult_le_compat_r; [assumption|]. apply Qlt_le_weak, scale_pos.
Qed.

(** A multiple of the grid step between two values of the grid is of the
    grid. *)
Lemma on_grid_between a b v m :
  on_grid e a = true -> on_grid e b = true ->
  v * scale == inject_Z m -> a <= v -> v <= b ->
  on_grid e v = true.
Proof.
  intros Ha Hb Hv Hlo Hhi.
  apply on_grid_spec in Ha as (ma & Hma & Ea).
  apply on_grid_spec in Hb as (mb & Hmb & Eb).
  apply on_grid_spec. exists m. split; [|assumption].
  pose proof (grid_le a v ma m Ea Hv Hlo).
  pose proof (grid_le v b m mb Hv Eb Hhi). lia.
Qed.

End GridFacts.

(** ** The store *)

Section StoreFacts.

Implicit Types (w : world) (a : arr) (rows new : matrix).

Lemma mlen_alloc w rows : mlen (alloc_world w rows) = S (mlen w).
Proof. unfold mlen, alloc_world. simpl. rewrite length_app. simpl. lia. Qed.

Lemma mlen_store w a new : mlen (store_world w a new) = mlen w.
Proof. unfold mlen, store_world. simpl. apply length_insert. Qed.

Lemma mlen_call w e : mlen (with_call w e) = mlen w.
Proof. reflexivity. Qed.

Lemma buffer_alloc_old w rows b :
  (b < mlen w)%nat -> buffer (alloc_world w rows) b = buffer w b.
Proof.
  intros H. unfold buffer, alloc_world. simpl. now rewrite lookup_app_l.
Qed.

Lemma buffer_alloc_new w rows : buffer (alloc_world w rows) (mlen w) = rows.
Proof.
  unfold buffer, alloc_world, mlen. simpl.
  now rewrite list_lookup_middle.
Qed.

Lemma buffer_store_ne w a new b :
  b <> buf a -> buffer (store_world w a new) b = buffer w b.
Proof.
  intros H. unfold buffer, store_world. simpl.
  rewrite list_lookup_insert_ne; auto.
Qed.

Lemma buffer_store_eq w a new :
  (buf a < mlen w)%nat ->
  buffer (store_world w a new) (buf a) = splice (buffer w (buf a)) (off a) (len a) new.
Proof.
  intros H. unfold buffer at 1, store_world. simpl.
  now rewrite list_lookup_insert_eq.
Qed.

Lemma buffer_call w e b : buffer (with_call w e) b = buffer w b.
Proof. reflexivity. Qed.

Lemma length_splice rows o n new :
  (o + n <= length rows)%nat -> length new = n ->
  length (splice rows o n new) = length rows.
Proof.
  intros H1 H2. unfold splice.
  rewrite !length_app, length_take, length_drop. lia.
Qed.

Lemma view_splice rows o n new :
  (o <= length rows)%nat -> length new = n ->
  take n (drop o (splice rows o n new)) = new.
Proof.
  intros H1 H2. unfold splice.
  rewrite drop_app_length' by (rewrite length_take; lia).
  now apply take_app_length'.
Qed.

Lemma view_alloc_old w rows a :
  (buf a < mlen w)%nat -> view (alloc_world w rows) a = view w a.
Proof. intros H. unfold view. now rewrite buffer_alloc_old. Qed.

Lemma view_alloc_new w rows ds :
  view (alloc_world w rows) (mkArr (mlen w) 0 (length rows) ds) = rows.
Proof.
  unfold view. simpl. rewrite buffer_alloc_new, drop_0. apply firstn_all.
Qed.

Lemma view_store_ne w a new a' :
  buf a' <> buf a -> view (store_world w a new) a' = view w a'.
Proof. intros H. unfold view. now rewrite buffer_store_ne. Qed.

Lemma view_store_eq w a new :
  wf_view w a -> length new = len a -> view (store_world w a new) a = new.
Proof.
  intros [H1 H2] H3. unfold view. rewrite buffer_store_eq by assumption.
  apply view_splice; [lia | assumption].
Qed.

Lemma view_call w e a : view (with_call w e) a = view w a.
Proof. reflexivity. Qed.

Lemma wf_view_alloc_old w rows a : wf_view w a -> wf_view (alloc_world w rows) a.
Proof.
  intros [H1 H2]. split.
  - rewrite mlen_alloc. lia.
  - now rewrite buffer_alloc_old.
Qed.

Lemma wf_view_alloc_new w rows ds :
  wf_view (alloc_world w rows) (mkArr (mlen w) 0 (length rows) ds).
Proof.
  split; simpl.
  - rewrite mlen_alloc. lia.
  - rewrite buffer_alloc_new. lia.
Qed.

Lemma wf_view_store_ne w a new a' :
  buf a' <> buf a -> wf_view w a' -> wf_view (store_world w a new) a'.
Proof.
  intros H [H1 H2]. split.
  - now rewrite mlen_store.
  - now rewrite buffer_store_ne.
Qed.

Lemma wf_view_store_eq w a new :
  wf_view w a -> length new = len a -> wf_view (store_world w a new) a.
Proof.
  intros [H1 H2] H3. split.
  - now rewrite mlen_store.
  - rewrite buffer_store_eq by assumption. rewrite length_splice; auto.
Qed.

Lemma wf_view_call w e a : wf_view (with_call w e) a <-> wf_view w a.
Proof. reflexivity. Qed.

Lemma length_view w a : wf_view w a -> length (view w a) = len a.
Proof.
  intros [H1 H2]. unfold view. rewrite length_take, length_drop. lia.
Qed.

End StoreFacts.

(** ** The primitives as equations *)

Section PrimitiveFacts.

Context {C : Classifier} {R : Runtime}.

Lemma bind_ok {A B} (m : M A) (k : A -> M B) w a w' :
  m w = Ok a w' -> bind m k w = k a w'.
Proof. intros H. unfold bind. now rewrite H. Qed.

Lemma bind_raise {A B} (m : M A) (k : A -> M B) w e w' :
  m w = Raise e w' -> bind m k w = Raise e w'.
Proof. intros H. unfold bind. now rewrite H. Qed.

Lemma bind_out_of_fuel {A B} (m : M A) (k : A -> M B) w :
  m w = OutOfFuel -> bind m k w = OutOfFuel.
Proof. intros H. unfold bind. now rewrite H. Qed.

Lemma length_rows_at {A} (rows : list (list A)) idx :
  length (rows_at rows idx) = length idx.
Proof. unfold rows_at. apply length_map. Qed.

Lemma getitem_rows_eq a idx w :
  in_range (length (view w a)) idx = true ->
  getitem_rows a idx w =
    Ok (mkArr (mlen w) 0 (length idx) (dims a))
       (alloc_world w (rows_at (view w a) idx)).
Proof.
  intros H. unfold getitem_rows, bind, load. rewrite H.
  unfold alloc. now rewrite length_rows_at.
Qed.

Lemma getitem_cells_eq a rs cs w :
  cells_in_range (view w a) rs cs = true ->
  getitem_cells a rs cs w = Ok (take_cells (view w a) rs cs) w.
Proof. intros H. unfold getitem_cells, bind, load. now rewrite H. Qed.

Lemma setitem_cells_eq a rs cs vals w :
  cells_in_range (view w a) rs cs = true ->
  length vals = length rs ->
  setitem_cells a rs cs vals w =
    Ok tt (store_world w a (put_cells (view w a) rs cs vals)).
Proof.
  intros H1 H2. unfold setitem_cells, bind, load. rewrite H1, H2.
  now rewrite Nat.eqb_refl.
Qed.

Lemma setitem_rows_eq a idx src w :
  in_range (length (view w a)) idx = true ->
  setitem_rows a idx src w =
    Ok tt (store_world w a (put_rows (view w a) idx (view w src))).
Proof. intros H. unfold setitem_rows, bind, load. now rewrite H. Qed.

Lemma setitem_mask_eq a mask v w :
  setitem_mask a mask v w = Ok tt (store_world w a (mask_assign (view w a) mask v)).
Proof. reflexivity. Qed.

Lemma np_reshape_eq a ds w :
  product ds = product (dims a) ->
  np_reshape a ds w = Ok (mkArr (buf a) (off a) (len a) ds) w.
Proof. intros H. unfold np_reshape. now rewrite decide_True. Qed.

Lemma classifier_predict_eq a w :
  classifier_predict a w = Ok (predict (view w a)) (with_call w (Predict (view w a))).
Proof. reflexivity. Qed.

Lemma view_reshape w a ds :
  view w (mkArr (buf a) (off a) (len a) ds) = view w a.
Proof. reflexivity. Qed.

End PrimitiveFacts.

(** Rewriting the view of an array through the worlds a run goes through. *)
Ltac store_side :=
  simpl;
  repeat first [ rewrite mlen_alloc | rewrite mlen_store | rewrite mlen_call
               | rewrite length_rows_at ];
  simpl; first [ lia | reflexivity | assumption | congruence ].

Lemma view_alloc_new' w rows a :
  buf a = mlen w -> off a = 0%nat -> len a = length rows ->
  view (alloc_world w rows) a = rows.
Proof.
  destruct a as [b o n ds]. simpl. intros -> -> ->. apply view_alloc_new.
Qed.

Ltac store_simpl :=
  repeat first
    [ rewrite view_call
    | rewrite view_alloc_new' by store_side
    | rewrite view_alloc_old by store_side
    | rewrite view_store_ne by store_side
    | rewrite mlen_alloc | rewrite mlen_store | rewrite mlen_call ].

(** ** Shapes *)

Section ShapeFacts.

Lemma has_shape_length {A} n f (rows : list (list A)) :
  has_shape n f rows -> length rows = n.
Proof. now intros [H _]. Qed.

Lemma has_shape_lookup {A} n f (rows : list (list A)) i r :
  has_shape n f rows -> rows !! i = Some r -> length r = f.
Proof.
  intros [_ H] Hi. rewrite Forall_forall in H. apply H.
  eapply list_elem_of_lookup_2; eauto.
Qed.

Lemma has_shape_intro {A} n f (rows : list (list A)) :
  length rows = n ->
  (forall i r, rows !! i = Some r -> length r = f) ->
  has_shape n f rows.
Proof.
  intros H1 H2. split; [assumption|]. apply Forall_forall. intros r Hr.
  apply list_elem_of_lookup_1 in Hr as [i Hi]. eauto.
Qed.

Lemma in_range_lookup n idx k i :
  in_range n idx = true -> idx !! k = Some i -> (i < n)%nat.
Proof.
  unfold in_range. rewrite forallb_forall. intros H Hk.
  apply Nat.ltb_lt, H. apply list_elem_of_In. eapply list_elem_of_lookup_2; eauto.
Qed.

Lemma lookup_rows_at {A} (rows : list (list A)) idx k :
  rows_at rows idx !! k = (fun i => default [] (rows !! i)) <$> idx !! k.
Proof. unfold rows_at. apply list_lookup_fmap. Qed.

Lemma has_shape_rows_at {A} n f (rows : list (list A)) idx :
  has_shape n f rows -> in_range n idx = true ->
  has_shape (length idx) f (rows_at rows idx).
Proof.
  intros Hs Hi. apply has_shape_intro; [apply length_map|].
  intros k r. rewrite lookup_rows_at. destruct (idx !! k) as [i|] eqn:E; [|discriminate].
  simpl. intros [= <-].
  pose proof (in_range_lookup _ _ _ _ Hi E) as Hlt.
  rewrite <- (has_shape_length _ _ _ Hs) in Hlt.
  apply lookup_lt_is_Some in Hlt as [r Hr]. rewrite Hr. simpl.
  eapply has_shape_lookup; eauto.
Qed.

Lemma has_shape_put_cell n f rows r c v :
  has_shape n f rows -> has_shape n f (put_cell rows r c v).
Proof.
  intros Hs. unfold put_cell. apply has_shape_intro.
  - rewrite length_insert. eapply has_shape_length; eauto.
  - intros i x Hi. destruct (decide (r = i)) as [->|Hne].
    + assert (Hlt : (i < length rows)%nat).
      { apply lookup_lt_Some in Hi. now rewrite length_insert in Hi. }
      rewrite list_lookup_insert_eq in Hi by assumption. injection Hi as <-.
      rewrite length_insert.
      apply lookup_lt_is_Some in Hlt as [y Hy]. rewrite Hy. simpl.
      eapply has_shape_lookup; eauto.
    + rewrite list_lookup_insert_ne in Hi by assumption.
      eapply has_shape_lookup; eauto.
Qed.

Lemma has_shape_put_cells n f rows rs cs vals :
  has_shape n f rows -> has_shape n f (put_cells rows rs cs vals).
Proof.
  revert rows cs vals. induction rs as [|r rs IH]; intros rows cs vals Hs; simpl.
  - assumption.
  - destruct cs as [|c cs]; [assumption|]. destruct vals as [|v vals]; [assumption|].
    apply IH. now apply has_shape_put_cell.
Qed.

Lemma has_shape_put_rows n f rows idx src k :
  has_shape n f rows -> has_shape k f src ->
  has_shape n f (put_rows rows idx src).
Proof.
  revert rows src k. induction idx as [|i idx IH]; intros rows src k Hs Hsrc; simpl.
  - assumption.
  - destruct src as [|r src]; [assumption|].
    destruct Hsrc as [Hlen Hall]. inversion Hall as [|? ? Hr Hall']; subst.
    apply (IH _ _ (length src)); [|now split].
    apply has_shape_intro.
    + rewrite length_insert. eapply has_shape_length; eauto.
    + intros j x Hj. destruct (decide (i = j)) as [->|Hne].
      * assert (Hlt : (j < length rows)%nat).
        { apply lookup_lt_Some in Hj. now rewrite length_insert in Hj. }
        rewrite list_lookup_insert_eq in Hj by assumption. now injection Hj as <-.
      * rewrite list_lookup_insert_ne in Hj by assumption.
        eapply has_shape_lookup; eauto.
Qed.

Lemma has_shape_zip_with {A B D} (g : A -> B -> D) n f
    (a : list (list A)) (b : list (list B)) :
  has_shape n f a -> has_shape n f b ->
  has_shape n f (zip_with (zip_with g) a b).
Proof.
  intros Ha Hb. apply has_shape_intro.
  - rewrite length_zip_with, (has_shape_length _ _ _ Ha), (has_shape_length _ _ _ Hb). lia.
  - intros i r. rewrite lookup_zip_with.
    destruct (a !! i) as [x|] eqn:Ex; [|discriminate]. simpl.
    destruct (b !! i) as [y|] eqn:Ey; [|discriminate]. simpl.
    intros [= <-]. rewrite length_zip_with.
    rewrite (has_shape_lookup _ _ _ _ _ Ha Ex), (has_shape_lookup _ _ _ _ _ Hb Ey). lia.
Qed.

Lemma has_shape_map {A B} (g : A -> B) n f (a : list (list A)) :
  has_shape n f a -> has_shape n f (map (map g) a).
Proof.
  intros Ha. apply has_shape_intro.
  - rewrite length_map. eapply has_shape_length; eauto.
  - intros i r. change (map (map g) a) with (map g <$> a).
    rewrite list_lookup_fmap. destruct (a !! i) as [x|] eqn:Ex; [|discriminate].
    simpl. intros [= <-]. rewrite length_map. eapply has_shape_lookup; eauto.
Qed.

Lemma has_shape_mask_assign n f rows (mask : list (list bool)) v :
  has_shape n f rows -> has_shape n f mask ->
  has_shape n f (mask_assign rows mask v).
Proof. apply has_shape_zip_with. Qed.

Lemma same_shape_true {A B} n f (a : list (list A)) (b : list (list B)) :
  has_shape n f a -> has_shape n f b -> same_shape a b = true.
Proof.
  revert n b. induction a as [|r a IH]; intros n b [Hl Ha] [Hl' Hb].
  - destruct b; [reflexivity|]. simpl in *. lia.
  - destruct b as [|s b]; [simpl in *; lia|]. simpl.
    inversion Ha as [|? ? Hr Ha']; inversion Hb as [|? ? Hs Hb']; subst.
    apply andb_true_intro. split.
    + apply Nat.eqb_eq. congruence.
    + apply (IH (length a)); split; auto; simpl in *; lia.
Qed.

Lemma has_shape_forallb n f (a : matrix) :
  has_shape n f a -> forallb (fun r => (length r =? f)%nat) a = true.
Proof.
  intros [_ H]. apply forallb_forall. intros r Hr.
  rewrite Forall_forall in H. apply Nat.eqb_eq, H. now apply list_elem_of_In.
Qed.

End ShapeFacts.

(** ** The saliency map *)

Section SaliencyFacts.

Context {C : Classifier} {R : Runtime} {COk : ClassifierOk C} {ROk : RuntimeOk R}.
Variables (th : Q) (F : nat).

Lemma has_shape_masked_grads n (grads ss : matrix) :
  has_shape n F grads -> has_shape n F ss ->
  has_shape n F (masked_grads th grads ss).
Proof.
  intros Hg Hs. unfold masked_grads, mask_assign_ext.
  apply has_shape_zip_with; unfold cmp_mask; repeat apply has_shape_map; assumption.
Qed.

Lemma lookup_saliency x t ss k ij :
  saliency th x t ss !! k = Some ij ->
  exists g, masked_grads th (class_gradient x t) ss !! k = Some g /\
            ij = argpartition_last2 (if gtb th 0 then g else map ext_opp g).
Proof.
  unfold saliency. destruct (gtb th 0).
  - change (map argpartition_last2 ?l) with (argpartition_last2 <$> l).
    rewrite list_lookup_fmap.
    destruct (masked_grads th (class_gradient x t) ss !! k) as [g|]; [|discriminate].
    simpl. intros [= <-]. eauto.
  - change (map argpartition_last2 (map (map ext_opp) ?l))
      with (argpartition_last2 <$> (map ext_opp <$> l)).
    rewrite !list_lookup_fmap.
    destruct (masked_grads th (class_gradient x t) ss !! k) as [g|]; [|discriminate].
    simpl. intros [= <-]. eauto.
Qed.

Lemma length_saliency n x t ss :
  has_shape n F x -> has_shape n F ss -> length (saliency th x t ss) = n.
Proof.
  intros Hx Hs. unfold saliency.
  pose proof (has_shape_masked_grads n _ _ (class_gradient_shape x t n F Hx) Hs) as [Hl _].
  destruct (gtb th 0); rewrite ?length_map; assumption.
Qed.

Lemma top2_of_lt row ij :
  top2_of row ij -> (ij.1 < length row)%nat /\ (ij.2 < length row)%nat /\ ij.1 <> ij.2.
Proof.
  intros (ei & ej & Hi & Hj & Hne & _).
  apply lookup_lt_Some in Hi, Hj. auto.
Qed.

Lemma saliency_in_range n x t ss k ij :
  (2 <= F)%nat -> has_shape n F x -> has_shape n F ss ->
  saliency th x t ss !! k = Some ij ->
  (ij.1 < F)%nat /\ (ij.2 < F)%nat /\ ij.1 <> ij.2.
Proof.
  intros HF Hx Hs Hk. apply lookup_saliency in Hk as (g & Hg & ->).
  pose proof (has_shape_masked_grads n _ _ (class_gradient_shape x t n F Hx) Hs) as Hm.
  pose proof (has_shape_lookup _ _ _ _ _ Hm Hg) as Hlen.
  set (row := if gtb th 0 then g else map ext_opp g).
  assert (Hrow : length row = F).
  { unfold row. destruct (gtb th 0); rewrite ?length_map; assumption. }
  rewrite <- Hrow. apply top2_of_lt. apply argpartition_last2_spec. lia.
Qed.

Lemma _saliency_map_eq x t ss w n :
  (2 <= F)%nat ->
  theta (obj w) = th -> nb_features (obj w) = F ->
  has_shape n F (view w x) -> has_shape n F (view w ss) ->
  _saliency_map x t ss w =
    Ok (saliency th (view w x) t (view w ss))
       (with_call w (ClassGradient (view w x) t)).
Proof.
  intros HF Hth HnF Hx Hs.
  pose proof (class_gradient_shape (view w x) t n F Hx) as Hg.
  unfold _saliency_map, bind, get_self, classifier_class_gradient, load.
  simpl. rewrite !view_call, HnF, Hth.
  rewrite (same_shape_true n F _ _ Hg Hs), (has_shape_forallb n F _ Hg). simpl.
  destruct (F <? 2)%nat eqn:E; [apply Nat.ltb_lt in E; lia|].
  unfold saliency, masked_grads, ret.
  destruct (gtb th 0); reflexivity.
Qed.

Lemma _saliency_map_raise x t ss w n :
  (F < 2)%nat ->
  nb_features (obj w) = F ->
  has_shape n F (view w x) -> has_shape n F (view w ss) ->
  _saliency_map x t ss w = Raise ValueError (with_call w (ClassGradient (view w x) t)).
Proof.
  intros HF HnF Hx Hs.
  pose proof (class_gradient_shape (view w x) t n F Hx) as Hg.
  unfold _saliency_map, bind, get_self, classifier_class_gradient, load.
  simpl. rewrite !view_call, HnF.
  rewrite (same_shape_true n F _ _ Hg Hs), (has_shape_forallb n F _ Hg). simpl.
  destruct (F <? 2)%nat eqn:E; [reflexivity|apply Nat.ltb_ge in E; lia].
Qed.

End SaliencyFacts.

(** ** Indexing with [np.arange] *)

Section CellFacts.

Lemma cells_in_range_arange (rows : matrix) cols k f :
  has_shape k f rows -> length cols = k -> Forall (fun c => (c < f)%nat) cols ->
  cells_in_range rows (np_arange k) cols = true.
Proof.
  intros Hs Hl Hc. unfold cells_in_range, np_arange.
  rewrite length_seq, Hl, Nat.eqb_refl. simpl.
  apply forallb_forall. intros b Hb.
  apply list_elem_of_In, elem_of_lookup_zip_with in Hb as (i & r & c & -> & Hr & Hcc).
  apply lookup_seq in Hr as [-> Hlt]. simpl in *.
  unfold cell_in_range.
  rewrite <- (has_shape_length _ _ _ Hs) in Hlt.
  apply lookup_lt_is_Some in Hlt as [row Hrow]. rewrite Hrow. simpl.
  rewrite (has_shape_lookup _ _ _ _ _ Hs Hrow).
  apply Nat.ltb_lt. rewrite Forall_forall in Hc. apply Hc.
  eapply list_elem_of_lookup_2; eauto.
Qed.

Lemma length_take_cells (rows : matrix) rs cs :
  length (take_cells rows rs cs) = Nat.min (length rs) (length cs).
Proof. unfold take_cells. apply length_zip_with. Qed.

End CellFacts.

Lemma wf_view_alloc_new' w rows a :
  buf a = mlen w -> off a = 0%nat -> len a = length rows ->
  wf_view (alloc_world w rows) a.
Proof.
  destruct a as [b o n ds]. simpl. intros -> -> ->. apply wf_view_alloc_new.
Qed.

Lemma let_pair_if {A B T} (c : bool) (p q : A * B) (K : A -> B -> T) :
  (let '(f, v) := if c then p else q in K f v)
  = K (if c then p.1 else q.1) (if c then p.2 else q.2).
Proof. destruct c, p, q; reflexivity. Qed.

Lemma wf_view_call' w e a : wf_view w a -> wf_view (with_call w e) a.
Proof. exact (fun H => H). Qed.

(** A view that was valid before the run is valid in the world reached. *)
Ltac wf_old :=
  repeat first
    [ apply wf_view_alloc_old
    | apply wf_view_call'
    | apply wf_view_store_ne; [ store_side | ] ];
  try (split; assumption); try assumption.

Ltac buffer_simpl :=
  repeat first
    [ rewrite buffer_call
    | rewrite buffer_alloc_old by store_side
    | rewrite buffer_store_ne by store_side ].

(** ** One pass of the loop body on the store *)

Section BodyFacts.

Context {C : Classifier} {R : Runtime} {COk : ClassifierOk C} {ROk : RuntimeOk R}.
Variables (dims : list nat) (clip_min clip_max : Q) (batch ss af : arr) (target : list nat).

Local Abbreviation loop_inv := (loop_inv dims batch ss af).
Local Abbreviation body_post := (body_post clip_min clip_max batch ss af target).

Lemma loop_body_eq w n F act :
  loop_inv w n F -> (2 <= F)%nat -> in_range n act = true ->
  exists w',
    loop_body dims clip_min clip_max batch ss af target act w
      = Ok (next_active (gamma (obj w)) F target 
               (next_batch (theta (obj w)) clip_min clip_max target (view w batch) (view w ss) act)
               (next_space (theta (obj w)) clip_min clip_max (next_batch (theta (obj w)) clip_min clip_max target (view w batch) (view w ss) act) (view w ss))
                (view w af)) w' /\
    body_post w w' act /\ loop_inv w' n F.
Proof.
  intros Inv HF2 Hact.
  destruct Inv as [[Hb1 Hb2] [Hs1 Hs2] [Ha1 Ha2] Hbs Hba Hsa Hdims HF HB HS HA].
  set (th := theta (obj w)). set (B := view w batch) in *.
  set (S := view w ss) in *. set (A := view w af) in *.
  unfold loop_body.
  erewrite bind_ok by reflexivity.
  erewrite bind_ok by (apply np_reshape_eq; assumption).
  erewrite bind_ok.
  2:{ apply getitem_rows_eq. rewrite view_reshape. fold B. rewrite (has_shape_length _ _ _ HB). assumption. }
  rewrite view_reshape. fold B.
  erewrite bind_ok.
  2:{ apply getitem_rows_eq. store_simpl. fold S. rewrite (has_shape_length _ _ _ HS). assumption. }
  store_simpl. fold S.
  assert (HBa : has_shape (length act) F (rows_at B act)) by (eapply has_shape_rows_at; eauto).
  assert (HSa : has_shape (length act) F (rows_at S act)) by (eapply has_shape_rows_at; eauto).
  assert (HAa : has_shape (length act) F (rows_at A act)) by (eapply has_shape_rows_at; eauto).
  erewrite bind_ok.
  2:{ apply (_saliency_map_eq th F) with (n := length act); try assumption; try reflexivity;
      store_simpl; assumption. }
  store_simpl.
  set (feat := saliency th (rows_at B act) _ (rows_at S act)).
  assert (Hfl : length feat = length act) by (eapply length_saliency; eauto).
  assert (Hf1 : Forall (fun c => (c < F)%nat) (map fst feat)).
  { apply Forall_forall. intros c Hc. apply list_elem_of_fmap in Hc as (ij & -> & Hij).
    apply list_elem_of_lookup_1 in Hij as [k Hk].
    eapply saliency_in_range in Hk; eauto. tauto. }
  assert (Hf2 : Forall (fun c => (c < F)%nat) (map snd feat)).
  { apply Forall_forall. intros c Hc. apply list_elem_of_fmap in Hc as (ij & -> & Hij).
    apply list_elem_of_lookup_1 in Hij as [k Hk].
    eapply saliency_in_range in Hk; eauto. tauto. }
  erewrite bind_ok.
  2:{ apply getitem_rows_eq. store_simpl. fold A. rewrite (has_shape_length _ _ _ HA). assumption. }
  store_simpl. fold A.
  assert (Hl1 : length (map fst feat) = length act) by now rewrite length_map.
  assert (Hl2 : length (map snd feat) = length act) by now rewrite length_map.
  assert (Hrep : length (repeat 1 (length act)) = length (np_arange (length act))).
  { unfold np_arange. now rewrite repeat_length, length_seq. }
  erewrite bind_ok.
  2:{ apply setitem_cells_eq; [|exact Hrep]. store_simpl.
      eapply cells_in_range_arange; eauto. }
  store_simpl.
  erewrite bind_ok.
  2:{ apply getitem_rows_eq. store_simpl. fold A. rewrite (has_shape_length _ _ _ HA). assumption. }
  store_simpl. fold A.
  erewrite bind_ok.
  2:{ apply setitem_cells_eq; [|exact Hrep]. store_simpl.
      eapply cells_in_range_arange; eauto. }
  store_simpl.
  rewrite let_pair_if. cbn [fst snd].
  fold (clip_value th clip_min clip_max). fold (clip_func th).
  fold (clip_step th clip_min clip_max).
  erewrite bind_ok.
  2:{ apply getitem_rows_eq. store_simpl. fold B. rewrite (has_shape_length _ _ _ HB). assumption. }
  store_simpl. fold B.
  erewrite bind_ok.
  2:{ apply getitem_cells_eq. store_simpl. eapply cells_in_range_arange; eauto. }
  store_simpl.
  erewrite bind_ok.
  2:{ apply setitem_cells_eq.
      - store_simpl. eapply cells_in_range_arange; eauto.
      - rewrite length_map, length_take_cells. unfold np_arange. rewrite length_seq. lia. }
  store_simpl.
  match goal with |- context [store_world ?W ?a (put_cells (rows_at B act) ?rs ?cs ?vs)] =>
    set (T1 := put_cells (rows_at B act) rs cs vs);
    assert (HT1 : has_shape (length act) F T1) by (apply has_shape_put_cells; assumption);
    assert (VT1 : view (store_world W a T1) a = T1)
      by (apply view_store_eq;
          [ apply wf_view_alloc_new'; store_side
          | simpl; apply (has_shape_length _ _ _ HT1) ])
  end.
  erewrite bind_ok.
  2:{ apply getitem_cells_eq. rewrite VT1. eapply cells_in_range_arange; eauto. }
  rewrite VT1.
  erewrite bind_ok.
  2:{ apply setitem_cells_eq.
      - rewrite VT1. eapply cells_in_range_arange; eauto.
      - rewrite length_map, length_take_cells. unfold np_arange. rewrite length_seq. lia. }
  rewrite VT1.
  match goal with |- context [store_world (store_world ?W ?a T1) ?a ?T] =>
    set (T2 := T);
    assert (HT2 : has_shape (length act) F T2) by (apply has_shape_put_cells; assumption);
    assert (WT1 : wf_view (store_world W a T1) a)
      by (apply wf_view_store_eq;
          [ apply wf_view_alloc_new'; store_side
          | simpl; apply (has_shape_length _ _ _ HT1) ]);
    assert (VT2 : view (store_world (store_world W a T1) a T2) a = T2)
      by (apply view_store_eq; [exact WT1 | simpl; apply (has_shape_length _ _ _ HT2)])
  end.
  erewrite bind_ok.
  2:{ apply setitem_rows_eq. store_simpl. fold B. rewrite (has_shape_length _ _ _ HB). assumption. }
  rewrite VT2. store_simpl. fold B.
  assert (Hlenb : len batch = n).
  { rewrite <- (has_shape_length _ _ _ HB). symmetry. apply length_view. now split. }
  match goal with |- context [store_world ?W batch ?X] =>
    set (W10 := W); set (B1 := X);
    assert (HB1 : has_shape n F B1) by (eapply has_shape_put_rows; eauto);
    assert (WB10 : wf_view W10 batch) by (unfold W10; wf_old);
    assert (VB1 : view (store_world W10 batch B1) batch = B1)
      by (apply view_store_eq; [exact WB10 | rewrite Hlenb; apply (has_shape_length _ _ _ HB1)])
  end.
  erewrite bind_ok by reflexivity.
  rewrite VB1.
  erewrite bind_ok by apply setitem_mask_eq.
  rewrite view_store_ne by auto.
  replace (view W10 ss) with S by (unfold W10; store_simpl; reflexivity).
  match goal with |- context [store_world ?W ss ?X] =>
    set (W11 := W); set (S1 := X);
    assert (HS1 : has_shape n F S1)
      by (apply has_shape_mask_assign; [assumption | unfold cmp_mask; apply has_shape_map; assumption]);
    assert (WS11 : wf_view W11 ss) by (unfold W11, W10; wf_old)
  end.
  assert (Hlens : len ss = n).
  { rewrite <- (has_shape_length _ _ _ HS). symmetry. apply length_view. now split. }
  assert (VS1 : view (store_world W11 ss S1) ss = S1)
      by (apply view_store_eq; [exact WS11 | rewrite Hlens; apply (has_shape_length _ _ _ HS1)]).
  erewrite bind_ok by (apply np_reshape_eq; assumption).
  erewrite bind_ok by apply classifier_predict_eq.
  rewrite view_reshape.
  erewrite bind_ok by reflexivity.
  erewrite bind_ok by reflexivity.
  store_simpl. rewrite VS1.
  assert (VB11 : view W11 batch = B1) by exact VB1.
  assert (VA11 : view W11 af = A).
  { unfold W11. rewrite view_store_ne by auto. unfold W10. store_simpl. reflexivity. }
  rewrite VB11, VA11. unfold ret. rewrite HF.
  eexists. split; [reflexivity|].
  assert (Vb : view (with_call (store_world W11 ss S1) (Predict B1)) batch = B1).
  { rewrite view_call, view_store_ne by auto. exact VB11. }
  assert (Wb : wf_view (with_call (store_world W11 ss S1) (Predict B1)) batch).
  { apply wf_view_call', wf_view_store_ne; [auto|].
    apply wf_view_store_eq; [exact WB10|]. rewrite Hlenb. apply (has_shape_length _ _ _ HB1). }
  assert (Ws : wf_view (with_call (store_world W11 ss S1) (Predict B1)) ss).
  { apply wf_view_call', wf_view_store_eq; [exact WS11|].
    rewrite Hlens. apply (has_shape_length _ _ _ HS1). }
  assert (Wa : wf_view (with_call (store_world W11 ss S1) (Predict B1)) af).
  { apply wf_view_call', wf_view_store_ne; [auto|].
    apply wf_view_store_ne; [auto|]. unfold W10. wf_old. }
  assert (Va : view (with_call (store_world W11 ss S1) (Predict B1)) af = A).
  { rewrite view_call, view_store_ne by auto. exact VA11. }
  split; [|split; try assumption;
           [ rewrite Vb; exact HB1
           | rewrite view_call, VS1; exact HS1
           | rewrite Va; exact HA ]].
  split.
  - rewrite Vb. reflexivity.
  - rewrite Vb, view_call, VS1. reflexivity.
  - exact Va.
  - exact Wb.
  - exact Ws.
  - exact Wa.
  - reflexivity.
  - reflexivity.
  - rewrite Vb. unfold W11, W10. simpl. rewrite <- app_assoc. reflexivity.
  - unfold W11, W10. store_simpl. lia.
  - intros b Hb Hnb Hns. unfold W11, W10. buffer_simpl. reflexivity.
  - rewrite Vb. rewrite buffer_call, buffer_store_ne by auto.
    unfold W11. rewrite buffer_store_eq by (unfold W10; store_side).
    unfold W10. buffer_simpl. reflexivity.
Qed.
(** With fewer than two features [np.argpartition] refuses [kth = -2]: the
    pass raises before anything is written. *)
Lemma loop_body_raise w n F act :
  loop_inv w n F -> (F < 2)%nat -> in_range n act = true ->
  exists w',
    loop_body dims clip_min clip_max batch ss af target act w = Raise ValueError w' /\
    forall b, (b < mlen w)%nat -> buffer w' b = buffer w b.
Proof.
  intros Inv HF2 Hact.
  destruct Inv as [[Hb1 Hb2] [Hs1 Hs2] [Ha1 Ha2] Hbs Hba Hsa Hdims HF HB HS HA].
  set (B := view w batch) in *. set (S := view w ss) in *.
  unfold loop_body.
  erewrite bind_ok by reflexivity.
  erewrite bind_ok by (apply np_reshape_eq; assumption).
  erewrite bind_ok.
  2:{ apply getitem_rows_eq. rewrite view_reshape. fold B.
      rewrite (has_shape_length _ _ _ HB). assumption. }
  rewrite view_reshape. fold B.
  erewrite bind_ok.
  2:{ apply getitem_rows_eq. store_simpl. fold S.
      rewrite (has_shape_length _ _ _ HS). assumption. }
  store_simpl. fold S.
  assert (HBa : has_shape (length act) F (rows_at B act)) by (eapply has_shape_rows_at; eauto).
  assert (HSa : has_shape (length act) F (rows_at S act)) by (eapply has_shape_rows_at; eauto).
  eexists. split.
  - apply bind_raise.
    apply (_saliency_map_raise F) with (n := length act); try assumption;
      store_simpl; assumption.
  - intros b Hb. rewrite buffer_call.
    rewrite buffer_alloc_old by (rewrite mlen_alloc; lia).
    now apply buffer_alloc_old.
Qed.

End BodyFacts.

(** ** Index arrays *)

Section IndexFacts.

Lemma elem_of_where_from i c k :
  k ∈ where_from i c <-> exists j, k = (i + j)%nat /\ c !! j = Some true.
Proof.
  revert i. induction c as [|b c IH]; intros i; simpl.
  - split; [intros H; inversion H | intros (j & _ & H); discriminate].
  - assert (Hrec : k ∈ where_from (S i) c <->
                   exists j, k = (i + S j)%nat /\ c !! j = Some true).
    { rewrite IH. split; intros (j & -> & Hj); exists j; split; auto; lia. }
    destruct b.
    + rewrite elem_of_cons, Hrec. split.
      * intros [-> | (j & -> & Hj)]; [exists 0%nat | exists (S j)]; split; auto; lia.
      * intros ([|j] & -> & Hj); [left; lia | right; eauto].
    + rewrite Hrec. split.
      * intros (j & -> & Hj). exists (S j). auto.
      * intros ([|j] & -> & Hj); [discriminate | eauto].
Qed.

Lemma elem_of_np_where c k : k ∈ np_where c <-> c !! k = Some true.
Proof.
  unfold np_where. rewrite elem_of_where_from. split.
  - now intros (j & -> & Hj).
  - intros H. exists k. auto.
Qed.

Lemma NoDup_where_from i c : NoDup (where_from i c).
Proof.
  revert i. induction c as [|b c IH]; intros i; simpl.
  - constructor.
  - destruct b; [|apply IH]. constructor; [|apply IH].
    rewrite elem_of_where_from. intros (j & Hj & _). lia.
Qed.

Lemma NoDup_np_where c : NoDup (np_where c).
Proof. apply NoDup_where_from. Qed.

Lemma in_range_intro n idx :
  (forall i, i ∈ idx -> (i < n)%nat) -> in_range n idx = true.
Proof.
  intros H. apply forallb_forall. intros i Hi. apply Nat.ltb_lt, H.
  now apply list_elem_of_In.
Qed.

Lemma in_range_elem n idx i : in_range n idx = true -> i ∈ idx -> (i < n)%nat.
Proof.
  intros H Hi. apply list_elem_of_lookup_1 in Hi as [k Hk].
  eapply in_range_lookup; eauto.
Qed.

Lemma in_range_np_where n c : (length c <= n)%nat -> in_range n (np_where c) = true.
Proof.
  intros H. apply in_range_intro. intros i Hi.
  apply elem_of_np_where, lookup_lt_Some in Hi. lia.
Qed.

(** [rows[idx] = src] row by row, for an index array without repetition. *)
Lemma lookup_put_rows_notin (rows : matrix) idx src r :
  r ∉ idx -> put_rows rows idx src !! r = rows !! r.
Proof.
  revert rows src. induction idx as [|i idx IH]; intros rows src Hr; simpl.
  - reflexivity.
  - destruct src as [|s src]; [reflexivity|].
    rewrite not_elem_of_cons in Hr. destruct Hr as [Hne Hr].
    rewrite IH by assumption. now rewrite list_lookup_insert_ne.
Qed.

Lemma lookup_put_rows_in (rows : matrix) idx src k r s :
  NoDup idx -> idx !! k = Some r -> src !! k = Some s ->
  (r < length rows)%nat ->
  put_rows rows idx src !! r = Some s.
Proof.
  revert rows src k. induction idx as [|i idx IH]; intros rows src k Hnd Hk Hs Hlt.
  - discriminate.
  - destruct src as [|s0 src]; [discriminate|]. simpl.
    apply NoDup_cons in Hnd as [Hni Hnd].
    destruct k as [|k]; simpl in *.
    + injection Hk as ->. injection Hs as ->.
      rewrite lookup_put_rows_notin by assumption.
      now apply list_lookup_insert_eq.
    + apply (IH _ _ k); auto. now rewrite length_insert.
Qed.

(** [rows[np.arange(n), cs] = vals] row by row. *)
Lemma lookup_put_cells_low (rows : matrix) j m cs vals k :
  (k < j)%nat -> put_cells rows (seq j m) cs vals !! k = rows !! k.
Proof.
  revert rows j cs vals. induction m as [|m IH]; intros rows j cs vals Hk; simpl.
  - reflexivity.
  - destruct cs as [|c cs]; [reflexivity|]. destruct vals as [|v vals]; [reflexivity|].
    rewrite IH by lia. unfold put_cell. apply list_lookup_insert_ne. lia.
Qed.

Lemma lookup_put_cells_seq (rows : matrix) j m cs vals k row c v :
  rows !! (j + k)%nat = Some row -> cs !! k = Some c -> vals !! k = Some v ->
  (k < m)%nat ->
  put_cells rows (seq j m) cs vals !! (j + k)%nat = Some (<[c := v]> row).
Proof.
  revert rows j cs vals k. induction m as [|m IH]; intros rows j cs vals k Hr Hc Hv Hk.
  - lia.
  - destruct cs as [|c0 cs]; [discriminate|]. destruct vals as [|v0 vals]; [discriminate|].
    simpl. destruct k as [|k]; simpl in *.
    + injection Hc as ->. injection Hv as ->. rewrite Nat.add_0_r in *.
      rewrite lookup_put_cells_low by lia. unfold put_cell.
      rewrite Hr. simpl. apply list_lookup_insert_eq.
      now apply lookup_lt_Some in Hr.
    + replace (j + S k)%nat with (S j + k)%nat in * by lia.
      apply IH; auto; [|lia]. unfold put_cell.
      rewrite list_lookup_insert_ne by lia. assumption.
Qed.

Lemma lookup_put_cells_arange (rows : matrix) n cs vals k row c v :
  rows !! k = Some row -> cs !! k = Some c -> vals !! k = Some v -> (k < n)%nat ->
  put_cells rows (np_arange n) cs vals !! k = Some (<[c := v]> row).
Proof. intros. now apply (lookup_put_cells_seq rows 0 n cs vals k). Qed.

Lemma lookup_take_cells_arange (rows : matrix) n cs k row c :
  rows !! k = Some row -> cs !! k = Some c -> (k < n)%nat ->
  take_cells rows (np_arange n) cs !! k = Some (default 0 (row !! c)).
Proof.
  intros Hr Hc Hk. unfold take_cells, np_arange. rewrite lookup_zip_with.
  assert (Hs : seq 0 n !! k = Some k) by (apply lookup_seq; auto).
  rewrite Hs, Hc. simpl. unfold cell. now rewrite Hr.
Qed.

End IndexFacts.

(** ** The loop on the store *)

Section LoopFacts.

Context {C : Classifier} {R : Runtime} {COk : ClassifierOk C} {ROk : RuntimeOk R}.
Variables (dims : list nat) (clip_min clip_max : Q) (batch ss af : arr) (target : list nat).

Local Abbreviation loop_post := (loop_post batch ss af).

Lemma splice_splice (X : matrix) o n B1 B2 :
  (o + n <= length X)%nat -> length B1 = n ->
  splice (splice X o n B1) o n B2 = splice X o n B2.
Proof.
  intros H1 H2. unfold splice.
  rewrite take_app_length' by (rewrite length_take; lia).
  f_equal. f_equal.
  rewrite drop_app_ge by (rewrite length_take; lia).
  rewrite length_take, drop_app_ge by lia.
  rewrite drop_drop. f_equal. lia.
Qed.

Lemma in_range_next_active ga F B' S' (A : matrix) n :
  length A = n -> in_range n (next_active ga F target B' S' A) = true.
Proof.
  intros HA. unfold next_active. apply in_range_np_where.
  unfold and3, sum_axis1. rewrite !length_zip_with, !length_map. lia.
Qed.

Lemma batch_loop_eq fuel : forall w n F act,
  loop_inv dims batch ss af w n F -> (2 <= F)%nat -> in_range n act = true ->
  match loop_view (theta (obj w)) (gamma (obj w)) F clip_min clip_max target fuel
                  (view w batch) (view w ss) (view w af) act with
  | Some (tr, Bf, Sf) =>
      exists w',
        batch_loop fuel dims clip_min clip_max batch ss af target act w = Ok tr w' /\
        loop_post w w' Bf Sf (length tr) /\
        loop_inv dims batch ss af w' n F
  | None =>
      batch_loop fuel dims clip_min clip_max batch ss af target act w = OutOfFuel
  end.
Proof.
  induction fuel as [|fuel IH]; intros w n F act Inv HF2 Hact.
  - destruct act as [|a act]; simpl; [|reflexivity].
    exists w. split; [reflexivity|]. split; [|assumption].
    destruct Inv as [[Hb1 Hb2] _ _ _ _ _ _ _ HB _ _].
    split; auto; simpl; try lia.
    unfold splice. rewrite <- (take_drop (off batch) (buffer w (buf batch))) at 1.
    f_equal. unfold view.
    rewrite <- (take_drop (len batch) (drop (off batch) (buffer w (buf batch)))) at 1.
    f_equal. rewrite drop_drop. reflexivity.
  - destruct act as [|a act].
    + simpl. exists w. split; [reflexivity|]. split; [|assumption].
      destruct Inv as [[Hb1 Hb2] _ _ _ _ _ _ _ HB _ _].
      split; auto; simpl; try lia.
      unfold splice. rewrite <- (take_drop (off batch) (buffer w (buf batch))) at 1.
      f_equal. unfold view.
      rewrite <- (take_drop (len batch) (drop (off batch) (buffer w (buf batch)))) at 1.
      f_equal. rewrite drop_drop. reflexivity.
    + destruct (loop_body_eq dims clip_min clip_max batch ss af target w n F (a :: act)
                  Inv HF2 Hact)
        as (w1 & E1 & P1 & Inv1).
      cbn [loop_view batch_loop].
      rewrite (bind_ok _ _ _ _ _ E1).
      set (B1 := next_batch _ _ _ _ (view w batch) (view w ss) (a :: act)) in *.
      set (S1 := next_space _ _ _ B1 (view w ss)) in *.
      set (act1 := next_active _ _ _ B1 S1 (view w af)) in *.
      assert (Hact1 : in_range n act1 = true).
      { apply in_range_next_active. destruct Inv. eapply has_shape_length; eauto. }
      specialize (IH w1 n F act1 Inv1 HF2 Hact1).
      destruct P1 as [Pb Ps Pf Pwb Pws Pwf Pobj Prng Pcalls Pmlen Pframe Pbuf].
      rewrite Pb in Ps. fold B1 in Ps, Pb. fold S1 in Ps.
      rewrite Pobj, Pb, Pf, Ps in IH.
      destruct (loop_view _ _ _ _ _ _ fuel B1 S1 (view w af) act1) as [[[tr Bf] Sf]|].
      * destruct IH as (w' & E & P & Inv'). exists w'.
        rewrite (bind_ok _ _ _ _ _ E).
        split; [reflexivity|].
        split; [|exact Inv'].
        destruct P as [Qb Qs Qf Qobj Qrng Qcalls Qmlen Qframe Qbuf].
        split; try congruence.
        -- rewrite Qcalls, Pcalls. rewrite length_app. simpl. lia.
        -- lia.
        -- intros b Hb Hnb Hns. rewrite Qframe by (auto; lia). now apply Pframe.
        -- rewrite Qbuf, Pbuf. apply splice_splice.
           ++ destruct Inv as [[_ Hb2] _ _ _ _ _ _ _ _ _ _]. exact Hb2.
           ++ apply length_view. exact Pwb.
      * now apply bind_out_of_fuel.
Qed.

(** With fewer than two features the loop returns only when there is
    nothing to do. *)
Lemma batch_loop_small fuel w n F act tr w' :
  loop_inv dims batch ss af w n F -> (F < 2)%nat -> in_range n act = true ->
  batch_loop fuel dims clip_min clip_max batch ss af target act w = Ok tr w' ->
  act = [] /\ tr = [] /\ w' = w.
Proof.
  intros Inv HF2 Hact E. destruct act as [|a act].
  - destruct fuel; simpl in E; injection E as <- <-; auto.
  - destruct fuel as [|fuel]; [discriminate|]. cbn [batch_loop] in E.
    destruct (loop_body_raise dims clip_min clip_max batch ss af target w n F (a :: act)
                Inv HF2 Hact) as (w1 & E1 & _).
    rewrite (bind_raise _ _ _ _ _ E1) in E. discriminate.
Qed.

(** With fewer than two features the first pass raises, before anything is
    written. *)
Lemma batch_loop_raise fuel w n F act e w' :
  loop_inv dims batch ss af w n F -> (F < 2)%nat -> in_range n act = true ->
  batch_loop fuel dims clip_min clip_max batch ss af target act w = Raise e w' ->
  forall b, (b < mlen w)%nat -> buffer w' b = buffer w b.
Proof.
  intros Inv HF2 Hact E. destruct act as [|a act].
  - destruct fuel; simpl in E; discriminate.
  - destruct fuel as [|fuel]; [discriminate|]. cbn [batch_loop] in E.
    destruct (loop_body_raise dims clip_min clip_max batch ss af target w n F (a :: act)
                Inv HF2 Hact) as (w1 & E1 & Hfr).
    rewrite (bind_raise _ _ _ _ _ E1) in E. injection E as _ <-. exact Hfr.
Qed.

End LoopFacts.

(** ** One feature value under the clamped update *)

Section StepFacts.

Context {R : Runtime} {ROk : RuntimeOk R}.
Variables (th clip_min clip_max : Q).

Local Abbreviation elig := (eligible th clip_min clip_max).
Local Abbreviation cstep := (clip_step th clip_min clip_max).
Local Abbreviation cval := (clip_value th clip_min clip_max).
Local Abbreviation sleft := (steps_left th clip_min clip_max).

Lemma gtb_false_le a b : gtb a b = false <-> a <= b.
Proof. unfold gtb. apply ltb_ge. Qed.

Lemma gtb_true_lt a b : gtb a b = true <-> b < a.
Proof. unfold gtb. apply ltb_lt. Qed.

Lemma eqb_false a b : eqb a b = false <-> ~ a == b.
Proof.
  rewrite <- eqb_eq. destruct (eqb a b); split; intros; congruence.
Qed.

Lemma eligible_not_saturated v : elig v = true -> eqb v cval = false.
Proof.
  unfold eligible, clip_value. intros H. apply eqb_false. intros E.
  destruct (gtb th 0).
  - apply ltb_lt in H. rewrite E in H. exact (Qlt_irrefl _ H).
  - apply gtb_true_lt in H. rewrite E in H. exact (Qlt_irrefl _ H).
Qed.

Lemma ineligible_step v : elig v = false -> eqb (cstep v) cval = true.
Proof.
  unfold eligible, clip_step, clip_value, clip_func.
  intros H. apply eqb_eq.
  destruct (gtb th 0) eqn:Eth.
  - apply ltb_ge in H. apply gtb_true_lt in Eth. apply Q.min_l.
    eapply Qle_trans; [exact H|]. apply float_add_up. now apply Qlt_le_weak.
  - apply gtb_false_le in H. apply gtb_false_le in Eth. apply Q.max_l.
    eapply Qle_trans; [|exact H]. now apply float_add_down.
Qed.

Lemma step_dichotomy v : eqb (cstep v) cval = true \/ elig (cstep v) = true.
Proof.
  destruct (eqb (cstep v) cval) eqn:E; [now left|right].
  apply eqb_false in E. revert E.
  unfold eligible, clip_step, clip_value, clip_func.
  destruct (gtb th 0); intros E.
  - apply ltb_lt. pose proof (Q.le_min_l clip_max (float_add v th)) as H.
    apply Qle_lteq in H as [H|H]; tauto.
  - apply gtb_true_lt. pose proof (Q.le_max_l clip_min (float_add v th)) as H.
    apply Qle_lteq in H as [H|H]; [assumption|]. symmetry in H. tauto.
Qed.

Lemma eligible_step v : elig (cstep v) = true -> elig v = true.
Proof.
  intros H. destruct (elig v) eqn:E; [reflexivity|].
  apply ineligible_step in E. apply eligible_not_saturated in H. congruence.
Qed.

(** The search-space entry of a value after the pass: cleared where the new
    value sits on the bound, kept elsewhere. *)
Lemma space_entry_same v :
  (if eqb v cval then 0 else bit (elig v)) = bit (elig v).
Proof.
  destruct (eqb v cval) eqn:E; [|reflexivity].
  destruct (elig v) eqn:El; [|reflexivity].
  apply eligible_not_saturated in El. congruence.
Qed.

Lemma space_entry_step v :
  (if eqb (cstep v) cval then 0 else bit (elig v)) = bit (elig (cstep v)).
Proof.
  destruct (eqb (cstep v) cval) eqn:E.
  - destruct (elig (cstep v)) eqn:El; [|reflexivity].
    apply eligible_not_saturated in El. congruence.
  - destruct (step_dichotomy v) as [H|H]; [congruence|].
    rewrite H. now rewrite (eligible_step v H).
Qed.

(** Inside the clip range the update stays inside. *)
Lemma clip_step_range v :
  clip_min <= clip_max -> clip_min <= v <= clip_max ->
  clip_min <= cstep v <= clip_max.
Proof.
  intros Hc [Hlo Hhi]. unfold clip_step, clip_value, clip_func.
  destruct (gtb th 0) eqn:Eth.
  - apply gtb_true_lt in Eth. split; [|apply Q.le_min_l].
    apply Q.min_glb; [assumption|].
    eapply Qle_trans; [exact Hlo|]. apply float_add_up. now apply Qlt_le_weak.
  - apply gtb_false_le in Eth. split; [apply Q.le_max_l|].
    apply Q.max_lub; [assumption|].
    eapply Qle_trans; [|exact Hhi]. now apply float_add_down.
Qed.

(** ** The number of steps left *)

Lemma ceiling_pos x : 0 < x -> (0 < Qceiling x)%Z.
Proof.
  intros H. pose proof (Qle_ceiling x) as Hc.
  assert (Hz : 0 < inject_Z (Qceiling x)) by (eapply Qlt_le_trans; eauto).
  rewrite Zlt_Qlt. exact Hz.
Qed.

Lemma ceiling_pred x y : y == x - 1 -> (Qceiling y < Qceiling x)%Z.
Proof.
  intros E. pose proof (Qceiling_lt y) as H1. pose proof (Qle_ceiling x) as H2.
  assert (Hle : y <= x - 1) by (apply Qle_lteq; right; exact E).
  assert (H3 : inject_Z (Qceiling y - 1) < inject_Z (Qceiling x) - 1).
  { eapply Qlt_le_trans; [exact H1|]. eapply Qle_trans; [exact Hle|].
    apply Qplus_le_compat; [assumption|apply Qle_refl]. }
  assert (H4 : inject_Z (Qceiling y - 1) == inject_Z (Qceiling y) - 1).
  { unfold Zminus. rewrite inject_Z_plus. reflexivity. }
  rewrite H4 in H3.
  assert (H5 : inject_Z (Qceiling y) < inject_Z (Qceiling x)).
  { apply (Qplus_lt_l _ _ (- (1))). exact H3. }
  now rewrite <- Zlt_Qlt in H5.
Qed.

Lemma distance_pos v : ~ th == 0 -> elig v = true -> 0 < (cval - v) / th.
Proof.
  intros Hth H. unfold eligible, clip_value in *.
  destruct (gtb th 0) eqn:Eth.
  - apply gtb_true_lt in Eth. apply ltb_lt in H.
    apply Qlt_shift_div_l; [assumption|]. rewrite Qmult_0_l.
    unfold Qminus. rewrite <- (Qplus_opp_r v). apply Qplus_lt_l. assumption.
  - apply gtb_false_le in Eth. apply gtb_true_lt in H.
    assert (Hneg : th < 0).
    { apply Qle_lteq in Eth as [?|?]; [assumption|contradiction]. }
    assert (E : (clip_min - v) / th == (v - clip_min) / (- th)) by (field; assumption).
    rewrite E. apply Qlt_shift_div_l.
    + exact (Qopp_lt_compat th 0 Hneg).
    + rewrite Qmult_0_l. unfold Qminus. rewrite <- (Qplus_opp_r clip_min).
      apply Qplus_lt_l. assumption.
Qed.

Lemma steps_left_pos v : ~ th == 0 -> elig v = true -> (0 < sleft v)%nat.
Proof.
  intros Hth H. unfold steps_left. rewrite H.
  pose proof (ceiling_pos _ (distance_pos v Hth H)). lia.
Qed.

(** Where the sum is not rounded, a value that is still eligible after the
    update is the sum, and a step has been used up. *)
Lemma eligible_step_eq v :
  float_add v th == v + th -> elig (cstep v) = true -> cstep v == v + th.
Proof.
  intros Hx H. apply eligible_not_saturated, eqb_false in H.
  unfold clip_step, clip_func, clip_value in *.
  destruct (gtb th 0).
  - destruct (Q.min_spec clip_max (float_add v th)) as [[_ E]|[_ E]];
      [contradiction|]. now rewrite E.
  - destruct (Q.max_spec clip_min (float_add v th)) as [[_ E]|[_ E]];
      [|contradiction]. now rewrite E.
Qed.

Lemma steps_left_step v :
  ~ th == 0 -> float_add v th == v + th -> elig v = true ->
  (sleft (cstep v) < sleft v)%nat.
Proof.
  intros Hth Hx H. pose proof (steps_left_pos v Hth H) as Hpos.
  unfold steps_left in *. rewrite H in *.
  destruct (elig (cstep v)) eqn:E; [|assumption].
  pose proof (eligible_step_eq v Hx E) as Ev.
  assert (Hlt : (Qceiling ((cval - cstep v) / th) < Qceiling ((cval - v) / th))%Z).
  { apply ceiling_pred. rewrite Ev. field. assumption. }
  pose proof (ceiling_pos _ (distance_pos _ Hth E)). lia.
Qed.

Lemma steps_left_step_le v :
  ~ th == 0 -> (elig v = true -> float_add v th == v + th) ->
  (sleft (cstep v) <= sleft v)%nat.
Proof.
  intros Hth Hx. destruct (elig v) eqn:E.
  - pose proof (steps_left_step v Hth (Hx eq_refl) E). lia.
  - unfold steps_left. rewrite E.
    destruct (elig (cstep v)) eqn:E'; [|lia].
    apply eligible_step in E'. congruence.
Qed.

End StepFacts.

(** ** Where floats add without rounding *)

Section GridExact.

Context {R : Runtime} {ROk : RuntimeOk R}.

Lemma grid_exact_on e th clip_min clip_max :
  (e <= 14)%nat ->
  on_grid e th = true -> on_grid e clip_min = true -> on_grid e clip_max = true ->
  exact_on th clip_min clip_max (fun v => on_grid e v = true).
Proof.
  intros He Hth Hmin Hmax v Hv.
  pose proof (float_add_exact e v th He Hv Hth) as Hx.
  split; [|intros _; exact Hx].
  destruct (on_grid_sum e v th Hv Hth) as [m Hm].
  unfold clip_step, clip_func, clip_value.
  destruct (gtb th 0) eqn:Eth.
  - apply gtb_true_lt in Eth.
    destruct (Q.min_spec clip_max (float_add v th)) as [[_ E]|[Hle E]].
    + apply (on_grid_eq e clip_max); [symmetry; exact E|assumption].
    + apply (on_grid_eq e (v + th)); [rewrite E; symmetry; exact Hx|].
      apply (on_grid_between e v clip_max (v + th) m); auto.
      * rewrite <- (Qplus_0_r v) at 1. apply Qplus_le_r. now apply Qlt_le_weak.
      * rewrite <- Hx. exact Hle.
  - apply gtb_false_le in Eth.
    destruct (Q.max_spec clip_min (float_add v th)) as [[Hlt E]|[_ E]].
    + apply (on_grid_eq e (v + th)); [rewrite E; symmetry; exact Hx|].
      apply (on_grid_between e clip_min v (v + th) m); auto.
      * rewrite <- Hx. now apply Qlt_le_weak.
      * rewrite <- (Qplus_0_r v) at 2. apply Qplus_le_r. exact Eth.
    + apply (on_grid_eq e clip_min); [symmetry; exact E|assumption].
Qed.

Lemma forallb_Forall {A} (f : A -> bool) (l : list A) :
  forallb f l = true -> Forall (fun x => f x = true) l.
Proof.
  induction l as [|x l IH]; simpl; [constructor|].
  rewrite andb_true_iff. intros [Hx Hl]. constructor; auto.
Qed.

Lemma addition_exact_on e th clip_min clip_max (B : matrix) :
  addition_exact e th clip_min clip_max B = true ->
  exact_on th clip_min clip_max (fun v => on_grid e v = true) /\
  Forall (Forall (fun v => on_grid e v = true)) B.
Proof.
  unfold addition_exact. rewrite !andb_true_iff, Nat.leb_le.
  intros [[[[He Hth] Hmin] Hmax] HB]. split.
  - now apply grid_exact_on.
  - apply forallb_Forall in HB. eapply Forall_impl; [exact HB|].
    intros row. apply forallb_Forall.
Qed.

End GridExact.

(** ** One sample under the clamped update *)

Section RowFacts.

Context {R : Runtime} {ROk : RuntimeOk R}.
Variables (th clip_min clip_max : Q).

Local Abbreviation elig := (eligible th clip_min clip_max).
Local Abbreviation cstep := (clip_step th clip_min clip_max).
Local Abbreviation cval := (clip_value th clip_min clip_max).
Local Abbreviation sleft := (steps_left th clip_min clip_max).
Local Abbreviation srow := (step_row th clip_min clip_max).
Local Abbreviation rsteps := (row_steps th clip_min clip_max).

Lemma length_step_row row ij : length (srow row ij) = length row.
Proof. unfold step_row. now rewrite !length_insert. Qed.

(** Every entry of the new row is the old entry after zero, one or two
    clamped updates. *)
Lemma lookup_step_row row ij f :
  exists k, srow row ij !! f = Nat.iter k cstep <$> row !! f.
Proof.
  unfold step_row. destruct ij as [i j]. simpl.
  set (r1 := <[i := cstep (default 0 (row !! i))]> row).
  assert (H1 : exists k, r1 !! f = Nat.iter k cstep <$> row !! f).
  { unfold r1. destruct (decide (i = f)) as [->|Hne].
    - destruct (row !! f) as [v|] eqn:E.
      + exists 1%nat. rewrite list_lookup_insert_eq by (eapply lookup_lt_Some; eauto).
        reflexivity.
      + exists 0%nat. rewrite list_insert_ge by (now apply lookup_ge_None). now rewrite E.
    - exists 0%nat. rewrite list_lookup_insert_ne by assumption.
      now destruct (row !! f). }
  destruct H1 as [k1 H1].
  destruct (decide (j = f)) as [->|Hne].
  - destruct (r1 !! f) as [v|] eqn:E.
    + exists (S k1). rewrite list_lookup_insert_eq by (eapply lookup_lt_Some; eauto).
      destruct (row !! f) as [v0|]; [|discriminate]. simpl in *.
      injection H1 as ->. reflexivity.
    + exists k1. rewrite list_insert_ge by (now apply lookup_ge_None).
      rewrite E. exact H1.
  - exists k1. rewrite list_lookup_insert_ne by assumption. exact H1.
Qed.

Lemma eligible_iter k v : elig (Nat.iter k cstep v) = true -> elig v = true.
Proof.
  induction k as [|k IH]; simpl; [auto|]. intros H. apply IH.
  now apply eligible_step.
Qed.

Lemma space_entry_iter k v :
  (if eqb (Nat.iter k cstep v) cval then 0 else bit (elig v))
  = bit (elig (Nat.iter k cstep v)).
Proof.
  destruct k as [|k]; simpl; [apply space_entry_same|].
  set (u := Nat.iter k cstep v).
  destruct (eqb (cstep u) cval) eqn:E.
  - destruct (elig (cstep u)) eqn:El; [|reflexivity].
    apply eligible_not_saturated in El. congruence.
  - destruct (step_dichotomy th clip_min clip_max u) as [H|H]; [congruence|].
    rewrite H. apply eligible_step in H. apply eligible_iter in H. now rewrite H.
Qed.

(** Clearing the search space where the new row sits on the bound gives
    the search space of the new row. *)
Lemma clear_row_moved row row' :
  (forall f, exists k, row' !! f = Nat.iter k cstep <$> row !! f) ->
  zip_with (fun x (b : bool) => if b then 0 else x)
           (map (fun v => bit (elig v)) row)
           (map (fun v => eqb v cval) row')
  = map (fun v => bit (elig v)) row'.
Proof.
  intros H. apply list_eq. intros f.
  rewrite lookup_zip_with.
  change (map ?g ?l) with (g <$> l). rewrite !list_lookup_fmap.
  destruct (H f) as [k Hk]. rewrite Hk.
  destruct (row !! f) as [v|]; simpl; [|reflexivity].
  now rewrite space_entry_iter.
Qed.

Lemma iter_range k v :
  clip_min <= clip_max -> clip_min <= v <= clip_max ->
  clip_min <= Nat.iter k cstep v <= clip_max.
Proof.
  intros Hc Hv. induction k as [|k IH]; simpl; [assumption|].
  now apply clip_step_range.
Qed.

Lemma step_row_range row ij :
  clip_min <= clip_max ->
  Forall (fun v => clip_min <= v <= clip_max) row ->
  Forall (fun v => clip_min <= v <= clip_max) (srow row ij).
Proof.
  intros Hc Hrow. apply Forall_lookup. intros f v' Hf.
  destruct (lookup_step_row row ij f) as [k Hk]. rewrite Hk in Hf.
  destruct (row !! f) as [v|] eqn:E; [|discriminate]. simpl in Hf. injection Hf as <-.
  apply iter_range; [assumption|].
  rewrite Forall_lookup in Hrow. eapply Hrow; eauto.
Qed.

(** The steps left in a row when one entry is replaced. *)
Lemma row_steps_insert row i v x :
  row !! i = Some v ->
  (rsteps (<[i := x]> row) + sleft v = rsteps row + sleft x)%nat.
Proof.
  unfold row_steps. revert i. induction row as [|u row IH]; intros i Hi.
  - discriminate.
  - destruct i as [|i]; simpl in *.
    + injection Hi as ->. lia.
    + specialize (IH i Hi). lia.
Qed.

(** Where the sums are not rounded, a clamped update uses up steps. *)
Section Exact.

Variable G : Q -> Prop.
Hypothesis G_exact : exact_on th clip_min clip_max G.

Lemma Forall_update (row : list Q) i :
  Forall G row -> Forall G (<[i := cstep (default 0%Q (row !! i))]> row).
Proof.
  intros Hrow. destruct (row !! i) as [v|] eqn:E.
  - apply Forall_insert; [assumption|]. simpl.
    apply G_exact. rewrite Forall_lookup in Hrow. exact (Hrow i v E).
  - now rewrite list_insert_ge by (now apply lookup_ge_None).
Qed.

Lemma Forall_step_row row ij : Forall G row -> Forall G (srow row ij).
Proof. intros Hrow. unfold step_row. now do 2 apply Forall_update. Qed.

Lemma row_steps_update (row : list Q) i :
  ~ th == 0 -> Forall G row ->
  (rsteps (<[i := cstep (default 0%Q (row !! i))]> row) <= rsteps row)%nat.
Proof.
  intros Hth Hrow. destruct (row !! i) as [v|] eqn:E.
  - pose proof (row_steps_insert row i v (cstep v) E).
    rewrite Forall_lookup in Hrow.
    pose proof (steps_left_step_le th clip_min clip_max v Hth
                  (proj2 (G_exact v (Hrow i v E)))). simpl. lia.
  - rewrite list_insert_ge by (now apply lookup_ge_None). lia.
Qed.

Lemma row_steps_update_lt (row : list Q) i v :
  ~ th == 0 -> Forall G row -> row !! i = Some v -> elig v = true ->
  (rsteps (<[i := cstep (default 0%Q (row !! i))]> row) < rsteps row)%nat.
Proof.
  intros Hth Hrow E Hv. rewrite E. simpl.
  pose proof (row_steps_insert row i v (cstep v) E).
  rewrite Forall_lookup in Hrow.
  pose proof (steps_left_step th clip_min clip_max v Hth
                (proj2 (G_exact v (Hrow i v E)) Hv) Hv). lia.
Qed.

Lemma row_steps_step_le row ij :
  ~ th == 0 -> Forall G row -> (rsteps (srow row ij) <= rsteps row)%nat.
Proof.
  intros Hth Hrow. unfold step_row.
  etransitivity; [apply row_steps_update; [assumption|now apply Forall_update]|].
  apply row_steps_update; assumption.
Qed.

(** A pass that selects an eligible feature last leaves fewer steps. *)
Lemma row_steps_step_lt row ij v :
  ~ th == 0 -> Forall G row ->
  ij.1 <> ij.2 -> row !! ij.2 = Some v -> elig v = true ->
  (rsteps (srow row ij) < rsteps row)%nat.
Proof.
  intros Hth Hrow Hne E Hv. unfold step_row.
  eapply Nat.lt_le_trans; [|apply (row_steps_update row ij.1 Hth Hrow)].
  eapply row_steps_update_lt; eauto.
  - now apply Forall_update.
  - rewrite list_lookup_insert_ne by assumption. exact E.
Qed.

End Exact.

Lemma row_steps_pos row f v :
  ~ th == 0 -> row !! f = Some v -> elig v = true -> (0 < rsteps row)%nat.
Proof.
  intros Hth E Hv.
  pose proof (steps_left_pos th clip_min clip_max v Hth Hv).
  unfold row_steps in *. revert f E.
  induction row as [|u row IH]; intros f E; [discriminate|].
  destruct f as [|f]; simpl in *.
  - injection E as ->. lia.
  - specialize (IH f E). lia.
Qed.

End RowFacts.

(** ** One pass of the loop, sample by sample *)

Section BatchFacts.

Context {C : Classifier} {R : Runtime} {COk : ClassifierOk C} {ROk : RuntimeOk R}.
Variables (th ga : Q) (F : nat) (clip_min clip_max : Q) (target : list nat).

Local Abbreviation elig := (eligible th clip_min clip_max).
Local Abbreviation cstep := (clip_step th clip_min clip_max).
Local Abbreviation cval := (clip_value th clip_min clip_max).
Local Abbreviation srow := (step_row th clip_min clip_max).
Local Abbreviation rsteps := (row_steps th clip_min clip_max).
Local Abbreviation nbatch := (next_batch th clip_min clip_max target).
Local Abbreviation nspace := (next_space th clip_min clip_max).
Local Abbreviation nactive := (next_active ga F target).
Local Abbreviation space := (space_of th clip_min clip_max).
Local Abbreviation live := (live th clip_min clip_max).

Lemma lookup_perturbed (rows : matrix) feat n k row ij :
  rows !! k = Some row -> feat !! k = Some ij -> (k < n)%nat ->
  perturbed th clip_min clip_max rows feat n !! k = Some (srow row ij).
Proof.
  intros Hr Hf Hk. unfold perturbed, step_row.
  set (c1 := map fst feat). set (c2 := map snd feat).
  assert (Hc1 : c1 !! k = Some ij.1).
  { unfold c1. change (map fst feat) with (fst <$> feat).
    rewrite list_lookup_fmap, Hf. reflexivity. }
  assert (Hc2 : c2 !! k = Some ij.2).
  { unfold c2. change (map snd feat) with (snd <$> feat).
    rewrite list_lookup_fmap, Hf. reflexivity. }
  set (R1 := put_cells rows (np_arange n) c1 _).
  assert (H1 : R1 !! k = Some (<[ij.1 := cstep (default 0 (row !! ij.1))]> row)).
  { unfold R1. apply lookup_put_cells_arange; auto.
    change (map ?g ?l) with (g <$> l). rewrite list_lookup_fmap.
    rewrite (lookup_take_cells_arange rows n c1 k row ij.1) by auto. reflexivity. }
  apply lookup_put_cells_arange; auto.
  change (map ?g ?l) with (g <$> l). rewrite list_lookup_fmap.
  rewrite (lookup_take_cells_arange R1 n c2 k _ ij.2 H1) by auto. reflexivity.
Qed.

Lemma has_shape_next_batch n (B S : matrix) act :
  has_shape n F B -> in_range n act = true ->
  has_shape n F (nbatch B S act).
Proof.
  intros HB Hact. unfold next_batch, perturbed.
  eapply has_shape_put_rows; [exact HB|].
  repeat apply has_shape_put_cells. eapply has_shape_rows_at; eauto.
Qed.

Lemma has_shape_space n (B : matrix) : has_shape n F B -> has_shape n F (space B).
Proof. apply has_shape_map. Qed.

(** The row of an active sample is updated with the pair selected for it;
    the others are left alone. *)
Lemma lookup_next_batch n (B S : matrix) act r row :
  has_shape n F B -> has_shape n F S -> in_range n act = true -> NoDup act ->
  B !! r = Some row ->
  ((r ∉ act) /\ nbatch B S act !! r = Some row) \/
  (exists k ij,
      act !! k = Some r /\
      saliency th (rows_at B act) (targets_at target act) (rows_at S act) !! k = Some ij /\
      nbatch B S act !! r = Some (srow row ij)).
Proof.
  intros HB HS Hact Hnd Hr.
  destruct (decide (r ∈ act)) as [Hin|Hnin].
  - right. apply list_elem_of_lookup_1 in Hin as [k Hk].
    set (feat := saliency th (rows_at B act) (targets_at target act) (rows_at S act)).
    assert (Hfl : length feat = length act).
    { eapply length_saliency; eapply has_shape_rows_at; eauto. }
    assert (Hklt : (k < length act)%nat) by (eapply lookup_lt_Some; eauto).
    destruct (lookup_lt_is_Some_2 feat k) as [ij Hij]; [lia|].
    exists k, ij. split; [assumption|]. split; [assumption|].
    unfold next_batch. fold feat.
    eapply lookup_put_rows_in; eauto.
    + apply lookup_perturbed; auto.
      rewrite lookup_rows_at, Hk. simpl. now rewrite Hr.
    + eapply lookup_lt_Some; eauto.
  - left. split; [assumption|]. unfold next_batch.
    now rewrite lookup_put_rows_notin.
Qed.

Lemma lookup_masked_grads (grads ss : matrix) k g :
  masked_grads th grads ss !! k = Some g ->
  exists grow srow_k,
    grads !! k = Some grow /\ ss !! k = Some srow_k /\
    g = masked_row th grow srow_k.
Proof.
  unfold masked_grads, mask_assign_ext, cmp_mask.
  rewrite lookup_zip_with.
  change (map ?f ?l) with (f <$> l). rewrite !list_lookup_fmap.
  destruct (grads !! k) as [grow|]; [|discriminate].
  destruct (ss !! k) as [srow_k|]; [|discriminate].
  simpl. intros [= <-]. exists grow, srow_k. auto.
Qed.

(** The pair selected for the sample at position [k] of the active rows. *)
Lemma saliency_selects (x ss : matrix) t n k ij :
  (2 <= F)%nat -> has_shape n F x -> has_shape n F ss ->
  saliency th x t ss !! k = Some ij ->
  exists grow srow_k,
    class_gradient x t !! k = Some grow /\ ss !! k = Some srow_k /\
    length grow = F /\ length srow_k = F /\
    top2_of (oriented th (masked_row th grow srow_k)) ij.
Proof.
  intros HF Hx Hs Hk. apply lookup_saliency in Hk as (g & Hg & ->).
  apply lookup_masked_grads in Hg as (grow & srow_k & Hgr & Hsr & ->).
  exists grow, srow_k.
  pose proof (has_shape_lookup _ _ _ _ _ (class_gradient_shape x t n F Hx) Hgr) as Hl1.
  pose proof (has_shape_lookup _ _ _ _ _ Hs Hsr) as Hl2.
  repeat split; auto.
  apply argpartition_last2_spec.
  unfold oriented, masked_row. destruct (gtb th 0);
    rewrite ?length_map, length_zip_with, !length_map; lia.
Qed.

(** In the row [np.argpartition] is shown, a feature outside the search
    space is [-inf], whatever the sign of [theta]; a feature inside has its
    gradient, negated when [theta <= 0]. *)
Lemma lookup_oriented grow srow_k f gv s :
  grow !! f = Some gv -> srow_k !! f = Some s ->
  oriented th (masked_row th grow srow_k) !! f =
    Some (if eqb (1 - s) 1 then NegInf
          else Fin (if gtb th 0 then gv else - gv)).
Proof.
  intros Hg Hs. unfold oriented, masked_row.
  destruct (gtb th 0).
  - rewrite lookup_zip_with. change (map ?f ?l) with (f <$> l).
    rewrite !list_lookup_fmap, Hg, Hs. simpl.
    now destruct (eqb (1 - s) 1).
  - change (map ext_opp ?l) with (ext_opp <$> l). rewrite list_lookup_fmap.
    rewrite lookup_zip_with. change (map ?f ?l) with (f <$> l).
    rewrite !list_lookup_fmap, Hg, Hs. simpl.
    now destruct (eqb (1 - s) 1).
Qed.

Lemma top2_last_max og ij f e :
  top2_of og ij -> og !! f = Some e ->
  exists ej, og !! ij.2 = Some ej /\ ext_le e ej.
Proof.
  intros (ei & ej & Hi & Hj & Hne & Hle & Hothers) Hf. exists ej. split; [assumption|].
  destruct (decide (f = ij.2)) as [->|Hn2]; [rewrite Hj in Hf; injection Hf as ->; apply ext_le_refl|].
  destruct (decide (f = ij.1)) as [->|Hn1]; [rewrite Hi in Hf; injection Hf as ->; assumption|].
  eapply ext_le_trans; [|exact Hle]. eapply Hothers; eauto.
Qed.

Lemma top2_first_max og ij f e :
  top2_of og ij -> og !! f = Some e -> f <> ij.2 ->
  exists ei, og !! ij.1 = Some ei /\ ext_le e ei.
Proof.
  intros (ei & ej & Hi & Hj & Hne & Hle & Hothers) Hf Hn2. exists ei. split; [assumption|].
  destruct (decide (f = ij.1)) as [->|Hn1]; [rewrite Hi in Hf; injection Hf as ->; apply ext_le_refl|].
  eapply Hothers; eauto.
Qed.

Lemma ext_le_fin_inv q e : ext_le (Fin q) e -> e <> NegInf.
Proof. intros H ->. discriminate. Qed.

Lemma eqb_bit b : eqb (1 - bit b) 1 = negb b.
Proof. now destruct b. Qed.

Lemma lookup_space (B : matrix) r :
  space B !! r = map (fun v => bit (elig v)) <$> B !! r.
Proof.
  unfold space_of.
  change (map (map ?f) B) with (map f <$> B). now rewrite list_lookup_fmap.
Qed.

(** With the search space of the rows, the feature selected last is
    eligible whenever the sample has an eligible feature. *)
Lemma selects_eligible n (B : matrix) act k r row ij :
  (2 <= F)%nat -> has_shape n F B -> in_range n act = true ->
  act !! k = Some r -> B !! r = Some row ->
  saliency th (rows_at B act) (targets_at target act) (rows_at (space B) act) !! k = Some ij ->
  ij.1 <> ij.2 /\
  (forall f v, row !! f = Some v -> elig v = true ->
     exists v2, row !! ij.2 = Some v2 /\ elig v2 = true).
Proof.
  intros HF HB Hact Hk Hr Hij.
  assert (HBa : has_shape (length act) F (rows_at B act))
    by exact (has_shape_rows_at n F B act HB Hact).
  assert (HSa : has_shape (length act) F (rows_at (space B) act))
    by exact (has_shape_rows_at n F _ act (has_shape_space n B HB) Hact).
  destruct (saliency_selects _ _ _ _ _ _ HF HBa HSa Hij)
    as (grow & srow_k & Hg & Hs & Hlg & Hls & Htop).
  rewrite lookup_rows_at, Hk in Hs. simpl in Hs. rewrite lookup_space, Hr in Hs.
  simpl in Hs. injection Hs as <-.
  assert (Hlrow : length row = F) by exact (has_shape_lookup n F B r row HB Hr).
  split; [apply top2_of_lt in Htop; tauto|].
  intros f v Hf Hv.
  assert (Hflt : (f < length grow)%nat) by (apply lookup_lt_Some in Hf; lia).
  apply lookup_lt_is_Some in Hflt as [gv Hgv].
  pose proof (lookup_oriented grow (map (fun v => bit (elig v)) row) f gv
                (bit (elig v)) Hgv) as Ho.
  rewrite list_lookup_fmap, Hf in Ho. specialize (Ho eq_refl).
  rewrite eqb_bit, Hv in Ho. simpl in Ho.
  destruct (top2_last_max _ _ _ _ Htop Ho) as (ej & Hj & Hle).
  apply ext_le_fin_inv in Hle.
  assert (Hjlt : (ij.2 < length row)%nat).
  { apply top2_of_lt in Htop. destruct Htop as (_ & H2 & _).
    unfold oriented, masked_row in H2.
    destruct (gtb th 0); rewrite ?length_map, length_zip_with, !length_map in H2; lia. }
  apply lookup_lt_is_Some in Hjlt as [v2 Hv2].
  assert (Hjg : (ij.2 < length grow)%nat) by (apply lookup_lt_Some in Hv2; lia).
  apply lookup_lt_is_Some in Hjg as [gv2 Hgv2].
  pose proof (lookup_oriented grow (map (fun v => bit (elig v)) row) ij.2 gv2
                (bit (elig v2)) Hgv2) as Ho2.
  rewrite list_lookup_fmap, Hv2 in Ho2. specialize (Ho2 eq_refl).
  rewrite eqb_bit, Hj in Ho2. injection Ho2 as ->.
  exists v2. split; [assumption|]. destruct (elig v2); [reflexivity|]. now elim Hle.
Qed.

(** After a pass the search space is again the one of the rows. *)
Lemma next_space_of n (B : matrix) act :
  has_shape n F B -> in_range n act = true -> NoDup act ->
  nspace (nbatch B (space B) act) (space B) = space (nbatch B (space B) act).
Proof.
  intros HB Hact Hnd. apply list_eq. intros r.
  unfold next_space, mask_assign, cmp_mask.
  rewrite lookup_zip_with, !lookup_space.
  change (map ?f ?l) with (f <$> l) at 1. rewrite list_lookup_fmap.
  destruct (B !! r) as [row|] eqn:Hr.
  - destruct (lookup_next_batch n B (space B) act r row HB (has_shape_space _ _ HB)
                Hact Hnd Hr) as [[_ H]|(k & ij & _ & _ & H)];
      rewrite H; simpl; f_equal.
    + apply clear_row_moved. intros f. exists 0%nat. now destruct (row !! f).
    + apply clear_row_moved. intros f. apply lookup_step_row.
  - simpl.
    assert (Hn : nbatch B (space B) act !! r = None).
    { apply lookup_ge_None. apply lookup_ge_None in Hr.
      rewrite (has_shape_length _ _ _ (has_shape_next_batch n B (space B) act HB Hact)).
      rewrite (has_shape_length _ _ _ HB) in Hr. exact Hr. }
    now rewrite Hn.
Qed.

(** Where the sums are not rounded, a pass uses up steps. *)
Section Exact.

Variable G : Q -> Prop.
Hypothesis G_exact : exact_on th clip_min clip_max G.

Lemma Forall_next_batch n (B S : matrix) act :
  has_shape n F B -> has_shape n F S -> in_range n act = true -> NoDup act ->
  Forall (Forall G) B -> Forall (Forall G) (nbatch B S act).
Proof.
  intros HB HS Hact Hnd HG. apply Forall_lookup. intros r row' Hr'.
  assert (Hlt : (r < length B)%nat).
  { apply lookup_lt_Some in Hr'.
    rewrite (has_shape_length _ _ _ (has_shape_next_batch n B S act HB Hact)) in Hr'.
    now rewrite (has_shape_length _ _ _ HB). }
  apply lookup_lt_is_Some in Hlt as [row Hr].
  rewrite Forall_lookup in HG. pose proof (HG r row Hr) as Hrow.
  destruct (lookup_next_batch n B S act r row HB HS Hact Hnd Hr)
    as [[_ H]|(k & ij & _ & _ & H)]; rewrite H in Hr'; injection Hr' as <-.
  - assumption.
  - now apply (Forall_step_row th clip_min clip_max G G_exact).
Qed.

(** Every sample keeps or lowers its number of steps left. *)
Lemma sample_steps_next n (B : matrix) act r :
  ~ th == 0 ->
  has_shape n F B -> in_range n act = true -> NoDup act ->
  Forall (Forall G) B ->
  (sample_steps th clip_min clip_max (nbatch B (space B) act) r
   <= sample_steps th clip_min clip_max B r)%nat.
Proof.
  intros Hth HB Hact Hnd HG. unfold sample_steps.
  destruct (B !! r) as [row|] eqn:Hr.
  - rewrite Forall_lookup in HG. pose proof (HG r row Hr) as Hrow.
    destruct (lookup_next_batch n B (space B) act r row HB (has_shape_space _ _ HB)
                Hact Hnd Hr) as [[_ H]|(k & ij & _ & _ & H)];
      rewrite H; simpl; [lia|].
    now apply (row_steps_step_le th clip_min clip_max G G_exact).
  - assert (Hn : nbatch B (space B) act !! r = None).
    { apply lookup_ge_None. apply lookup_ge_None in Hr.
      rewrite (has_shape_length _ _ _ (has_shape_next_batch n B (space B) act HB Hact)).
      rewrite (has_shape_length _ _ _ HB) in Hr. exact Hr. }
    rewrite Hn. simpl. lia.
Qed.

Lemma sample_steps_next_lt n (B : matrix) act r :
  ~ th == 0 -> (2 <= F)%nat ->
  has_shape n F B -> in_range n act = true -> NoDup act ->
  Forall (Forall G) B ->
  live B act -> r ∈ act ->
  (sample_steps th clip_min clip_max (nbatch B (space B) act) r
   < sample_steps th clip_min clip_max B r)%nat.
Proof.
  intros Hth HF HB Hact Hnd HG Hlive Hr.
  destruct (Hlive r Hr) as (row & f & v & Hrow & Hf & Hv).
  unfold sample_steps. rewrite Hrow.
  rewrite Forall_lookup in HG. pose proof (HG r row Hrow) as HGrow.
  destruct (lookup_next_batch n B (space B) act r row HB (has_shape_space _ _ HB)
              Hact Hnd Hrow) as [[Hnin _]|(k & ij & Hk & Hij & H)]; [contradiction|].
  rewrite H. simpl.
  destruct (selects_eligible n B act k r row ij HF HB Hact Hk Hrow Hij) as [Hne Hsel].
  destruct (Hsel f v Hf Hv) as (v2 & Hv2 & He2).
  eapply (row_steps_step_lt th clip_min clip_max G G_exact); eauto.
Qed.

End Exact.

End BatchFacts.

(** ** The whole loop, without the store *)

Section LoopViewFacts.

Context {C : Classifier} {R : Runtime} {COk : ClassifierOk C} {ROk : RuntimeOk R}.
Variables (th ga : Q) (F : nat) (clip_min clip_max : Q) (target : list nat).
Variables (n : nat) (A : matrix).
Hypothesis A_rows : length A = n.

Local Abbreviation elig := (eligible th clip_min clip_max).
Local Abbreviation rsteps := (row_steps th clip_min clip_max).
Local Abbreviation ssteps := (sample_steps th clip_min clip_max).
Local Abbreviation bsteps := (batch_steps th clip_min clip_max).
Local Abbreviation nbatch := (next_batch th clip_min clip_max target).
Local Abbreviation nspace := (next_space th clip_min clip_max).
Local Abbreviation nactive := (next_active ga F target).
Local Abbreviation space := (space_of th clip_min clip_max).
Local Abbreviation lview := (loop_view th ga F clip_min clip_max target).
Local Abbreviation alive := (live th clip_min clip_max).

Lemma Qsum_bits_pos (row : list Q) :
  gtb (Qsum (map (fun v => bit (elig v)) row)) 0 = true ->
  exists f v, row !! f = Some v /\ elig v = true.
Proof.
  induction row as [|u row IH]; simpl; intros H.
  - discriminate.
  - destruct (elig u) eqn:E.
    + exists 0%nat, u. auto.
    + destruct IH as (f & v & Hf & Hv).
      * apply gtb_true_lt in H. apply gtb_true_lt.
        simpl in H. eapply Qlt_le_trans; [exact H|].
        apply Qle_lteq. right. apply Qplus_0_l.
      * exists (S f), v. auto.
Qed.

Lemma lookup_and3 a b c r :
  and3 a b c !! r = Some true ->
  a !! r = Some true /\ b !! r = Some true /\ c !! r = Some true.
Proof.
  unfold and3. rewrite !lookup_zip_with.
  destruct (a !! r) as [[|]|], (b !! r) as [[|]|], (c !! r) as [[|]|];
    simpl; intros; try discriminate; auto.
Qed.

(** After a pass every sample still active has an eligible feature. *)
Lemma live_next_active (B' : matrix) :
  alive B' (nactive B' (space B') A).
Proof.
  intros r Hr. unfold next_active in Hr.
  apply elem_of_np_where, lookup_and3 in Hr as (_ & _ & Hc).
  unfold sum_axis1 in Hc.
  change (map ?f ?l) with (f <$> l) in Hc. rewrite !list_lookup_fmap in Hc.
  rewrite lookup_space in Hc.
  destruct (B' !! r) as [row|]; [|discriminate]. simpl in Hc.
  injection Hc as Hc. apply Qsum_bits_pos in Hc as (f & v & Hf & Hv).
  exists row, f, v. auto.
Qed.

Lemma sample_steps_cons row (B : matrix) r :
  ssteps (row :: B) (S r) = ssteps B r.
Proof. reflexivity. Qed.

Lemma batch_steps_le (B B' : matrix) :
  length B' = length B ->
  (forall r, (ssteps B' r <= ssteps B r)%nat) ->
  (bsteps B' <= bsteps B)%nat.
Proof.
  revert B'. induction B as [|row B IH]; intros [|row' B'] Hl H; simpl in *; try lia.
  pose proof (H 0%nat) as H0. unfold sample_steps in H0. simpl in H0.
  assert (bsteps B' <= bsteps B)%nat.
  { apply IH; [lia|]. intros r. apply (H (S r)). }
  unfold batch_steps in *. simpl. lia.
Qed.

Lemma batch_steps_lt (B B' : matrix) r :
  length B' = length B ->
  (forall r, (ssteps B' r <= ssteps B r)%nat) ->
  (ssteps B' r < ssteps B r)%nat ->
  (bsteps B' < bsteps B)%nat.
Proof.
  revert B' r. induction B as [|row B IH]; intros [|row' B'] r Hl H Hr; simpl in *; try lia.
  pose proof (H 0%nat) as H0. unfold sample_steps in H0. simpl in H0.
  destruct r as [|r].
  - unfold sample_steps in Hr. simpl in Hr.
    assert (bsteps B' <= bsteps B)%nat.
    { apply batch_steps_le; [lia|]. intros r. apply (H (S r)). }
    unfold batch_steps in *. simpl. lia.
  - assert (bsteps B' < bsteps B)%nat.
    { apply (IH B' r); [lia| |exact Hr]. intros r'. apply (H (S r')). }
    unfold batch_steps in *. simpl. lia.
Qed.

Lemma sample_le_batch (B : matrix) r : (ssteps B r <= bsteps B)%nat.
Proof.
  revert r. induction B as [|row B IH]; intros r.
  - unfold sample_steps. rewrite lookup_nil. simpl. lia.
  - destruct r as [|r]; unfold batch_steps; simpl.
    + unfold sample_steps. simpl. lia.
    + rewrite sample_steps_cons. specialize (IH r). unfold batch_steps in IH. lia.
Qed.

Lemma active_count_cons r act tr :
  active_count r (act :: tr) =
  ((if decide (r ∈ act) then 1 else 0) + active_count r tr)%nat.
Proof.
  unfold active_count. rewrite filter_cons.
  destruct (decide (r ∈ act)); reflexivity.
Qed.

Hypothesis th_nonzero : ~ th == 0.
Hypothesis F_two : (2 <= F)%nat.
Variable G : Q -> Prop.
Hypothesis G_exact : exact_on th clip_min clip_max G.

(** Once every active sample has an eligible feature, and where the sums
    are not rounded, every pass uses up a step of every active sample. *)
Lemma loop_view_live fuel : forall (B : matrix) act,
  has_shape n F B -> in_range n act = true -> NoDup act ->
  Forall (Forall G) B -> alive B act ->
  (bsteps B <= fuel)%nat ->
  exists tr Bf,
    lview fuel B (space B) A act = Some (tr, Bf, space Bf) /\
    has_shape n F Bf /\
    (length tr <= bsteps B)%nat /\
    forall r, (active_count r tr <= ssteps B r)%nat.
Proof.
  induction fuel as [|fuel IH]; intros B act HB Hact Hnd HG Hlive Hfuel.
  - destruct act as [|a act].
    + exists [], B. simpl. split; [reflexivity|]. split; [assumption|].
      split; [lia|]. intros r. cbn. lia.
    + exfalso. destruct (Hlive a) as (row & f & v & Hrow & Hf & Hv); [left|].
      pose proof (row_steps_pos th clip_min clip_max row f v th_nonzero Hf Hv) as Hp.
      pose proof (sample_le_batch B a) as Hle.
      unfold sample_steps in Hle. rewrite Hrow in Hle. simpl in Hle. lia.
  - destruct act as [|a act].
    + exists [], B. simpl. split; [reflexivity|]. split; [assumption|].
      split; [lia|]. intros r. cbn. lia.
    + set (act0 := a :: act) in *.
      set (B' := nbatch B (space B) act0).
      assert (HB' : has_shape n F B') by (apply has_shape_next_batch; assumption).
      assert (HS' : nspace B' (space B) = space B') by (eapply next_space_of; eauto).
      assert (HG' : Forall (Forall G) B').
      { eapply (Forall_next_batch th F clip_min clip_max target G G_exact); eauto.
        now apply has_shape_space. }
      assert (Hle : forall r, (ssteps B' r <= ssteps B r)%nat).
      { intros r.
        eapply (sample_steps_next th F clip_min clip_max target G G_exact); eauto. }
      assert (Hlt : forall r, r ∈ act0 -> (ssteps B' r < ssteps B r)%nat).
      { intros r Hr.
        eapply (sample_steps_next_lt th F clip_min clip_max target G G_exact); eauto. }
      assert (Hlen : length B' = length B).
      { now rewrite (has_shape_length _ _ _ HB'), (has_shape_length _ _ _ HB). }
      assert (Hb : (bsteps B' < bsteps B)%nat).
      { apply (batch_steps_lt B B' a); auto. apply Hlt. left. }
      destruct (IH B' (nactive B' (space B') A)) as (tr & Bf & E & HBf & Hlen' & Hcount).
      * assumption.
      * now apply in_range_next_active.
      * apply NoDup_np_where.
      * assumption.
      * apply live_next_active.
      * lia.
      * exists (act0 :: tr), Bf. change (lview (S fuel) B (space B) A act0) with
          (match lview fuel B' (nspace B' (space B)) A (nactive B' (nspace B' (space B)) A)
           with Some (tr, Bf, Sf) => Some (act0 :: tr, Bf, Sf) | None => None end).
        rewrite HS', E. split; [reflexivity|]. split; [assumption|].
        split; [simpl; lia|].
        intros r. rewrite active_count_cons. specialize (Hcount r).
        destruct (decide (r ∈ act0)) as [Hin|Hnin].
        -- specialize (Hlt r Hin). lia.
        -- specialize (Hle r). lia.
Qed.

(** Where the sums are not rounded the loop ends, from any active set,
    within one pass more than the steps left in the batch; no sample is
    active in more passes than one more than its own steps left. *)
Lemma loop_view_total fuel (B : matrix) act :
  has_shape n F B -> in_range n act = true -> NoDup act ->
  Forall (Forall G) B ->
  (S (bsteps B) <= fuel)%nat ->
  exists tr Bf,
    lview fuel B (space B) A act = Some (tr, Bf, space Bf) /\
    has_shape n F Bf /\
    (length tr <= S (bsteps B))%nat /\
    forall r, (active_count r tr <= S (ssteps B r))%nat.
Proof.
  intros HB Hact Hnd HG Hfuel.
  destruct act as [|a act].
  - exists [], B. split; [now destruct fuel|]. split; [assumption|].
    split; [simpl; lia|]. intros r. cbn. lia.
  - destruct fuel as [|fuel]; [lia|].
    set (act0 := a :: act) in *.
    set (B' := nbatch B (space B) act0).
    assert (HB' : has_shape n F B') by (apply has_shape_next_batch; assumption).
    assert (HS' : nspace B' (space B) = space B') by (eapply next_space_of; eauto).
    assert (HG' : Forall (Forall G) B').
    { eapply (Forall_next_batch th F clip_min clip_max target G G_exact); eauto.
      now apply has_shape_space. }
    assert (Hle : forall r, (ssteps B' r <= ssteps B r)%nat).
    { intros r.
      eapply (sample_steps_next th F clip_min clip_max target G G_exact); eauto. }
    assert (Hlen : length B' = length B).
    { now rewrite (has_shape_length _ _ _ HB'), (has_shape_length _ _ _ HB). }
    pose proof (batch_steps_le B B' Hlen Hle) as Hb.
    destruct (loop_view_live fuel B' (nactive B' (space B') A))
      as (tr & Bf & E & HBf & Hlen' & Hcount).
    + assumption.
    + now apply in_range_next_active.
    + apply NoDup_np_where.
    + assumption.
    + apply live_next_active.
    + lia.
    + exists (act0 :: tr), Bf. change (lview (S fuel) B (space B) A act0) with
        (match lview fuel B' (nspace B' (space B)) A (nactive B' (nspace B' (space B)) A)
         with Some (tr, Bf, Sf) => Some (act0 :: tr, Bf, Sf) | None => None end).
      rewrite HS', E. split; [reflexivity|]. split; [assumption|].
        split; [simpl; lia|].
      intros r. rewrite active_count_cons. specialize (Hcount r). specialize (Hle r).
      destruct (decide (r ∈ act0)); lia.
Qed.

End LoopViewFacts.

(** ** What the loop does to the feature values *)

Section MovedFacts.

Context {C : Classifier} {R : Runtime} {COk : ClassifierOk C} {ROk : RuntimeOk R}.
Variables (th ga : Q) (F : nat) (clip_min clip_max : Q) (target : list nat).
Variables (n : nat) (A : matrix).
Hypothesis A_rows : length A = n.

Local Abbreviation elig := (eligible th clip_min clip_max).
Local Abbreviation cstep := (clip_step th clip_min clip_max).
Local Abbreviation cval := (clip_value th clip_min clip_max).
Local Abbreviation nbatch := (next_batch th clip_min clip_max target).
Local Abbreviation nspace := (next_space th clip_min clip_max).
Local Abbreviation nactive := (next_active ga F target).
Local Abbreviation space := (space_of th clip_min clip_max).
Local Abbreviation lview := (loop_view th ga F clip_min clip_max target).
Local Abbreviation alive := (live th clip_min clip_max).
Local Abbreviation moved := (moved th clip_min clip_max).
Local Abbreviation has_eligible := (has_eligible th clip_min clip_max).

Lemma moved_refl B : moved B B.
Proof.
  split; [reflexivity|]. intros r row Hr. exists row. split; [assumption|].
  intros f. exists 0%nat. now destruct (row !! f).
Qed.

Lemma moved_trans B1 B2 B3 : moved B1 B2 -> moved B2 B3 -> moved B1 B3.
Proof.
  intros [Hl1 H1] [Hl2 H2]. split; [congruence|].
  intros r row Hr. destruct (H1 r row Hr) as (row2 & Hr2 & E2).
  destruct (H2 r row2 Hr2) as (row3 & Hr3 & E3).
  exists row3. split; [assumption|]. intros f.
  destruct (E2 f) as [k2 Hk2]. destruct (E3 f) as [k3 Hk3].
  exists (k3 + k2)%nat. rewrite Hk3, Hk2.
  destruct (row !! f) as [v|]; simpl; [|reflexivity].
  f_equal. symmetry. apply Nat.iter_add.
Qed.

Lemma next_batch_moved (B S : matrix) act :
  has_shape n F B -> has_shape n F S -> in_range n act = true -> NoDup act ->
  moved B (nbatch B S act).
Proof.
  intros HB HS Hact Hnd. split.
  - rewrite (has_shape_length _ _ _ (has_shape_next_batch th F clip_min clip_max target n B S act HB Hact)).
    symmetry. eapply has_shape_length; eauto.
  - intros r row Hr.
    destruct (lookup_next_batch th F clip_min clip_max target n B S act r row HB HS Hact Hnd Hr)
      as [[_ H]|(k & ij & _ & _ & H)].
    + exists row. split; [assumption|]. intros f. exists 0%nat. now destruct (row !! f).
    + exists (step_row th clip_min clip_max row ij). split; [assumption|].
      intros f. apply lookup_step_row.
Qed.

(** The rows the loop ends with come from the rows it starts with by
    clamped updates, and the search space it ends with is theirs. *)
Lemma loop_view_moved fuel : forall (B : matrix) act tr Bf Sf,
  has_shape n F B -> in_range n act = true -> NoDup act ->
  lview fuel B (space B) A act = Some (tr, Bf, Sf) ->
  moved B Bf /\ Sf = space Bf /\ has_shape n F Bf.
Proof.
  induction fuel as [|fuel IH]; intros B act tr Bf Sf HB Hact Hnd E.
  - destruct act; [|discriminate]. injection E as <- <- <-.
    split; [apply moved_refl|]. auto.
  - destruct act as [|a act].
    + injection E as <- <- <-. split; [apply moved_refl|]. auto.
    + set (act0 := a :: act) in *.
      set (B' := nbatch B (space B) act0).
      assert (HB' : has_shape n F B') by (apply has_shape_next_batch; assumption).
      assert (HS' : nspace B' (space B) = space B') by (eapply next_space_of; eauto).
      change (lview (S fuel) B (space B) A act0) with
        (match lview fuel B' (nspace B' (space B)) A (nactive B' (nspace B' (space B)) A)
         with Some (tr, Bf, Sf) => Some (act0 :: tr, Bf, Sf) | None => None end) in E.
      rewrite HS' in E.
      destruct (lview fuel B' (space B') A (nactive B' (space B') A))
        as [[[tr' Bf'] Sf']|] eqn:E'; [|discriminate].
      injection E as <- <- <-.
      destruct (IH _ _ _ _ _ HB' (in_range_next_active target ga F B' (space B') A n A_rows)
                  (NoDup_np_where _) E') as (Hm & HSf & HBf).
      split; [|auto].
      eapply moved_trans; [|exact Hm].
      apply next_batch_moved; auto. now apply has_shape_space.
Qed.

(** A sample is active after the first pass only if it had an eligible
    feature when the loop started. *)
Lemma eligible_moved (B B' : matrix) r row' f v' :
  moved B B' -> B' !! r = Some row' -> row' !! f = Some v' -> elig v' = true ->
  exists row v, B !! r = Some row /\ row !! f = Some v /\ elig v = true.
Proof.
  intros [Hl H] Hr' Hf' Hv'.
  assert (Hlt : (r < length B)%nat) by (rewrite <- Hl; eapply lookup_lt_Some; eauto).
  apply lookup_lt_is_Some in Hlt as [row Hr].
  destruct (H r row Hr) as (row2 & Hr2 & E). rewrite Hr' in Hr2. injection Hr2 as <-.
  destruct (E f) as [k Hk]. rewrite Hf' in Hk.
  destruct (row !! f) as [v|] eqn:Hf; [|discriminate]. simpl in Hk. injection Hk as ->.
  exists row, v. repeat split; auto. eapply eligible_iter; eauto.
Qed.

Lemma trace_live fuel : forall (B : matrix) act tr Bf Sf,
  has_shape n F B -> in_range n act = true -> NoDup act -> alive B act ->
  lview fuel B (space B) A act = Some (tr, Bf, Sf) ->
  forall act' r, act' ∈ tr -> r ∈ act' -> has_eligible B r.
Proof.
  induction fuel as [|fuel IH]; intros B act tr Bf Sf HB Hact Hnd Hlive E act' r Hin Hr.
  - destruct act; [|discriminate]. injection E as <- <- <-. inversion Hin.
  - destruct act as [|a act].
    + injection E as <- <- <-. inversion Hin.
    + set (act0 := a :: act) in *.
      set (B' := nbatch B (space B) act0).
      assert (HB' : has_shape n F B') by (apply has_shape_next_batch; assumption).
      assert (HS' : nspace B' (space B) = space B') by (eapply next_space_of; eauto).
      change (lview (S fuel) B (space B) A act0) with
        (match lview fuel B' (nspace B' (space B)) A (nactive B' (nspace B' (space B)) A)
         with Some (tr, Bf, Sf) => Some (act0 :: tr, Bf, Sf) | None => None end) in E.
      rewrite HS' in E.
      destruct (lview fuel B' (space B') A (nactive B' (space B') A))
        as [[[tr' Bf'] Sf']|] eqn:E'; [|discriminate].
      injection E as <- <- <-.
      apply elem_of_cons in Hin as [->|Hin]; [now apply Hlive|].
      destruct (IH _ _ _ _ _ HB' (in_range_next_active target ga F B' (space B') A n A_rows)
                  (NoDup_np_where _) (live_next_active th ga F clip_min clip_max target A B')
                  E' act' r Hin Hr)
        as (row' & f & v' & Hr' & Hf' & Hv').
      destruct (eligible_moved B B' r row' f v') as (row & v & ? & ? & ?); auto.
      * apply next_batch_moved; auto. now apply has_shape_space.
      * exists row, f, v. auto.
Qed.

(** A sample without an eligible feature is active in the first pass at
    most. *)
Lemma trace_saturated fuel (B : matrix) act tr Bf Sf r :
  has_shape n F B -> in_range n act = true -> NoDup act ->
  lview fuel B (space B) A act = Some (tr, Bf, Sf) ->
  ~ has_eligible B r ->
  tr = [] \/ exists tr', tr = act :: tr' /\ forall act', act' ∈ tr' -> r ∉ act'.
Proof.
  intros HB Hact Hnd E Hno.
  destruct fuel as [|fuel].
  - destruct act; [|discriminate]. injection E as <- <- <-. now left.
  - destruct act as [|a act].
    + injection E as <- <- <-. now left.
    + right. set (act0 := a :: act) in *.
      set (B' := nbatch B (space B) act0).
      assert (HB' : has_shape n F B') by (apply has_shape_next_batch; assumption).
      assert (HS' : nspace B' (space B) = space B') by (eapply next_space_of; eauto).
      change (lview (S fuel) B (space B) A act0) with
        (match lview fuel B' (nspace B' (space B)) A (nactive B' (nspace B' (space B)) A)
         with Some (tr, Bf, Sf) => Some (act0 :: tr, Bf, Sf) | None => None end) in E.
      rewrite HS' in E.
      destruct (lview fuel B' (space B') A (nactive B' (space B') A))
        as [[[tr' Bf'] Sf']|] eqn:E'; [|discriminate].
      injection E as <- <- <-. exists tr'. split; [reflexivity|].
      intros act' Hin Hr. apply Hno.
      destruct (trace_live fuel _ _ _ _ _ HB'
                  (in_range_next_active target ga F B' (space B') A n A_rows)
                  (NoDup_np_where _) (live_next_active th ga F clip_min clip_max target A B')
                  E' act' r Hin Hr)
        as (row' & f & v' & Hr' & Hf' & Hv').
      destruct (eligible_moved B B' r row' f v') as (row & v & ? & ? & ?); auto.
      * apply next_batch_moved; auto. now apply has_shape_space.
      * exists row, f, v. auto.
Qed.

End MovedFacts.

(** ** One batch on the store *)

Section BatchRunFacts.

Context {C : Classifier} {R : Runtime} {COk : ClassifierOk C} {ROk : RuntimeOk R}.
Variables (dims : list nat) (clip_min clip_max : Q).

Lemma zip_with_map_same {A B D E} (g : B -> D -> E) (p : A -> B) (q : A -> D) (l : list A) :
  zip_with g (map p l) (map q l) = map (fun a => g (p a) (q a)) l.
Proof. induction l as [|a l IH]; simpl; [reflexivity|]. now rewrite IH. Qed.

(** Lines 78 to 82 leave the search space of the rows. *)
Lemma init_space th (B : matrix) :
  (if gtb th 0
   then mask_assign (map (map (fun _ => 0)) B) (cmp_mask ltb B clip_max) 1
   else mask_assign (map (map (fun _ => 0)) B) (cmp_mask gtb B clip_min) 1)
  = space_of th clip_min clip_max B.
Proof.
  unfold space_of, eligible, mask_assign, cmp_mask.
  destruct (gtb th 0); rewrite zip_with_map_same; apply map_ext; intros row;
    rewrite zip_with_map_same; apply map_ext; intros v; unfold bit.
  - now destruct (ltb v clip_max).
  - now destruct (gtb v clip_min).
Qed.


Lemma wf_view_slice w a i j : wf_view w a -> wf_view w (slice a i j).
Proof. intros [H1 H2]. split; simpl; [assumption|lia]. Qed.

Lemma view_slice w a i j :
  wf_view w a ->
  view w (slice a i j) =
    take (Nat.min j (len a) - Nat.min i (len a)) (drop (Nat.min i (len a)) (view w a)).
Proof.
  intros [H1 H2]. unfold view, slice. simpl.
  apply list_eq. intros k.
  destruct (decide (k < Nat.min j (len a) - Nat.min i (len a))%nat) as [Hk|Hk].
  - rewrite !lookup_take_lt by lia. rewrite !lookup_drop.
    rewrite lookup_take_lt by lia. rewrite lookup_drop. f_equal. lia.
  - rewrite !lookup_take_ge by lia. reflexivity.
Qed.

Lemma has_shape_take_drop {A} n f (rows : list (list A)) i m :
  has_shape n f rows -> (i + m <= n)%nat ->
  has_shape m f (take m (drop i rows)).
Proof.
  intros [Hl Hall] Hle. split.
  - rewrite length_take, length_drop. lia.
  - now apply Forall_take, Forall_drop.
Qed.

Variables (x_adv : arr) (preds targets : list nat) (batch_id : nat).

Local Abbreviation batch_post := (batch_post x_adv batch_id).

Lemma attack_batch_prefix fuel w N F :
  wf_view w x_adv -> has_shape N F (view w x_adv) ->
  nb_features (obj w) = F ->
  product dims = product (Numpy.dims x_adv) ->
  let batch := batch_of x_adv (batch_size (obj w)) batch_id in
  let B0 := view w batch in
  exists ss af w3,
    attack_batch fuel dims clip_min clip_max x_adv preds targets batch_id w =
      bind (batch_loop fuel dims clip_min clip_max batch ss af
              (batch_target targets (batch_size (obj w)) batch_id)
              (first_active preds targets (batch_size (obj w)) batch_id))
           (fun passes => bind (setitem_all batch batch) (fun _ => ret passes)) w3 /\
    loop_inv dims batch ss af w3 (len batch) F /\
    view w3 batch = B0 /\
    view w3 ss = space_of (theta (obj w)) clip_min clip_max B0 /\
    view w3 af = map (map (fun _ => 0)) B0 /\
    obj w3 = obj w /\ rng w3 = rng w /\ calls w3 = calls w /\
    (mlen w <= mlen w3)%nat /\ (mlen w <= buf ss)%nat /\
    (forall b, (b < mlen w)%nat -> buffer w3 b = buffer w b).
Proof.
  intros Hwf HX HF Hdims batch B0.
  assert (Hwb : wf_view w batch) by (apply wf_view_slice; assumption).
  assert (Hlenb : length B0 = len batch) by (apply length_view; assumption).
  assert (HB0 : has_shape (len batch) F B0).
  { unfold B0. unfold batch, batch_of. rewrite view_slice by assumption.
    eapply has_shape_take_drop; [exact HX|].
    rewrite <- (has_shape_length _ _ _ HX), (length_view _ _ Hwf). lia. }
  destruct Hwb as [Hb1 Hb2]. pose proof Hwf as [Hx1 Hx2].
  assert (Hbuf : buf batch = buf x_adv) by reflexivity.
  unfold attack_batch.
  erewrite bind_ok by reflexivity.
  fold (batch_of x_adv (batch_size (obj w)) batch_id). fold batch.
  fold (batch_target targets (batch_size (obj w)) batch_id).
  fold (first_active preds targets (batch_size (obj w)) batch_id).
  unfold np_zeros_like.
  erewrite bind_ok by reflexivity. fold B0.
  set (Z0 := map (map (fun _ => 0)) B0).
  assert (HZ : has_shape (len batch) F Z0) by (apply has_shape_map; assumption).
  erewrite bind_ok by reflexivity.
  store_simpl. fold B0.
  set (ss := mkArr (mlen w) 0 (length Z0) (Numpy.dims batch)).
  assert (E2 : (if gtb (theta (obj w)) 0
                then setitem_mask ss (cmp_mask ltb B0 clip_max) 1
                else setitem_mask ss (cmp_mask gtb B0 clip_min) 1) (alloc_world w Z0)
               = Ok tt (store_world (alloc_world w Z0) ss
                          (space_of (theta (obj w)) clip_min clip_max B0))).
  { rewrite <- init_space. destruct (gtb (theta (obj w)) 0);
      rewrite setitem_mask_eq; unfold ss; rewrite view_alloc_new; reflexivity. }
  rewrite (bind_ok _ _ _ _ _ E2).
  set (S0 := space_of (theta (obj w)) clip_min clip_max B0).
  assert (HS0 : has_shape (len batch) F S0) by (apply has_shape_map; assumption).
  set (w2 := store_world (alloc_world w Z0) ss S0).
  assert (Wss : wf_view (alloc_world w Z0) ss) by apply wf_view_alloc_new.
  assert (Hlss : len ss = len batch) by (simpl; apply (has_shape_length _ _ _ HZ)).
  assert (Vss2 : view w2 ss = S0).
  { apply view_store_eq; [exact Wss|]. rewrite Hlss. apply (has_shape_length _ _ _ HS0). }
  assert (Vb2 : view w2 batch = B0).
  { unfold w2. rewrite view_store_ne by (rewrite Hbuf; simpl; lia).
    rewrite view_alloc_old by (rewrite Hbuf; lia). reflexivity. }
  set (af := mkArr (mlen w2) 0 (length Z0) (Numpy.dims batch)).
  set (w3 := alloc_world w2 Z0).
  assert (E3 : (do rows <- load batch;
                alloc (map (map (fun _ => 0)) rows) (Numpy.dims batch)) w2 = Ok af w3).
  { unfold bind, load. rewrite Vb2. reflexivity. }
  rewrite (bind_ok _ _ _ _ _ E3).
  assert (Hm2 : mlen w2 = S (mlen w)) by (unfold w2; now rewrite mlen_store, mlen_alloc).
  exists ss, af, w3. split; [reflexivity|].
  assert (Vb3 : view w3 batch = B0).
  { unfold w3. rewrite view_alloc_old by (rewrite Hm2, Hbuf; lia). exact Vb2. }
  assert (Vs3 : view w3 ss = S0).
  { unfold w3. rewrite view_alloc_old by (rewrite Hm2; simpl; lia). exact Vss2. }
  assert (Va3 : view w3 af = Z0) by apply view_alloc_new.
  split; [|repeat split; auto].
  - split.
    + unfold w3. apply wf_view_alloc_old. unfold w2.
      apply wf_view_store_ne; [rewrite Hbuf; simpl; lia|].
      apply wf_view_alloc_old. now split.
    + unfold w3. apply wf_view_alloc_old. unfold w2. apply wf_view_store_eq; [exact Wss|].
      rewrite Hlss. apply (has_shape_length _ _ _ HS0).
    + apply wf_view_alloc_new.
    + rewrite Hbuf. simpl. lia.
    + rewrite Hbuf. simpl. rewrite Hm2. lia.
    + simpl. rewrite Hm2. lia.
    + exact Hdims.
    + exact HF.
    + rewrite Vb3. exact HB0.
    + rewrite Vs3. exact HS0.
    + rewrite Va3. exact HZ.
  - unfold w3. rewrite mlen_alloc, Hm2. lia.
  - intros b Hb. unfold w3, w2. buffer_simpl. reflexivity.
Qed.

Lemma attack_batch_eq fuel w N F :
  wf_view w x_adv -> has_shape N F (view w x_adv) ->
  nb_features (obj w) = F -> (2 <= F)%nat ->
  product dims = product (Numpy.dims x_adv) ->
  length preds = N ->
  let B0 := view w (batch_of x_adv (batch_size (obj w)) batch_id) in
  match loop_view (theta (obj w)) (gamma (obj w)) F clip_min clip_max
                  (batch_target targets (batch_size (obj w)) batch_id) fuel
                  B0 (space_of (theta (obj w)) clip_min clip_max B0)
                  (map (map (fun _ => 0)) B0)
                  (first_active preds targets (batch_size (obj w)) batch_id) with
  | Some (tr, Bf, Sf) =>
      exists w',
        attack_batch fuel dims clip_min clip_max x_adv preds targets batch_id w
          = Ok tr w' /\
        batch_post w w' Bf
  | None =>
      attack_batch fuel dims clip_min clip_max x_adv preds targets batch_id w
        = OutOfFuel
  end.
Proof.
  intros Hwf HX HF HF2 Hdims Hpreds B0.
  assert (HN : len x_adv = N).
  { rewrite <- (has_shape_length _ _ _ HX). symmetry. now apply length_view. }
  destruct (attack_batch_prefix fuel w N F Hwf HX HF Hdims)
    as (ss & af & w3 & E & Inv & Vb & Vs & Va & Hobj & Hrng & Hcalls & Hm & Hss & Hfr).
  set (batch := batch_of x_adv (batch_size (obj w)) batch_id) in *.
  fold B0 in Vb, Vs, Va.
  rewrite E. clear E.
  assert (Hact : in_range (len batch)
                   (first_active preds targets (batch_size (obj w)) batch_id) = true).
  { unfold first_active. apply in_range_np_where.
    unfold ne_mask, slice_list. rewrite length_zip_with, !length_take, !length_drop.
    unfold batch, batch_of, slice. simpl. lia. }
  pose proof (batch_loop_eq dims clip_min clip_max batch ss af
                (batch_target targets (batch_size (obj w)) batch_id) fuel w3
                (len batch) F _ Inv HF2 Hact) as HL.
  rewrite Hobj, Vb, Vs, Va in HL.
  destruct (loop_view _ _ _ _ _ _ fuel B0 _ _ _) as [[[tr Bf] Sf]|].
  - destruct HL as (w4 & E4 & P4 & Inv4).
    rewrite (bind_ok _ _ _ _ _ E4).
    destruct P4 as [Pb Ps Pf Pobj Prng Pcalls Pmlen Pframe Pbuf].
    assert (E5 : setitem_all batch batch w4 = Ok tt (store_world w4 batch Bf)).
    { unfold setitem_all, bind, load, store. now rewrite Pb. }
    rewrite (bind_ok _ _ _ _ _ E5). unfold ret.
    exists (store_world w4 batch Bf). split; [reflexivity|].
    destruct Inv4 as [Wb4 _ _ _ _ _ _ _ HB4 _ _].
    destruct Inv as [Wb3 _ _ _ _ _ _ _ _ _ _].
    assert (HlBf : length Bf = len batch) by (rewrite <- Pb; now apply length_view).
    split.
    + apply view_store_eq; assumption.
    + simpl. congruence.
    + simpl. congruence.
    + rewrite mlen_store. lia.
    + intros b Hb Hnb. rewrite buffer_store_ne by exact Hnb.
      rewrite Pframe; [now apply Hfr|lia|exact Hnb|lia].
    + change (buf x_adv) with (buf batch).
      rewrite buffer_store_eq by (destruct Wb4; assumption).
      rewrite Pbuf, splice_splice.
      * f_equal. apply Hfr. destruct Hwf. assumption.
      * destruct Wb3. assumption.
      * assumption.
  - now apply bind_out_of_fuel.
Qed.

Lemma attack_batch_small fuel w N F tr w1 :
  wf_view w x_adv -> has_shape N F (view w x_adv) ->
  nb_features (obj w) = F -> (F < 2)%nat ->
  product dims = product (Numpy.dims x_adv) ->
  length preds = N ->
  attack_batch fuel dims clip_min clip_max x_adv preds targets batch_id w = Ok tr w1 ->
  batch_post w w1 (view w (batch_of x_adv (batch_size (obj w)) batch_id)).
Proof.
  intros Hwf HX HF HF2 Hdims Hpreds E.
  assert (HN : len x_adv = N).
  { rewrite <- (has_shape_length _ _ _ HX). symmetry. now apply length_view. }
  destruct (attack_batch_prefix fuel w N F Hwf HX HF Hdims)
    as (ss & af & w3 & E3 & Inv & Vb & Vs & Va & Hobj & Hrng & Hcalls & Hm & Hss & Hfr).
  set (batch := batch_of x_adv (batch_size (obj w)) batch_id) in *.
  set (B0 := view w batch) in *.
  rewrite E3 in E. clear E3.
  assert (Hact : in_range (len batch)
                   (first_active preds targets (batch_size (obj w)) batch_id) = true).
  { unfold first_active. apply in_range_np_where.
    unfold ne_mask, slice_list. rewrite length_zip_with, !length_take, !length_drop.
    unfold batch, batch_of, slice. simpl. lia. }
  unfold bind at 1 in E.
  destruct (batch_loop _ _ _ _ _ _ _ _ _ w3) as [tr' w4| |] eqn:EL; try discriminate.
  destruct (batch_loop_small dims clip_min clip_max batch ss af _ fuel w3 (len batch) F _
              tr' w4 Inv HF2 Hact EL) as (_ & -> & ->).
  assert (E5 : setitem_all batch batch w3 = Ok tt (store_world w3 batch B0)).
  { unfold setitem_all, bind, load, store. now rewrite Vb. }
  rewrite (bind_ok _ _ _ _ _ E5) in E. unfold ret in E. injection E as <- <-.
  destruct Inv as [Wb3 _ _ _ _ _ _ _ HB3 _ _].
  assert (HlB0 : length B0 = len batch) by (rewrite <- Vb; now apply length_view).
  split.
  - apply view_store_eq; assumption.
  - simpl. congruence.
  - simpl. congruence.
  - rewrite mlen_store. lia.
  - intros b Hb Hnb. rewrite buffer_store_ne by exact Hnb. now apply Hfr.
  - change (buf x_adv) with (buf batch).
    rewrite buffer_store_eq by (destruct Wb3; assumption).
    f_equal. apply Hfr. destruct Hwf. assumption.
Qed.

(** A batch that raises has written nothing into the buffers that existed
    when it started. *)
Lemma attack_batch_raise fuel w N F e w1 :
  wf_view w x_adv -> has_shape N F (view w x_adv) ->
  nb_features (obj w) = F ->
  product dims = product (Numpy.dims x_adv) ->
  length preds = N ->
  attack_batch fuel dims clip_min clip_max x_adv preds targets batch_id w = Raise e w1 ->
  forall b, (b < mlen w)%nat -> buffer w1 b = buffer w b.
Proof.
  intros Hwf HX HF Hdims Hpreds E.
  assert (HN : len x_adv = N).
  { rewrite <- (has_shape_length _ _ _ HX). symmetry. now apply length_view. }
  destruct (le_lt_dec 2 F) as [HF2|HF2].
  - pose proof (attack_batch_eq fuel w N F Hwf HX HF HF2 Hdims Hpreds) as H.
    cbv zeta in H.
    destruct (loop_view _ _ _ _ _ _ fuel _ _ _ _) as [[[tr Bf] Sf]|].
    + destruct H as (w' & E' & _). rewrite E' in E. discriminate.
    + rewrite H in E. discriminate.
  - destruct (attack_batch_prefix fuel w N F Hwf HX HF Hdims)
      as (ss & af & w3 & E3 & Inv & _ & _ & _ & _ & _ & _ & Hm & _ & Hfr).
    rewrite E3 in E. clear E3.
    set (batch := batch_of x_adv (batch_size (obj w)) batch_id) in *.
    assert (Hact : in_range (len batch)
                     (first_active preds targets (batch_size (obj w)) batch_id) = true).
    { unfold first_active. apply in_range_np_where.
      unfold ne_mask, slice_list. rewrite length_zip_with, !length_take, !length_drop.
      unfold batch, batch_of, slice. simpl. lia. }
    unfold bind at 1 in E.
    destruct (batch_loop _ _ _ _ _ _ _ _ _ w3) as [tr' w4|e' w4|] eqn:EL;
      try discriminate.
    injection E as _ <-. intros b Hb.
    rewrite (batch_loop_raise dims clip_min clip_max batch ss af _ fuel w3
               (len batch) F _ e' w4 Inv HF2 Hact EL) by lia.
    now apply Hfr.
Qed.

End BatchRunFacts.

(** ** The whole of [generate] *)

Section GenerateFacts.

Context {C : Classifier} {R : Runtime} {COk : ClassifierOk C} {ROk : RuntimeOk R}.

Lemma moved_Forall th clip_min clip_max (P : Q -> Prop) (B B' : matrix) :
  (forall v, P v -> P (clip_step th clip_min clip_max v)) ->
  moved th clip_min clip_max B B' ->
  Forall (Forall P) B -> Forall (Forall P) B'.
Proof.
  intros Hstep [Hl H] HB. apply Forall_lookup. intros r row' Hr'.
  assert (Hlt : (r < length B)%nat) by (rewrite <- Hl; eapply lookup_lt_Some; eauto).
  apply lookup_lt_is_Some in Hlt as [row Hr].
  destruct (H r row Hr) as (row2 & Hr2 & E). rewrite Hr' in Hr2. injection Hr2 as <-.
  rewrite Forall_lookup in HB. specialize (HB r row Hr).
  apply Forall_lookup. intros f v' Hf'.
  destruct (E f) as [k Hk]. rewrite Hf' in Hk.
  destruct (row !! f) as [v|] eqn:Hf; [|discriminate]. simpl in Hk. injection Hk as ->.
  rewrite Forall_lookup in HB. specialize (HB f v Hf).
  clear -Hstep HB. induction k as [|k IH]; simpl; auto.
Qed.

Lemma set_params_eq kw w :
  set_params kw w =
    let w1 := with_obj w (Attack_set_params kw (obj w)) in
    if valid_params (obj w1) then Ok true w1 else Raise ValueError w1.
Proof.
  unfold set_params, valid_params, bind, get_self, set_self. simpl.
  destruct (leb _ 0 || gtb _ 1); simpl; [reflexivity|].
  destruct (batch_size _ <=? 0)%Z; reflexivity.
Qed.

(** Drawing the targets moves the random generator and nothing else. *)
Lemma random_targets_frame labels nb : forall w t w',
  random_targets labels nb w = Ok t w' ->
  mem w' = mem w /\ calls w' = calls w /\ obj w' = obj w.
Proof.
  induction labels as [|l labels IH]; intros w t w' E; simpl in E.
  - injection E as <- <-. auto.
  - unfold bind at 1 in E. unfold random_choice in E.
    destruct (other_classes nb l); [discriminate|].
    unfold bind at 1 in E.
    destruct (random_targets labels nb _) as [rest w1| |] eqn:E1; try discriminate.
    apply IH in E1. injection E as <- <-. exact E1.
Qed.

Lemma resolve_targets_frame kw preds w t w' :
  resolve_targets kw preds w = Ok t w' ->
  mem w' = mem w /\ calls w' = calls w /\ obj w' = obj w.
Proof.
  unfold resolve_targets. destruct (kw_y kw).
  - intros [= <- <-]. auto.
  - unfold bind. destruct (random_targets preds nb_classes w) as [r w1| |] eqn:E;
      try discriminate.
    intros [= <- <-]. eapply random_targets_frame; eauto.
Qed.

Lemma has_shape_splice n f (X : matrix) o m new :
  has_shape n f X -> has_shape m f new -> (o + m <= n)%nat ->
  has_shape n f (splice X o m new).
Proof.
  intros [Hl HX] [Hm Hnew] Hle. split.
  - rewrite length_splice; [assumption|lia|assumption].
  - unfold splice. rewrite !Forall_app. repeat split; auto.
    + now apply Forall_take.
    + now apply Forall_drop.
Qed.

Lemma Forall_splice {P : list Q -> Prop} (X : matrix) o m new :
  Forall P X -> Forall P new -> Forall P (splice X o m new).
Proof.
  intros HX Hnew. unfold splice. rewrite !Forall_app. repeat split; auto.
  - now apply Forall_take.
  - now apply Forall_drop.
Qed.

Lemma random_targets_raise labels nb : forall w e w',
  random_targets labels nb w = Raise e w' -> mem w' = mem w.
Proof.
  induction labels as [|l labels IH]; intros w e w' E; simpl in E.
  - discriminate.
  - unfold bind at 1 in E. unfold random_choice in E.
    destruct (other_classes nb l); [injection E as _ <-; reflexivity|].
    unfold bind at 1 in E.
    destruct (random_targets labels nb _) as [rest w1|e1 w1|] eqn:E1; try discriminate.
    apply IH in E1. injection E as _ <-. exact E1.
Qed.

Lemma resolve_targets_raise kw preds w e w' :
  resolve_targets kw preds w = Raise e w' -> mem w' = mem w.
Proof.
  unfold resolve_targets. destruct (kw_y kw); [discriminate|].
  unfold bind. destruct (random_targets preds nb_classes w) as [r w1|e1 w1|] eqn:E;
    try discriminate.
  intros [= _ <-]. eapply random_targets_raise; eauto.
Qed.

End GenerateFacts.

Section GenerateLoop.

Context {C : Classifier} {R : Runtime} {COk : ClassifierOk C} {ROk : RuntimeOk R}.
Variables (fuel : nat) (dims : list nat) (clip_min clip_max : Q).
Variables (c N F : nat) (preds targets : list nat) (o : attack) (w0 : world).
Variable P : Q -> Prop.

Hypothesis o_features : nb_features o = F.
Hypothesis dims_F : product dims = F.
Hypothesis preds_N : length preds = N.
Hypothesis P_step : forall v, P v -> P (clip_step (theta o) clip_min clip_max v).

Let x_adv : arr := mkArr c 0 N [F].

Local Abbreviation gen_inv := (gen_inv c N F o w0 P).

Lemma view_whole w : gen_inv w -> view w x_adv = buffer w c.
Proof.
  intros [_ [Hl _] _ _ _]. unfold view, x_adv. simpl.
  rewrite drop_0. apply take_ge. lia.
Qed.

Lemma wf_whole w : gen_inv w -> wf_view w x_adv.
Proof.
  intros [Hb [Hl _] _ _ _]. split; simpl; [assumption|lia].
Qed.

Lemma attack_batch_inv w batch_id tr w1 :
  gen_inv w ->
  attack_batch fuel dims clip_min clip_max x_adv preds targets batch_id w = Ok tr w1 ->
  gen_inv w1.
Proof.
  intros G E.
  pose proof (wf_whole w G) as Hwf. pose proof (view_whole w G) as Hv.
  destruct G as [Hb HX Hobj Hfr HP].
  assert (HXv : has_shape N F (view w x_adv)) by now rewrite Hv.
  assert (Hd : product dims = product (Numpy.dims x_adv)).
  { simpl. rewrite dims_F. lia. }
  assert (HoF : nb_features (obj w) = F) by now rewrite Hobj.
  set (batch := batch_of x_adv (batch_size (obj w)) batch_id) in *.
  set (B0 := view w batch) in *.
  assert (Hwb : wf_view w batch) by (apply wf_view_slice; assumption).
  assert (HB0 : has_shape (len batch) F B0).
  { unfold B0, batch, batch_of. rewrite view_slice by assumption.
    eapply has_shape_take_drop; [exact HXv|]. simpl. lia. }
  assert (HPB0 : Forall (Forall P) B0).
  { unfold B0, batch, batch_of. rewrite view_slice by assumption. rewrite Hv.
    now apply Forall_take, Forall_drop. }
  assert (Hoff : (off batch + len batch <= N)%nat).
  { unfold batch, batch_of, slice. simpl. lia. }
  destruct (le_lt_dec 2 F) as [F_two|F_small]; cycle 1.
  { destruct (attack_batch_small dims clip_min clip_max x_adv preds targets batch_id
                fuel w N F tr w1 Hwf HXv HoF F_small Hd preds_N E)
      as [Pv Pobj Prng Pm Pfr Pbuf].
    fold batch in Pv, Pbuf. fold B0 in Pv, Pbuf.
    split.
    - lia.
    - change c with (buf x_adv). rewrite Pbuf. apply has_shape_splice; auto.
    - congruence.
    - intros b Hlt. rewrite Pfr; [now apply Hfr|lia|simpl; lia].
    - change c with (buf x_adv). rewrite Pbuf. apply Forall_splice; auto. }
  pose proof (attack_batch_eq dims clip_min clip_max x_adv preds targets batch_id
                fuel w N F Hwf HXv HoF F_two Hd preds_N) as H.
  cbv zeta in H. fold batch in H. fold B0 in H.
  destruct (loop_view _ _ _ _ _ _ fuel B0 _ _ _) as [[[tr' Bf] Sf]|] eqn:EL.
  - destruct H as (w' & E' & [Pv Pobj Prng Pm Pfr Pbuf]).
    rewrite E' in E. injection E as <- <-.
    assert (HZ : length (map (map (fun _ : Q => 0)) B0) = len batch).
    { rewrite length_map. apply (has_shape_length _ _ _ HB0). }
    destruct (loop_view_moved (theta (obj w)) (gamma (obj w)) F clip_min clip_max
                (batch_target targets (batch_size (obj w)) batch_id)
                (len batch) _ HZ fuel B0
                (first_active preds targets (batch_size (obj w)) batch_id)
                tr' Bf Sf HB0)
      as (Hm & _ & HBf); [| |exact EL|].
    { unfold first_active. apply in_range_np_where.
      unfold ne_mask, slice_list. rewrite length_zip_with, !length_take, !length_drop.
      unfold batch, batch_of, slice. simpl. lia. }
    { apply NoDup_np_where. }
    split.
    + lia.
    + change c with (buf x_adv). rewrite Pbuf. apply has_shape_splice; auto.
    + congruence.
    + intros b Hlt. rewrite Pfr; [now apply Hfr|lia|simpl; lia].
    + change c with (buf x_adv). rewrite Pbuf. apply Forall_splice; auto.
      rewrite Hobj in Hm. eapply moved_Forall; eauto.
  - rewrite H in E. discriminate.
Qed.

Lemma for_each_inv ids : forall w w',
  gen_inv w ->
  for_each ids
    (fun batch_id =>
       do _ <- attack_batch fuel dims clip_min clip_max x_adv preds targets batch_id ;
       ret tt) w = Ok tt w' ->
  gen_inv w'.
Proof.
  induction ids as [|id ids IH]; intros w w' G E; simpl in E.
  - injection E as <-. assumption.
  - unfold bind at 1 2 in E.
    destruct (attack_batch _ _ _ _ _ _ _ id w) as [tr w1| |] eqn:E1; try discriminate.
    unfold ret at 1 in E. eapply IH; [|exact E].
    eapply attack_batch_inv; eauto.
Qed.

(** When a batch raises, the buffers below the working copy are still
    those of [w0]. *)
Lemma for_each_raise ids : forall w e w',
  gen_inv w ->
  for_each ids
    (fun batch_id =>
       do _ <- attack_batch fuel dims clip_min clip_max x_adv preds targets batch_id ;
       ret tt) w = Raise e w' ->
  forall b, (b < c)%nat -> buffer w' b = buffer w0 b.
Proof.
  induction ids as [|id ids IH]; intros w e w' G E; simpl in E; [discriminate|].
  unfold bind at 1 2 in E.
  destruct (attack_batch _ _ _ _ _ _ _ id w) as [tr w1|e1 w1|] eqn:E1; try discriminate.
  - unfold ret at 1 in E. eapply IH; [|exact E].
    eapply attack_batch_inv; eauto.
  - injection E as _ <-. intros b Hb.
    pose proof (wf_whole w G) as Hwf. pose proof (view_whole w G) as Hv.
    destruct G as [Gb Gs Go Gf _].
    rewrite (attack_batch_raise dims clip_min clip_max x_adv preds targets id fuel
               w N F e1 w1 Hwf); auto.
    + now rewrite Hv.
    + now rewrite Go.
    + simpl. rewrite dims_F. lia.
    + lia.
Qed.

End GenerateLoop.

Section GenerateRun.

Context {C : Classifier} {R : Runtime} {COk : ClassifierOk C} {ROk : RuntimeOk R}.

(** A run of [generate] that returns: the array it returns is a new buffer
    of the shape of the input, the buffers that existed are as they were,
    and what holds of every input value and is kept by the clamped update
    holds of every value returned. *)
Lemma generate_post fuel x kw w a w' N F (P : Q -> Prop) :
  wf_view w x -> has_shape N F (view w x) ->
  product (dims x) = F ->
  (forall v, P v ->
     P (clip_step (theta (Attack_set_params kw (obj w)))
                  clip_values.1 clip_values.2 v)) ->
  Forall (Forall P) (view w x) ->
  generate fuel x kw w = Ok a w' ->
  a = mkArr (mlen w) 0 (len x) (dims x) /\
  (forall b, (b < mlen w)%nat -> buffer w' b = buffer w b) /\
  has_shape N F (view w' a) /\
  obj w' = mkAttack (theta (Attack_set_params kw (obj w)))
                    (gamma (Attack_set_params kw (obj w)))
                    (batch_size (Attack_set_params kw (obj w))) F /\
  Forall (Forall P) (view w' a).
Proof.
  intros Hwf HX HF HPstep HP E.
  unfold generate in E.
  unfold bind at 1 in E. rewrite set_params_eq in E. cbv zeta in E.
  set (o1 := Attack_set_params kw (obj w)) in *.
  destruct (valid_params (obj (with_obj w o1))) eqn:Hv; [|discriminate].
  destruct clip_values as [clip_min clip_max] eqn:Hclip.
  erewrite bind_ok in E by reflexivity.
  erewrite bind_ok in E by reflexivity.
  erewrite bind_ok in E by reflexivity.
  simpl obj in E. simpl nb_features in E. simpl batch_size in E.
  rewrite HF in E.
  set (o2 := mkAttack (theta o1) (gamma o1) (batch_size o1) F) in *.
  set (w2 := with_obj (with_obj w o1) o2) in *.
  unfold np_copy in E.
  erewrite bind_ok in E by reflexivity.
  change (view w2 x) with (view w x) in E.
  change (length (mem w2)) with (mlen w) in E.
  assert (HN : length (view w x) = N) by (eapply has_shape_length; eauto).
  assert (Hlen : len x = N) by (rewrite <- HN; symmetry; now apply length_view).
  rewrite HN in E.
  destruct (decide (dims x = [])) as [|Hd]; [discriminate|].
  unfold np_reshape_flat at 1 in E. simpl dims in E.
  destruct (decide (F = 0%nat \/ F <> product (dims x))) as [|HF0]; [discriminate|].
  erewrite bind_ok in E by reflexivity.
  set (x_adv := mkArr (mlen w) 0 N [F]) in *.
  set (w3 := alloc_world w2 (view w x)) in *.
  erewrite bind_ok in E by apply classifier_predict_eq.
  change (view w3 x) with (view (alloc_world w (view w x)) x) in E.
  rewrite view_alloc_old in E by (destruct Hwf; assumption).
  set (preds := argmax_axis1 (predict (view w x))) in *.
  set (w4 := with_call w3 (Predict (view w x))) in *.
  unfold bind at 1 in E.
  destruct (resolve_targets kw preds w4) as [targets w5| |] eqn:ET; try discriminate.
  apply resolve_targets_frame in ET as (Hmem5 & Hcalls5 & Hobj5).
  unfold bind at 1 in E.
  destruct (for_each _ _ w5) as [[] w6| |] eqn:EF; try discriminate.
  assert (G5 : gen_inv (mlen w) N F o2 w P w5).
  { split.
    - unfold mlen at 2. rewrite Hmem5. change (length (mem w4)) with (mlen w3).
      unfold w3. rewrite mlen_alloc. unfold w2. simpl. unfold mlen. simpl. lia.
    - unfold buffer. rewrite Hmem5. change (default [] (mem w4 !! mlen w))
        with (buffer (alloc_world w (view w x)) (mlen w)).
      rewrite buffer_alloc_new. exact HX.
    - rewrite Hobj5. reflexivity.
    - intros b Hb. unfold buffer at 1. rewrite Hmem5.
      change (default [] (mem w4 !! b)) with (buffer (alloc_world w (view w x)) b).
      now apply buffer_alloc_old.
    - unfold buffer. rewrite Hmem5. change (default [] (mem w4 !! mlen w))
        with (buffer (alloc_world w (view w x)) (mlen w)).
      rewrite buffer_alloc_new. exact HP. }
  assert (G6 : gen_inv (mlen w) N F o2 w P w6).
  { eapply (for_each_inv fuel (dims x) clip_min clip_max (mlen w) N F preds targets o2 w P);
      try eassumption; try reflexivity.
    unfold preds, argmax_axis1. rewrite length_map, predict_rows. exact HN. }
  erewrite bind_ok in E by (apply np_reshape_eq; simpl; lia).
  erewrite bind_ok in E by apply classifier_predict_eq.
  erewrite bind_ok in E by apply classifier_predict_eq.
  unfold ret in E. injection E as <- <-.
  destruct G6 as [Gb Gs Go Gf GP].
  assert (Hview : forall e1 e2,
            view (with_call (with_call w6 e1) e2) (mkArr (mlen w) 0 N (dims x))
            = buffer w6 (mlen w)).
  { intros e1 e2. unfold view. simpl. rewrite !buffer_call, drop_0.
    apply take_ge. rewrite (has_shape_length _ _ _ Gs). lia. }
  split; [now rewrite Hlen|].
  split; [intros b Hb; rewrite !buffer_call; now apply Gf|].
  split; [simpl buf; simpl off; simpl len; simpl dims; rewrite Hview; exact Gs|].
  split; [simpl; exact Go|].
  simpl buf; simpl off; simpl len; simpl dims. rewrite Hview. exact GP.
Qed.

(** A run of [generate] that raises leaves the buffers that existed as they
    were. *)
Lemma generate_raise fuel x kw w e w' N :
  wf_view w x -> has_shape N (product (dims x)) (view w x) ->
  generate fuel x kw w = Raise e w' ->
  forall b, (b < mlen w)%nat -> buffer w' b = buffer w b.
Proof.
  intros Hwf HX E.
  set (F := product (dims x)) in *.
  unfold generate in E.
  unfold bind at 1 in E. rewrite set_params_eq in E. cbv zeta in E.
  set (o1 := Attack_set_params kw (obj w)) in *.
  destruct (valid_params (obj (with_obj w o1))) eqn:Hv;
    [|injection E as _ <-; reflexivity].
  destruct clip_values as [clip_min clip_max] eqn:Hclip.
  erewrite bind_ok in E by reflexivity.
  erewrite bind_ok in E by reflexivity.
  erewrite bind_ok in E by reflexivity.
  simpl obj in E. simpl nb_features in E. simpl batch_size in E.
  fold F in E.
  set (o2 := mkAttack (theta o1) (gamma o1) (batch_size o1) F) in *.
  set (w2 := with_obj (with_obj w o1) o2) in *.
  unfold np_copy in E.
  erewrite bind_ok in E by reflexivity.
  change (view w2 x) with (view w x) in E.
  change (length (mem w2)) with (mlen w) in E.
  assert (HN : length (view w x) = N) by (eapply has_shape_length; eauto).
  assert (Hlen : len x = N) by (rewrite <- HN; symmetry; now apply length_view).
  rewrite HN in E.
  destruct (decide (dims x = [])) as [|Hd].
  { unfold bind, raise in E. injection E as _ <-. intros b Hb.
    change (buffer (alloc_world w2 (view w x)) b)
      with (buffer (alloc_world w (view w x)) b).
    now apply buffer_alloc_old. }
  unfold np_reshape_flat at 1 in E. simpl dims in E.
  destruct (decide (F = 0%nat \/ F <> product (dims x))) as [|HF0].
  { unfold bind, raise in E. injection E as _ <-. intros b Hb.
    change (buffer (alloc_world w2 (view w x)) b)
      with (buffer (alloc_world w (view w x)) b).
    now apply buffer_alloc_old. }
  erewrite bind_ok in E by reflexivity.
  set (x_adv := mkArr (mlen w) 0 N [F]) in *.
  set (w3 := alloc_world w2 (view w x)) in *.
  erewrite bind_ok in E by apply classifier_predict_eq.
  change (view w3 x) with (view (alloc_world w (view w x)) x) in E.
  rewrite view_alloc_old in E by (destruct Hwf; assumption).
  set (preds := argmax_axis1 (predict (view w x))) in *.
  set (w4 := with_call w3 (Predict (view w x))) in *.
  assert (Hold : forall b, (b < mlen w)%nat -> default [] (mem w4 !! b) = buffer w b).
  { intros b Hb. change (default [] (mem w4 !! b))
      with (buffer (alloc_world w (view w x)) b). now apply buffer_alloc_old. }
  unfold bind at 1 in E.
  destruct (resolve_targets kw preds w4) as [targets w5|e5 w5|] eqn:ET;
    try discriminate.
  2:{ injection E as _ <-. apply resolve_targets_raise in ET.
      intros b Hb. unfold buffer at 1. rewrite ET. now apply Hold. }
  apply resolve_targets_frame in ET as (Hmem5 & Hcalls5 & Hobj5).
  assert (G5 : gen_inv (mlen w) N F o2 w (fun _ => True) w5).
  { split.
    - unfold mlen at 2. rewrite Hmem5. change (length (mem w4)) with (mlen w3).
      unfold w3. rewrite mlen_alloc. unfold w2. simpl. unfold mlen. simpl. lia.
    - unfold buffer. rewrite Hmem5. change (default [] (mem w4 !! mlen w))
        with (buffer (alloc_world w (view w x)) (mlen w)).
      rewrite buffer_alloc_new. exact HX.
    - rewrite Hobj5. reflexivity.
    - intros b Hb. unfold buffer at 1. rewrite Hmem5. now apply Hold.
    - clear. induction (buffer w5 (mlen w)) as [|row rows IH]; constructor; [|assumption].
      induction row; constructor; auto. }
  assert (Hpreds : length preds = N).
  { unfold preds, argmax_axis1. rewrite length_map, predict_rows. exact HN. }
  unfold bind at 1 in E.
  destruct (for_each _ _ w5) as [[] w6|e6 w6|] eqn:EF; try discriminate.
  - assert (G6 : gen_inv (mlen w) N F o2 w (fun _ => True) w6).
    { eapply (for_each_inv fuel (dims x) clip_min clip_max (mlen w) N F preds targets
                o2 w (fun _ => True)); try eassumption; try reflexivity; auto. }
    erewrite bind_ok in E by (apply np_reshape_eq; simpl; lia).
    erewrite bind_ok in E by apply classifier_predict_eq.
    erewrite bind_ok in E by apply classifier_predict_eq.
    discriminate.
  - injection E as _ <-.
    eapply (for_each_raise fuel (dims x) clip_min clip_max (mlen w) N F preds targets
              o2 w (fun _ => True)); try eassumption; try reflexivity; auto.
Qed.

End GenerateRun.

(** ** The instances meet what is relied on *)

Section DemoFacts.

Lemma best_from_inv skip L : forall row i cur,
  drop i L = row -> best_inv skip L i cur ->
  best_inv skip L (length L) (Demo.best_from skip i cur row).
Proof.
  induction row as [|e row IH]; intros i cur Hd Hinv; simpl.
  - assert (Hlen : (length L <= i)%nat).
    { destruct (le_lt_dec (length L) i) as [|Hlt]; [assumption|].
      apply (f_equal length) in Hd. rewrite length_drop in Hd. simpl in Hd. lia. }
    destruct cur as [[bi be]|]; simpl in *.
    + destruct Hinv as (H1 & H2 & H3). repeat split; auto.
      intros k e Hk. apply H3. lia.
    + intros k Hk _. apply Hinv; lia.
  - assert (Hi : L !! i = Some e).
    { rewrite <- (Nat.add_0_r i), <- lookup_drop, Hd. reflexivity. }
    assert (Hd' : drop (S i) L = row).
    { replace (S i) with (i + 1)%nat by lia.
      rewrite <- (drop_drop L 1 i). rewrite Hd. reflexivity. }
    apply IH; [assumption|].
    destruct (decide (skip = Some i)) as [Hs|Hs].
    + destruct cur as [[bi be]|]; simpl in *.
      * destruct Hinv as (H1 & H2 & H3). repeat split; auto.
        intros k e' Hk Hl Hsk. apply (H3 k e'); auto.
        destruct (decide (k = i)) as [->|]; [contradiction|lia].
      * intros k Hk Hl. destruct (decide (k = i)) as [->|]; [assumption|].
        apply Hinv; lia.
    + destruct cur as [[bi be]|]; simpl in *.
      * destruct Hinv as (H1 & H2 & H3).
        destruct (ext_leb e be) eqn:Ele; simpl.
        -- repeat split; auto. intros k e' Hk Hl Hsk.
           destruct (decide (k = i)) as [->|].
           ++ rewrite Hi in Hl. injection Hl as <-. exact Ele.
           ++ apply (H3 k e'); auto. lia.
        -- repeat split; auto. intros k e' Hk Hl Hsk.
           destruct (decide (k = i)) as [->|].
           ++ rewrite Hi in Hl. injection Hl as <-. apply ext_le_refl.
           ++ apply ext_le_trans with be; [apply (H3 k e'); auto; lia|].
              destruct (ext_le_total e be) as [H|H]; [|assumption].
              unfold ext_le in H. congruence.
      * repeat split; auto. intros k e' Hk Hl Hsk.
        destruct (decide (k = i)) as [->|].
        -- rewrite Hi in Hl. injection Hl as <-. apply ext_le_refl.
        -- exfalso. apply Hsk. apply Hinv; [lia|]. eapply lookup_lt_Some; eauto.
Qed.

Lemma select_top2_spec row :
  (2 <= length row)%nat -> top2_of row (Demo.select_top2 row).
Proof.
  intros Hlen. unfold Demo.select_top2, Demo.best_index. simpl.
  pose proof (best_from_inv None row row 0 None eq_refl) as H1.
  destruct (Demo.best_from None 0 None row) as [[j ej]|].
  - destruct H1 as (Hj & _ & Hmax); [intros k Hk; lia|].
    pose proof (best_from_inv (Some j) row row 0 None eq_refl) as H2.
    destruct (Demo.best_from (Some j) 0 None row) as [[i ei]|].
    + destruct H2 as (Hi & Hne & Hmax2); [intros k Hk; lia|].
      exists ei, ej. simpl.
      split; [exact Hi|]. split; [exact Hj|].
      split; [intros ->; now apply Hne|].
      split.
      * apply (Hmax i ei); [eapply lookup_lt_Some; eauto|exact Hi|discriminate].
      * intros k e Hk Hki Hkj.
        apply (Hmax2 k e); [eapply lookup_lt_Some; eauto|exact Hk|congruence].
    + exfalso. simpl in H2.
      assert (Hj0 : Some j = Some 0%nat) by (apply H2; [intros k Hk; lia|lia|lia]).
      assert (Hj1 : Some j = Some 1%nat) by (apply H2; [intros k Hk; lia|lia|lia]).
      congruence.
  - exfalso. simpl in H1.
    assert (H0 : None = Some 0%nat) by (apply H1; [intros k Hk; lia|lia|lia]).
    discriminate.
Qed.

#[export] Instance demo_runtime_ok : RuntimeOk Demo.runtime.
Proof.
  constructor.
  - exact select_top2_spec.
  - intros x y Hy. simpl. rewrite <- (Qplus_0_r x) at 1.
    apply Qplus_le_r. exact Hy.
  - intros x y Hy. simpl. rewrite <- (Qplus_0_r x) at 2.
    apply Qplus_le_r. exact Hy.
  - intros e x y _ _ _. simpl. reflexivity.
Qed.

(** [2^53] is not a small multiple of a power of two. *)
Lemma rounding_exact e x y :
  (e <= 14)%nat -> on_grid e x = true -> on_grid e y = true ->
  (if eqb x Demo.two_53 && eqb y 1 then x else x + y) == x + y.
Proof.
  intros He Hx Hy.
  destruct (eqb x Demo.two_53) eqn:E; [|reflexivity]. exfalso.
  apply eqb_eq in E. apply on_grid_spec in Hx as (m & Hm & Hs).
  rewrite E in Hs. unfold Demo.two_53 in Hs.
  rewrite <- inject_Z_mult in Hs. apply (proj1 (inject_Z_injective _ _)) in Hs.
  pose proof (Z.pow_pos_nonneg 2 (Z.of_nat e) ltac:(lia) ltac:(lia)) as Hp.
  assert (H53 : (2 ^ 10 < 2 ^ 53)%Z) by reflexivity.
  nia.
Qed.


Lemma rounding_ok : RuntimeOk Demo.rounding.
Proof.
  constructor.
  - exact select_top2_spec.
  - intros x y Hy. simpl.
    destruct (eqb x Demo.two_53 && eqb y 1); [apply Qle_refl|].
    rewrite <- (Qplus_0_r x) at 1. apply Qplus_le_r. exact Hy.
  - intros x y Hy. simpl.
    destruct (eqb x Demo.two_53 && eqb y 1); [apply Qle_refl|].
    rewrite <- (Qplus_0_r x) at 2. apply Qplus_le_r. exact Hy.
  - intros e x y He Hx Hy. simpl. now apply (rounding_exact e).
Qed.

#[export] Instance stubborn_ok clip : ClassifierOk (Demo.stubborn clip).
Proof.
  constructor.
  - intros x. simpl. apply length_map.
  - intros x t n f Hx. simpl. apply has_shape_intro.
    + rewrite length_map. eapply has_shape_length; eauto.
    + intros i r. change (map ?g x) with (g <$> x). rewrite list_lookup_fmap.
      destruct (x !! i) as [row|] eqn:E; [|discriminate]. simpl. intros [= <-].
      rewrite length_map, length_seq. eapply has_shape_lookup; eauto.
Qed.

End DemoFacts.

(** * The specification, statement by statement *)

(** ** Used features (C1, C2) *)

(** C1. One pass of the loop on a single sample [0, 0, 0, 0] with
    [theta = 0.3], clip range [0, 1] and a classifier that never answers the
    target: features 0 and 1 are selected and raised to 0.3, the sample
    stays active, and the used-feature mask [all_feat] still holds 0 at
    both selected features.  Line 96 indexes [all_feat] with an integer
    array, which makes a copy; the 1 is written into the copy. *)
Theorem C1_used_features_not_recorded :
  let w := mkWorld [[[0; 0; 0; 0]]; [[1; 1; 1; 1]]; [[0; 0; 0; 0]]] [] 0
                   (mkAttack (3 # 10) 1 1 4) in
  let batch := mkArr 0 0 1 [4%nat] in
  let search_space := mkArr 1 0 1 [4%nat] in
  let all_feat := mkArr 2 0 1 [4%nat] in
  exists w',
    @loop_body (Demo.stubborn (0, 1)) Demo.runtime [4%nat] 0 1
               batch search_space all_feat [1%nat] [0%nat] w = Ok [0%nat] w' /\
    view w' batch = [[3 # 10; 3 # 10; 0; 0]] /\
    view w' all_feat = [[0; 0; 0; 0]].
Proof.
  eexists. split; [vm_compute; reflexivity|]. split; reflexivity.
Qed.

(** C2. [gamma = 0.25] and four features: the sample does not leave the
    active set after the first pass.  The loop makes eight passes, until
    the search space is empty, and all four features end up modified. *)
Theorem C2_budget_not_enforced :
  let x := [[0; 0; 0; 0]] in
  let w := Demo.world_of x (mkAttack (3 # 10) (1 # 4) 1 0) in
  exists a w',
    @generate (Demo.stubborn (0, 1)) Demo.runtime 20 (Demo.input_of x [4%nat])
              (mkKwargs (Some [[0; 1]]) None None None) w = Ok a w' /\
    view w' a = [[1; 1; 1; 1]] /\
    passes_run w' = 8%nat /\
    pair_budget 4 (1 # 4) = 1%nat.
Proof.
  eexists. eexists. split; [vm_compute; reflexivity|]. split; [reflexivity|].
  split; reflexivity.
Qed.

(** ** Parameter validation (C9) *)

Section Validation.

Context {C : Classifier} {R : Runtime}.

Lemma valid_params_refused self : valid_params self = false <-> refused self.
Proof.
  unfold valid_params, refused.
  rewrite andb_false_iff, !negb_false_iff, orb_true_iff.
  rewrite leb_le, gtb_true_lt, Z.leb_le. tauto.
Qed.

(** C9. [set_params] saves the parameters the way the base class does and
    then raises [ValueError] exactly when the saved [gamma] is outside
    (0, 1] or the saved [batch_size] is not positive; otherwise it returns
    [True].  Either way the attributes are the saved ones, unchanged.
    When they are refused, [generate] and the constructor raise with no
    classifier call made and no array touched. *)
Theorem C9_set_params_validation (kw : kwargs) (w : world) :
  let saved := Attack_set_params kw (obj w) in
  let w1 := with_obj w saved in
  (set_params kw w = Raise ValueError w1 <-> refused saved) /\
  (set_params kw w = Ok true w1 <-> ~ refused saved) /\
  (refused saved -> forall fuel x, generate fuel x kw w = Raise ValueError w1) /\
  (forall th ga bs,
     refused (Attack_set_params (mkKwargs None (Some th) (Some ga) (Some bs)) (obj w)) ->
     init th ga bs w =
       Raise ValueError
         (with_obj w (Attack_set_params (mkKwargs None (Some th) (Some ga) (Some bs))
                                        (obj w)))) /\
  obj w1 = saved /\ calls w1 = calls w /\ mem w1 = mem w /\ rng w1 = rng w.
Proof.
  intros saved w1.
  assert (E : set_params kw w =
              if valid_params saved then Ok true w1 else Raise ValueError w1)
    by apply set_params_eq.
  pose proof (valid_params_refused saved) as Hv.
  split; [|split; [|split; [|split; [|repeat split]]]].
  - rewrite E. destruct (valid_params saved) eqn:V.
    + split; [discriminate|]. intros H. apply Hv in H. congruence.
    + split; [intros _; now apply Hv|reflexivity].
  - rewrite E. destruct (valid_params saved) eqn:V.
    + split; [|reflexivity]. intros _ Hr. apply Hv in Hr. congruence.
    + split; [discriminate|]. intros H. exfalso. apply H. now apply Hv.
  - intros Hr fuel x. apply Hv in Hr. unfold generate.
    apply bind_raise. rewrite E, Hr. reflexivity.
  - intros th ga bs Hr. unfold init. apply bind_raise.
    rewrite set_params_eq. cbv zeta. simpl obj.
    apply valid_params_refused in Hr. now rewrite Hr.
Qed.

End Validation.

(** ** Target resolution (C8) *)

Section Targets.

Context {C : Classifier} {R : Runtime}.

Lemma argmax_from_found row : forall besti i,
  Forall (fun v => v = 0 \/ v = 1) row ->
  argmax_from 1 besti i row = besti.
Proof.
  induction row as [|v row IH]; intros besti i H; simpl; [reflexivity|].
  inversion H as [|? ? Hv Hrow]; subst.
  destruct Hv as [-> | ->]; simpl; apply IH; assumption.
Qed.

Lemma one_hot_bits c i m :
  Forall (fun v => v = 0 \/ v = 1)
         (map (fun k => if (k =? c)%nat then 1 else 0) (seq i m)).
Proof.
  apply Forall_forall. intros v Hv. apply list_elem_of_fmap in Hv as (k & -> & _).
  destruct (k =? c)%nat; auto.
Qed.

Lemma argmax_from_one_hot c m : forall i besti,
  (i <= c < i + m)%nat ->
  argmax_from 0 besti i (map (fun k => if (k =? c)%nat then 1 else 0) (seq i m)) = c.
Proof.
  induction m as [|m IH]; intros i besti Hc; [lia|]. simpl.
  destruct (i =? c)%nat eqn:E.
  - apply Nat.eqb_eq in E. subst. simpl. apply argmax_from_found, one_hot_bits.
  - apply Nat.eqb_neq in E. simpl. apply IH. lia.
Qed.

Lemma argmax_to_categorical c nb : (c < nb)%nat -> argmax (to_categorical c nb) = c.
Proof.
  intros Hc. unfold to_categorical, argmax.
  destruct nb as [|nb]; [lia|]. simpl.
  destruct c as [|c]; simpl.
  - apply argmax_from_found, one_hot_bits.
  - apply argmax_from_one_hot. lia.
Qed.

Lemma elem_of_other_classes nb p c :
  c ∈ other_classes nb p <-> (c < nb)%nat /\ c <> p.
Proof.
  unfold other_classes. rewrite list_elem_of_filter, elem_of_seq. lia.
Qed.

Lemma NoDup_other_classes nb p : NoDup (other_classes nb p).
Proof. unfold other_classes. apply NoDup_filter, NoDup_seq. Qed.

Lemma other_classes_nonempty nb p : (2 <= nb)%nat -> other_classes nb p <> [].
Proof.
  intros Hnb E.
  assert (H : (if decide (p = 0%nat) then 1%nat else 0%nat) ∈ other_classes nb p).
  { apply elem_of_other_classes. destruct (decide (p = 0%nat)); lia. }
  rewrite E in H. inversion H.
Qed.

Lemma drawn_elem nb p n : (2 <= nb)%nat -> drawn nb p n ∈ other_classes nb p.
Proof.
  intros Hnb. unfold drawn.
  pose proof (other_classes_nonempty nb p Hnb) as Hne.
  assert (Hlt : (random_raw n mod length (other_classes nb p)
                 < length (other_classes nb p))%nat).
  { apply Nat.mod_upper_bound. destruct (other_classes nb p); [contradiction|]. simpl. lia. }
  apply lookup_lt_is_Some in Hlt as [c Hc]. rewrite Hc. simpl.
  eapply list_elem_of_lookup_2; eauto.
Qed.

Lemma random_targets_eq nb labels : (2 <= nb)%nat -> forall w,
  random_targets labels nb w =
    Ok (imap (fun k p => to_categorical (drawn nb p (rng w + k)) nb) labels)
       (with_rng w (rng w + length labels)).
Proof.
  intros Hnb. induction labels as [|p labels IH]; intros w; simpl.
  - unfold ret, with_rng. rewrite Nat.add_0_r. now destruct w.
  - unfold bind at 1. unfold random_choice.
    pose proof (other_classes_nonempty nb p Hnb) as Hne.
    destruct (other_classes nb p) as [|c0 cs] eqn:Eo; [contradiction|].
    unfold bind at 1. rewrite IH. unfold ret. f_equal.
    + f_equal.
      * unfold drawn. rewrite Eo, Nat.add_0_r. reflexivity.
      * apply imap_ext. intros k q _. simpl. f_equal. f_equal. lia.
    + unfold with_rng. simpl. f_equal. lia.
Qed.

(** C8. Without [y] every sample gets a target: the class at the position
    its raw draw selects in the list of the classes other than its
    prediction.  That list holds every incorrect class once and no other
    class, so the target is never the predicted class. *)
Theorem C8_random_target_differs (kw : kwargs) (preds : list nat) (w : world) :
  kw_y kw = None -> (2 <= nb_classes)%nat ->
  exists targets w',
    resolve_targets kw preds w = Ok targets w' /\
    length targets = length preds /\
    (forall k p, preds !! k = Some p ->
       exists t, targets !! k = Some t /\ t <> p /\ (t < nb_classes)%nat /\
                 t = drawn nb_classes p (rng w + k)) /\
    (forall p, NoDup (other_classes nb_classes p) /\
               forall c, c ∈ other_classes nb_classes p <-> (c < nb_classes)%nat /\ c <> p).
Proof.
  intros Hy Hnb. unfold resolve_targets. rewrite Hy.
  unfold bind. rewrite (random_targets_eq nb_classes preds Hnb w). unfold ret.
  eexists. eexists. split; [reflexivity|].
  split; [unfold argmax_axis1; now rewrite length_map, length_imap|].
  split.
  - intros k p Hk. exists (drawn nb_classes p (rng w + k)).
    pose proof (drawn_elem nb_classes p (rng w + k) Hnb) as Hd.
    apply elem_of_other_classes in Hd as [Hlt Hne].
    repeat split; auto.
    unfold argmax_axis1. change (map argmax ?l) with (argmax <$> l).
    rewrite list_lookup_fmap, list_lookup_imap, Hk. simpl.
    now rewrite argmax_to_categorical.
  - intros p. split; [apply NoDup_other_classes|apply elem_of_other_classes].
Qed.

End Targets.

(** ** The saliency map (C5) *)

Section SaliencySelection.

Context {C : Classifier} {R : Runtime} {COk : ClassifierOk C} {ROk : RuntimeOk R}.

Lemma used_feature_test s : eqb (1 - s) 1 = eqb s 0.
Proof.
  destruct (eqb s 0) eqn:E.
  - apply eqb_eq in E. apply eqb_eq. rewrite E. reflexivity.
  - apply eqb_false in E. apply eqb_false. intros H. apply E.
    assert (Hs : s == 1 - (1 - s)) by ring. rewrite Hs, H. reflexivity.
Qed.

(** The entry of the masked gradient at a feature: the infinity that takes
    the feature out of the ranking when it is outside the search space, the
    gradient otherwise. *)
Lemma lookup_masked_row th grow srow f gv s :
  grow !! f = Some gv -> srow !! f = Some s ->
  masked_row th grow srow !! f =
    Some (if eqb s 0 then (if gtb th 0 then NegInf else PosInf) else Fin gv).
Proof.
  intros Hg Hs. unfold masked_row. rewrite lookup_zip_with.
  change (map ?g ?l) with (g <$> l). rewrite !list_lookup_fmap, Hg, Hs. simpl.
  rewrite used_feature_test. destruct (eqb s 0); [|reflexivity].
  now destruct (gtb th 0).
Qed.

Lemma top2_of_opp row ij : top2_of (map ext_opp row) ij -> lowest2_of row ij.
Proof.
  intros (ei & ej & Hi & Hj & Hne & Hle & Hothers).
  change (map ext_opp row) with (ext_opp <$> row) in *.
  rewrite list_lookup_fmap in Hi, Hj.
  destruct (row !! ij.1) as [ei'|] eqn:Ei; [|discriminate].
  destruct (row !! ij.2) as [ej'|] eqn:Ej; [|discriminate].
  simpl in *. injection Hi as <-. injection Hj as <-.
  exists ei', ej'. repeat split; auto.
  - now apply ext_opp_le.
  - intros k e Hk H1 H2. apply ext_opp_le. apply (Hothers k); auto.
    rewrite list_lookup_fmap, Hk. reflexivity.
Qed.

(** C5. On [n] samples of [F >= 2] features, [_saliency_map] returns one
    pair of feature positions per sample.  The pair is selected in the
    sample's gradient after the features outside the search space (entry 0)
    have been overwritten with -infinity when [theta > 0] and +infinity
    otherwise: the two largest entries when [theta > 0], the two smallest
    otherwise.  When two features of the sample are in the search space,
    both selected features are. *)
Theorem C5_saliency_map_selection (x search_space : arr) (target : list nat)
    (w : world) (n F : nat) :
  (2 <= F)%nat -> nb_features (obj w) = F ->
  has_shape n F (view w x) -> has_shape n F (view w search_space) ->
  let th := theta (obj w) in
  exists feat_ind,
    _saliency_map x target search_space w =
      Ok feat_ind (with_call w (ClassGradient (view w x) target)) /\
    length feat_ind = n /\
    forall k ij, feat_ind !! k = Some ij ->
      exists grow srow,
        class_gradient (view w x) target !! k = Some grow /\
        view w search_space !! k = Some srow /\
        (forall f gv s, grow !! f = Some gv -> srow !! f = Some s ->
           masked_row th grow srow !! f =
             Some (if eqb s 0 then (if gtb th 0 then NegInf else PosInf)
                   else Fin gv)) /\
        (0 < th -> top2_of (masked_row th grow srow) ij) /\
        (th <= 0 -> lowest2_of (masked_row th grow srow) ij) /\
        (forall f1 f2 s1 s2,
           f1 <> f2 ->
           srow !! f1 = Some s1 -> ~ s1 == 0 ->
           srow !! f2 = Some s2 -> ~ s2 == 0 ->
           exists si sj,
             srow !! ij.1 = Some si /\ ~ si == 0 /\
             srow !! ij.2 = Some sj /\ ~ sj == 0).
Proof.
  intros HF HnF Hx Hs th.
  exists (saliency th (view w x) target (view w search_space)).
  split; [now apply (_saliency_map_eq th F) with (n := n)|].
  split; [eapply length_saliency; eauto|].
  intros k ij Hk.
  destruct (saliency_selects th F _ _ _ n k ij HF Hx Hs Hk)
    as (grow & srow & Hg & Hsr & Hlg & Hls & Htop).
  exists grow, srow. split; [assumption|]. split; [assumption|].
  split; [intros f gv s; apply lookup_masked_row|].
  split; [|split].
  - intros Hth. apply gtb_true_lt in Hth. unfold oriented in Htop.
    now rewrite Hth in Htop.
  - intros Hth. apply gtb_false_le in Hth. unfold oriented in Htop.
    rewrite Hth in Htop. now apply top2_of_opp.
  - intros f1 f2 s1 s2 Hne H1 Hs1 H2 Hs2.
    assert (Hin : forall f s, srow !! f = Some s -> ~ s == 0 ->
              exists q, oriented th (masked_row th grow srow) !! f = Some (Fin q)).
    { intros f s Hf Hsf.
      assert (Hflt : (f < length grow)%nat) by (apply lookup_lt_Some in Hf; lia).
      apply lookup_lt_is_Some in Hflt as [gv Hgv].
      rewrite (lookup_oriented th grow srow f gv s Hgv Hf).
      rewrite used_feature_test. apply eqb_false in Hsf. rewrite Hsf. eauto. }
    assert (Hout : forall f e, oriented th (masked_row th grow srow) !! f = Some e ->
              e <> NegInf -> exists s, srow !! f = Some s /\ ~ s == 0).
    { intros f e Hf He.
      assert (Hflt : (f < length srow)%nat).
      { apply lookup_lt_Some in Hf. unfold oriented, masked_row in Hf.
        destruct (gtb th 0); rewrite ?length_map, length_zip_with, !length_map in Hf; lia. }
      assert (Hfg : (f < length grow)%nat) by lia.
      apply lookup_lt_is_Some in Hflt as [s Hsf].
      apply lookup_lt_is_Some in Hfg as [gv Hgv].
      rewrite (lookup_oriented th grow srow f gv s Hgv Hsf) in Hf.
      rewrite used_feature_test in Hf. exists s. split; [assumption|].
      destruct (eqb s 0) eqn:E; [injection Hf as <-; contradiction|].
      now apply eqb_false. }
    destruct (Hin f1 s1 H1 Hs1) as [q1 Hq1]. destruct (Hin f2 s2 H2 Hs2) as [q2 Hq2].
    destruct (top2_last_max _ _ _ _ Htop Hq1) as (ej & Hj & Hlej).
    apply ext_le_fin_inv in Hlej.
    destruct (Hout _ _ Hj Hlej) as (sj & Hsj & Hnj).
    assert (Hfirst : exists f q, oriented th (masked_row th grow srow) !! f = Some (Fin q)
                                 /\ f <> ij.2).
    { destruct (decide (f1 = ij.2)) as [E1|E1]; [|eauto].
      exists f2, q2. split; [assumption|]. congruence. }
    destruct Hfirst as (f & q & Hq & Hnf).
    destruct (top2_first_max _ _ _ _ Htop Hq Hnf) as (ei & Hi & Hlei).
    apply ext_le_fin_inv in Hlei.
    destruct (Hout _ _ Hi Hlei) as (si & Hsi & Hni).
    exists si, sj. auto.
Qed.

End SaliencySelection.

(** ** The search space only shrinks (C7) *)

Section SpaceMonotone.

Context {C : Classifier} {R : Runtime} {COk : ClassifierOk C} {ROk : RuntimeOk R}.

Lemma kept_refl S : kept_or_cleared S S.
Proof. intros r srow Hr. exists srow. split; [assumption|]. intros f s Hf. eauto. Qed.

Lemma kept_trans S1 S2 S3 :
  kept_or_cleared S1 S2 -> kept_or_cleared S2 S3 -> kept_or_cleared S1 S3.
Proof.
  intros H12 H23 r srow3 Hr3.
  destruct (H23 r srow3 Hr3) as (srow2 & Hr2 & E23).
  destruct (H12 r srow2 Hr2) as (srow1 & Hr1 & E12).
  exists srow1. split; [assumption|]. intros f s3 Hf3.
  destruct (E23 f s3 Hf3) as (s2 & Hf2 & [-> | ->]).
  - destruct (E12 f s2 Hf2) as (s1 & Hf1 & _). eauto.
  - apply (E12 f s2 Hf2).
Qed.

Lemma next_space_kept th clip_min clip_max (B' S : matrix) :
  kept_or_cleared S (next_space th clip_min clip_max B' S).
Proof.
  intros r srow' Hr. unfold next_space, mask_assign in Hr.
  rewrite lookup_zip_with in Hr.
  destruct (S !! r) as [srow|]; [|discriminate]. simpl in Hr.
  destruct (cmp_mask eqb B' _ !! r) as [mrow|]; [|discriminate]. simpl in Hr.
  injection Hr as <-. exists srow. split; [reflexivity|].
  intros f s' Hf. rewrite lookup_zip_with in Hf.
  destruct (srow !! f) as [s|]; [|discriminate]. simpl in Hf.
  destruct (mrow !! f) as [b|]; [|discriminate]. simpl in Hf. injection Hf as <-.
  exists s. split; [reflexivity|]. destruct b; auto.
Qed.

Lemma loop_view_kept th ga F clip_min clip_max target fuel :
  forall (B S A : matrix) act tr Bf Sf,
  loop_view th ga F clip_min clip_max target fuel B S A act = Some (tr, Bf, Sf) ->
  kept_or_cleared S Sf.
Proof.
  induction fuel as [|fuel IH]; intros B S A act tr Bf Sf E.
  - destruct act; [|discriminate]. injection E as <- <- <-. apply kept_refl.
  - destruct act as [|a act]; [injection E as <- <- <-; apply kept_refl|].
    cbn [loop_view] in E.
    destruct (loop_view _ _ _ _ _ _ fuel _ _ _ _) as [[[tr' Bf'] Sf']|] eqn:E';
      [|discriminate].
    injection E as <- <- <-.
    eapply kept_trans; [apply next_space_kept|]. eapply IH; eauto.
Qed.

Lemma Qsum_nonneg (row : list Q) : Forall (fun s => 0 <= s) row -> 0 <= Qsum row.
Proof.
  induction 1 as [|s row Hs _ IH]; simpl; [apply Qle_refl|].
  rewrite <- (Qplus_0_r 0). now apply Qplus_le_compat.
Qed.

Lemma Qsum_kept (srow' : list Q) : forall srow,
  (forall f s', srow' !! f = Some s' ->
     exists s, srow !! f = Some s /\ (s' = 0 \/ s' = s)) ->
  Forall (fun s => 0 <= s) srow ->
  Qsum srow' <= Qsum srow.
Proof.
  induction srow' as [|s' srow' IH]; intros srow H Hpos.
  - now apply Qsum_nonneg.
  - destruct (H 0%nat s' eq_refl) as (s & Hs & Hcase).
    destruct srow as [|s0 srow]; [discriminate|]. simpl in Hs. injection Hs as ->.
    inversion Hpos as [|? ? Hs0 Hpos']; subst. simpl.
    apply Qplus_le_compat.
    + destruct Hcase as [-> | ->]; [assumption|apply Qle_refl].
    + apply IH; [|assumption]. intros f t Hf. apply (H (S f) t Hf).
Qed.

Lemma bits_kept (srow srow' : list Q) :
  (forall f s', srow' !! f = Some s' ->
     exists s, srow !! f = Some s /\ (s' = 0 \/ s' = s)) ->
  Forall (fun s => s = 0 \/ s = 1) srow ->
  Forall (fun s => s = 0 \/ s = 1) srow'.
Proof.
  intros H Hbits. apply Forall_lookup. intros f s' Hf.
  destruct (H f s' Hf) as (s & Hs & [-> | ->]); [now left|].
  rewrite Forall_lookup in Hbits. exact (Hbits f s Hs).
Qed.

Lemma kept_rows n F (S S' : matrix) :
  kept_or_cleared S S' -> has_shape n F S -> has_shape n F S' ->
  forall r srow', S' !! r = Some srow' ->
    exists srow,
      S !! r = Some srow /\
      (forall f s', srow' !! f = Some s' ->
         exists s, srow !! f = Some s /\ (s' = 0 \/ s' = s)) /\
      (forall f, srow !! f = Some 0 -> srow' !! f = Some 0) /\
      (Forall (fun s => s = 0 \/ s = 1) srow ->
       Forall (fun s => s = 0 \/ s = 1) srow' /\ Qsum srow' <= Qsum srow).
Proof.
  intros Hk HS HS' r srow' Hr. destruct (Hk r srow' Hr) as (srow & Hrow & Hent).
  exists srow. split; [assumption|]. split; [assumption|]. split.
  - intros f Hf.
    assert (Hlen : length srow' = length srow).
    { rewrite (has_shape_lookup _ _ _ _ _ HS Hrow).
      apply (has_shape_lookup _ _ _ _ _ HS' Hr). }
    assert (Hlt : (f < length srow')%nat) by (rewrite Hlen; eapply lookup_lt_Some; eauto).
    apply lookup_lt_is_Some in Hlt as [s' Hs'].
    destruct (Hent f s' Hs') as (s & Hs & Hcase). rewrite Hf in Hs. injection Hs as <-.
    rewrite Hs'. f_equal. now destruct Hcase.
  - intros Hbits. split; [eapply bits_kept; eauto|].
    apply Qsum_kept; [assumption|].
    eapply Forall_impl; [exact Hbits|]. intros s [-> | ->]; discriminate.
Qed.

(** C7. From any state of the loop on, after one pass of the loop body and
    after as many passes as the loop makes: every entry of the search space
    is the entry it was or 0, so an entry that is 0 stays 0, a row of 0s
    and 1s stays one, and the number of eligible features of a sample (the
    sum of its row) does not grow. *)
Theorem C7_search_space_monotone (dims : list nat) (clip_min clip_max : Q)
    (batch search_space all_feat : arr) (target active_indices : list nat)
    (w : world) (n F : nat) :
  loop_inv dims batch search_space all_feat w n F ->
  in_range n active_indices = true ->
  forall w',
    (exists active_indices',
       loop_body dims clip_min clip_max batch search_space all_feat target
                 active_indices w = Ok active_indices' w') \/
    (exists fuel passes,
       batch_loop fuel dims clip_min clip_max batch search_space all_feat target
                  active_indices w = Ok passes w') ->
    forall r srow', view w' search_space !! r = Some srow' ->
      exists srow,
        view w search_space !! r = Some srow /\
        (forall f s', srow' !! f = Some s' ->
           exists s, srow !! f = Some s /\ (s' = 0 \/ s' = s)) /\
        (forall f, srow !! f = Some 0 -> srow' !! f = Some 0) /\
        (Forall (fun s => s = 0 \/ s = 1) srow ->
         Forall (fun s => s = 0 \/ s = 1) srow' /\ Qsum srow' <= Qsum srow).
Proof.
  intros Inv Hact w' Hrun.
  assert (HS : has_shape n F (view w search_space)) by now destruct Inv.
  apply (kept_rows n F); [| assumption |].
  - destruct Hrun as [(act' & E)|(fuel & passes & E)].
    + destruct (le_lt_dec 2 F) as [HF|HF].
      * destruct (loop_body_eq dims clip_min clip_max batch search_space all_feat
                    target w n F active_indices Inv HF Hact) as (w1 & E1 & P1 & _).
        rewrite E1 in E. injection E as _ <-.
        destruct P1 as [_ Ps _ _ _ _ _ _ _ _ _ _]. rewrite Ps. apply next_space_kept.
      * destruct (loop_body_raise dims clip_min clip_max batch search_space all_feat
                    target w n F active_indices Inv HF Hact) as (w1 & E1 & _).
        rewrite E1 in E. discriminate.
    + destruct (le_lt_dec 2 F) as [HF|HF].
      * pose proof (batch_loop_eq dims clip_min clip_max batch search_space all_feat
                      target fuel w n F active_indices Inv HF Hact) as H.
        destruct (loop_view _ _ _ _ _ _ fuel _ _ _ _) as [[[tr Bf] Sf]|] eqn:EL.
        -- destruct H as (w1 & E1 & P1 & _). rewrite E1 in E. injection E as _ <-.
           destruct P1 as [_ Ps _ _ _ _ _ _ _]. rewrite Ps.
           eapply loop_view_kept; eauto.
        -- rewrite H in E. discriminate.
      * destruct (batch_loop_small dims clip_min clip_max batch search_space all_feat
                    target fuel w n F active_indices passes w' Inv HF Hact E)
          as (_ & _ & ->).
        apply kept_refl.
  - destruct Hrun as [(act' & E)|(fuel & passes & E)].
    + destruct (le_lt_dec 2 F) as [HF|HF].
      * destruct (loop_body_eq dims clip_min clip_max batch search_space all_feat
                    target w n F active_indices Inv HF Hact) as (w1 & E1 & _ & Inv1).
        rewrite E1 in E. injection E as _ <-. now destruct Inv1.
      * destruct (loop_body_raise dims clip_min clip_max batch search_space all_feat
                    target w n F active_indices Inv HF Hact) as (w1 & E1 & _).
        rewrite E1 in E. discriminate.
    + destruct (le_lt_dec 2 F) as [HF|HF].
      * pose proof (batch_loop_eq dims clip_min clip_max batch search_space all_feat
                      target fuel w n F active_indices Inv HF Hact) as H.
        destruct (loop_view _ _ _ _ _ _ fuel _ _ _ _) as [[[tr Bf] Sf]|] eqn:EL.
        -- destruct H as (w1 & E1 & _ & Inv1). rewrite E1 in E. injection E as _ <-.
           now destruct Inv1.
        -- rewrite H in E. discriminate.
      * destruct (batch_loop_small dims clip_min clip_max batch search_space all_feat
                    target fuel w n F active_indices passes w' Inv HF Hact E)
          as (_ & _ & ->).
        assumption.
Qed.

End SpaceMonotone.

(** ** Values stay in the clip range (C6) and the input is left alone (C10) *)

Section GenerateProperties.

Context {C : Classifier} {R : Runtime} {COk : ClassifierOk C} {ROk : RuntimeOk R}.

Lemma clip_step_clamped th clip_min clip_max v :
  clip_step th clip_min clip_max v = clamped_step th clip_min clip_max v.
Proof.
  unfold clip_step, clip_func, clip_value, clamped_step. now destruct (gtb th 0).
Qed.

Lemma clip_step_in_range th clip_min clip_max v :
  clip_min <= v <= clip_max ->
  clip_min <= clip_step th clip_min clip_max v <= clip_max.
Proof.
  intros Hv. apply clip_step_range; [|assumption].
  destruct Hv as [Hlo Hhi]. eapply Qle_trans; eauto.
Qed.

(** C6. One pass of the loop, given one target per sample of the batch,
    replaces, in the row of every active sample,
    the values of two distinct features by [min(clip_max, v + theta)] when
    [theta > 0] and by [max(clip_min, v + theta)] otherwise, and leaves the
    other samples alone; and when every value of the input lies in
    [[clip_min, clip_max]], so does every value of the array that
    [generate] returns. *)
Theorem C6_output_within_clip_range :
  (forall (dims : list nat) (clip_min clip_max : Q) (batch search_space all_feat : arr)
          (target active_indices : list nat) (w : world) (n F : nat),
     loop_inv dims batch search_space all_feat w n F -> (2 <= F)%nat ->
     length target = n ->
     in_range n active_indices = true -> NoDup active_indices ->
     exists active_indices' w',
       loop_body dims clip_min clip_max batch search_space all_feat target
                 active_indices w = Ok active_indices' w' /\
       forall r row, view w batch !! r = Some row ->
         (r ∉ active_indices -> view w' batch !! r = Some row) /\
         (r ∈ active_indices ->
          exists i j vi vj,
            (i < F)%nat /\ (j < F)%nat /\ i <> j /\
            row !! i = Some vi /\ row !! j = Some vj /\
            view w' batch !! r =
              Some (<[j := clamped_step (theta (obj w)) clip_min clip_max vj]>
                      (<[i := clamped_step (theta (obj w)) clip_min clip_max vi]> row))))
  /\
  (forall (fuel : nat) (x : arr) (kw : kwargs) (w w' : world) (a : arr) (N : nat),
     wf_view w x -> has_shape N (product (dims x)) (view w x) ->
     Forall (Forall (fun v => clip_values.1 <= v <= clip_values.2)) (view w x) ->
     generate fuel x kw w = Ok a w' ->
     Forall (Forall (fun v => clip_values.1 <= v <= clip_values.2)) (view w' a)).
Proof.
  split.
  - intros dims clip_min clip_max batch ss af target act w n F Inv HF _ Hact Hnd.
    destruct (loop_body_eq dims clip_min clip_max batch ss af target w n F act
                Inv HF Hact) as (w' & E & Post & _).
    eexists _, w'. split; [exact E|].
    intros r row Hr. destruct Post as [Pb _ _ _ _ _ _ _ _ _ _ _].
    destruct Inv as [_ _ _ _ _ _ _ _ HB HS _].
    rewrite Pb.
    destruct (lookup_next_batch (theta (obj w)) F clip_min clip_max target n
                (view w batch) (view w ss) act r row HB HS Hact Hnd Hr)
      as [[Hnin E1]|(k & ij & Hk & Hij & E1)].
    + split; [intros _; exact E1|]. intros Hin. contradiction.
    + split.
      { intros Hnin. exfalso. apply Hnin. eapply list_elem_of_lookup_2; eauto. }
      intros _.
      destruct (saliency_in_range (theta (obj w)) F (length act) _ _ _ k ij HF
                  (has_shape_rows_at _ _ _ _ HB Hact)
                  (has_shape_rows_at _ _ _ _ HS Hact) Hij) as (Hi & Hj & Hne).
      pose proof (has_shape_lookup _ _ _ _ _ HB Hr) as Hlen.
      destruct (lookup_lt_is_Some_2 row ij.1) as [vi Hvi]; [lia|].
      destruct (lookup_lt_is_Some_2 row ij.2) as [vj Hvj]; [lia|].
      exists ij.1, ij.2, vi, vj. repeat (split; [assumption|]).
      rewrite E1. unfold step_row. rewrite !clip_step_clamped.
      rewrite list_lookup_insert_ne by assumption.
      now rewrite Hvi, Hvj.
  - intros fuel x kw w w' a N Hwf HX HP E.
    eapply (generate_post fuel x kw w a w' N (product (dims x))
              (fun v => clip_values.1 <= v <= clip_values.2)); eauto.
    intros v Hv. now apply clip_step_in_range.
Qed.

(** C10. [generate] works on a copy.  When it returns, the array it returns
    lives in a buffer that did not exist before the call, it has the shape
    of [x], and every buffer that existed before the call, that of [x]
    among them, holds what it held before.  When it raises, the buffers
    that existed hold what they held before as well. *)
Theorem C10_input_not_mutated (fuel : nat) (x : arr) (kw : kwargs) (w : world) (N : nat) :
  wf_view w x -> has_shape N (product (dims x)) (view w x) ->
  (forall a w', generate fuel x kw w = Ok a w' ->
     buf a = mlen w /\ buf a <> buf x /\
     shape a = shape x /\
     length (view w' a) = length (view w x) /\
     (forall b, (b < mlen w)%nat -> buffer w' b = buffer w b) /\
     view w' x = view w x) /\
  (forall e w', generate fuel x kw w = Raise e w' ->
     (forall b, (b < mlen w)%nat -> buffer w' b = buffer w b) /\
     view w' x = view w x).
Proof.
  intros Hwf HX. pose proof Hwf as [Hlt _]. split.
  - intros a w' E.
    destruct (generate_post fuel x kw w a w' N (product (dims x)) (fun _ => True)
                Hwf HX eq_refl) as (-> & Hframe & Hshape & _ & _); auto.
    { clear. induction (view w x) as [|row rows IH]; constructor; [|assumption].
      induction row; constructor; auto. }
    cbn [buf shape len dims].
    split; [reflexivity|]. split; [lia|].
    split; [reflexivity|]. split.
    + destruct Hshape as [-> _]. now destruct HX as [-> _].
    + split; [assumption|]. unfold view. now rewrite Hframe.
  - intros e w' E.
    pose proof (generate_raise fuel x kw w e w' N Hwf HX E) as Hframe.
    split; [assumption|]. unfold view. now rewrite Hframe.
Qed.

End GenerateProperties.

(** ** Termination (C4) *)

Section BatchProperties.

Context {C : Classifier} {R : Runtime} {COk : ClassifierOk C} {ROk : RuntimeOk R}.

Lemma batch_shape w N F x_adv bs batch_id :
  wf_view w x_adv -> has_shape N F (view w x_adv) ->
  has_shape (len (batch_of x_adv bs batch_id)) F (view w (batch_of x_adv bs batch_id)).
Proof.
  intros Hwf HX. unfold batch_of. rewrite view_slice by assumption.
  pose proof (length_view _ _ Hwf) as Hl.
  pose proof (has_shape_length _ _ _ HX) as HN.
  unfold slice. cbn [len].
  eapply has_shape_take_drop; [exact HX|]. lia.
Qed.

Lemma first_active_in_range x_adv preds targets bs batch_id :
  length preds = len x_adv ->
  in_range (len (batch_of x_adv bs batch_id)) (first_active preds targets bs batch_id)
    = true.
Proof.
  intros Hp. unfold first_active. apply in_range_np_where.
  unfold ne_mask, slice_list. rewrite length_zip_with, !length_take, !length_drop.
  unfold batch_of, slice. simpl. lia.
Qed.

Lemma elem_of_first_active preds targets bs batch_id r :
  r ∈ first_active preds targets bs batch_id <->
  exists p t,
    slice_list preds (Z.to_nat (Z.of_nat batch_id * bs))
               (Z.to_nat ((Z.of_nat batch_id + 1) * bs)) !! r = Some p /\
    batch_target targets bs batch_id !! r = Some t /\ p <> t.
Proof.
  unfold first_active, batch_target. rewrite elem_of_np_where.
  unfold ne_mask. rewrite lookup_zip_with. split.
  - destruct (slice_list preds _ _ !! r) as [p|]; [|discriminate].
    destruct (slice_list targets _ _ !! r) as [t|]; [|discriminate].
    simpl. intros [= H]. exists p, t. split; [reflexivity|]. split; [reflexivity|].
    apply negb_true_iff, Nat.eqb_neq in H. exact H.
  - intros (p & t & -> & -> & Hne). simpl. f_equal.
    now apply negb_true_iff, Nat.eqb_neq.
Qed.

Lemma iter_saturated th clip_min clip_max v k :
  0 < th -> v == clip_max ->
  Nat.iter k (clip_step th clip_min clip_max) v == clip_max.
Proof.
  intros Hth Hv. induction k as [|k IH]; [exact Hv|].
  rewrite Nat.iter_succ. set (u := Nat.iter k _ v) in *.
  unfold clip_step, clip_func, clip_value.
  assert (E : gtb th 0 = true) by now apply gtb_true_lt.
  rewrite E. apply Q.min_l.
  apply Qle_trans with u; [apply Qle_lteq; right; symmetry; exact IH|].
  apply float_add_up. now apply Qlt_le_weak.
Qed.

Lemma saturated_not_eligible th clip_min clip_max (B : matrix) r row :
  0 < th -> B !! r = Some row -> Forall (fun v => v == clip_max) row ->
  ~ has_eligible th clip_min clip_max B r.
Proof.
  intros Hth Hr Hsat (row' & f & v & Hr' & Hf & He).
  rewrite Hr in Hr'. injection Hr' as <-.
  unfold eligible in He.
  assert (E : gtb th 0 = true) by now apply gtb_true_lt.
  rewrite E in He. apply ltb_lt in He.
  rewrite Forall_lookup in Hsat. specialize (Hsat f v Hf). simpl in Hsat.
  apply (Qlt_irrefl clip_max). eapply Qle_lt_trans; [|exact He].
  apply Qle_lteq. right. symmetry. exact Hsat.
Qed.

(** C4 as amended.  With [theta] other than 0, at least two features, one
    prediction and one target per sample, a positive batch size and values
    whose sums are not rounded, the loop of a batch ends: a run with fuel for one pass more
    than the steps of size [theta] that separate the values of the batch
    from the clip value returns.  A sample is active in at most one pass
    more than the steps that separate its own values from the clip value. *)
Theorem C4_loop_terminates (dims : list nat) (clip_min clip_max : Q) (x_adv : arr)
    (preds targets : list nat) (batch_id fuel : nat) (w : world) (N F e : nat) :
  wf_view w x_adv -> has_shape N F (view w x_adv) ->
  nb_features (obj w) = F -> (2 <= F)%nat ->
  product dims = product (Numpy.dims x_adv) ->
  length preds = N -> length targets = N ->
  (0 < batch_size (obj w))%Z ->
  ~ theta (obj w) == 0 ->
  let B0 := view w (batch_of x_adv (batch_size (obj w)) batch_id) in
  addition_exact e (theta (obj w)) clip_min clip_max B0 = true ->
  (S (batch_steps (theta (obj w)) clip_min clip_max B0) <= fuel)%nat ->
  exists passes w',
    attack_batch fuel dims clip_min clip_max x_adv preds targets batch_id w
      = Ok passes w' /\
    (length passes <= S (batch_steps (theta (obj w)) clip_min clip_max B0))%nat /\
    forall r,
      (active_count r passes
         <= S (sample_steps (theta (obj w)) clip_min clip_max B0 r))%nat.
Proof.
  intros Hwf HX HF HF2 Hdims Hpreds Htargets _ Hth B0 Hex Hfuel.
  destruct (addition_exact_on _ _ _ _ _ Hex) as [HG HGB].
  set (G := fun v => on_grid e v = true) in *.
  set (bs := batch_size (obj w)) in *.
  assert (HN : len x_adv = N).
  { rewrite <- (has_shape_length _ _ _ HX). symmetry. now apply length_view. }
  pose proof (batch_shape w N F x_adv bs batch_id Hwf HX) as HB0. fold B0 in HB0.
  pose proof (first_active_in_range x_adv preds targets bs batch_id
                ltac:(congruence)) as Hact.
  set (n := len (batch_of x_adv bs batch_id)) in *.
  assert (HA : length (map (map (fun _ : Q => 0)) B0) = n).
  { rewrite length_map. exact (has_shape_length _ _ _ HB0). }
  destruct (loop_view_total (theta (obj w)) (gamma (obj w)) F clip_min clip_max
              (batch_target targets bs batch_id) n _ HA Hth HF2 G HG fuel B0
              (first_active preds targets bs batch_id) HB0 Hact
              (NoDup_np_where _) HGB Hfuel)
    as (tr & Bf & E & _ & Hlen & Hcount).
  pose proof (attack_batch_eq dims clip_min clip_max x_adv preds targets batch_id
                fuel w N F Hwf HX HF HF2 Hdims Hpreds) as H.
  cbv zeta in H. fold bs B0 in H. rewrite E in H.
  destruct H as (w' & Ew & _).
  exists tr, w'. auto.
Qed.

End BatchProperties.

(** ** Concrete runs *)

Ltac shape_by_eval := split; [reflexivity | repeat constructor].

Ltac view_by_eval := split; vm_compute; lia.

(** C3 as stated fails: the sample [1, 1] is at [clip_max], its prediction
    0 is not its target 1, and it is in the first active set.  The loop
    body runs once for it: the gradient is asked for the saturated sample
    and the two features are assigned [min(1, 1 + 0.25)]. *)
Lemma C3_saturated_sample_enters_loop :
  first_active [0%nat] [1%nat] 1 0 = [0%nat] /\
  (exists w',
     @attack_batch (Demo.stubborn (0, 1)) Demo.runtime 20 [2%nat] 0 1 Runs.sample
                   [0%nat] [1%nat] 0 Runs.saturated = Ok [[0%nat]] w' /\
     calls w' = [ClassGradient [[1; 1]] [1%nat]; Predict [[1; 1]]]) /\
  (exists a w',
     @generate (Demo.stubborn (0, 1)) Demo.runtime 20 (Demo.input_of [[1; 1]] [2%nat])
               Runs.to_class_1 (Demo.world_of [[1; 1]] (mkAttack (1 # 4) 1 1 0))
       = Ok a w' /\
     passes_run w' = 1%nat).
Proof.
  split; [reflexivity|]. split.
  - eexists. split; [vm_compute; reflexivity|reflexivity].
  - eexists. eexists. split; [vm_compute; reflexivity|reflexivity].
Qed.

(** With [theta = 0] a pass changes nothing, and the loop goes on. *)
Lemma stuck_loop_view (fuel : nat) :
  @loop_view (Demo.stubborn (0, 1)) Demo.runtime 0 1 2 0 1 [1%nat] fuel
             [[1 # 2; 1 # 2]] [[1; 1]] [[0; 0]] [0%nat] = None.
Proof.
  induction fuel as [|fuel IH]; [reflexivity|].
  cbn [loop_view].
  match goal with
  | |- context [loop_view _ _ _ _ _ _ fuel ?b ?s _ ?c] =>
      let b' := eval vm_compute in b in
      let s' := eval vm_compute in s in
      let c' := eval vm_compute in c in
      change c with c'; change s with s'; change b with b'
  end.
  now rewrite IH.
Qed.

(** Where the sum is rounded back to the value, a pass changes nothing
    either. *)
Lemma absorbed_loop_view (fuel : nat) :
  @loop_view (Demo.stubborn (0, Demo.two_53 + 2)) Demo.rounding 1 1 2 0
             (Demo.two_53 + 2) [1%nat] fuel
             [[Demo.two_53; Demo.two_53]] [[1; 1]] [[0; 0]] [0%nat] = None.
Proof.
  induction fuel as [|fuel IH]; [reflexivity|].
  cbn [loop_view].
  match goal with
  | |- context [loop_view _ _ _ _ _ _ fuel ?b ?s _ ?c] =>
      let b' := eval vm_compute in b in
      let s' := eval vm_compute in s in
      let c' := eval vm_compute in c in
      change c with c'; change s with s'; change b with b'
  end.
  change (loop_view _ _ _ _ _ _ fuel _ _ _ _)
    with (@loop_view (Demo.stubborn (0, Demo.two_53 + 2)) Demo.rounding 1 1 2 0
             (Demo.two_53 + 2) [1%nat] fuel
             [[Demo.two_53; Demo.two_53]] [[1; 1]] [[0; 0]] [0%nat]).
  now rewrite IH.
Qed.

(** C4 as stated fails.  With two features and [gamma = 1] the bound is
    [ceil(2 * 1 / 2) = 1] pass, and the sample [0, 0] is active in four
    passes, each of which raises both features by 0.25.  With [theta = 0]
    and the sample [0.5, 0.5] no amount of fuel is enough: the loop does not
    end.  Nor does it end with [theta = 1] on the sample [2^53, 2^53] in the
    clip range [[0, 2^53 + 2]], where the sum [2^53 + 1] is rounded to
    [2^53]. *)
Lemma C4_more_passes_than_pairs :
  (exists passes w',
     @attack_batch (Demo.stubborn (0, 1)) Demo.runtime 20 [2%nat] 0 1 Runs.sample
                   [0%nat] [1%nat] 0 Runs.fresh = Ok passes w' /\
     passes = [[0%nat]; [0%nat]; [0%nat]; [0%nat]] /\
     active_count 0 passes = 4%nat /\
     pair_budget 2 1 = 1%nat /\
     view w' Runs.sample = [[1; 1]]) /\
  (forall fuel,
     @attack_batch (Demo.stubborn (0, 1)) Demo.runtime fuel [2%nat] 0 1 Runs.sample
                   [0%nat] [1%nat] 0 Runs.stuck = OutOfFuel) /\
  (forall fuel,
     @attack_batch (Demo.stubborn (0, Demo.two_53 + 2)) Demo.rounding fuel [2%nat] 0
                   (Demo.two_53 + 2) Runs.sample [0%nat] [1%nat] 0 Runs.absorbed
       = OutOfFuel).
Proof.
  split; [|split].
  - eexists. eexists. split; [vm_compute; reflexivity|].
    split; [reflexivity|]. split; [reflexivity|]. split; reflexivity.
  - intros fuel.
    pose proof (attack_batch_eq (C := Demo.stubborn (0, 1)) (R := Demo.runtime)
                  [2%nat] 0 1 Runs.sample [0%nat] [1%nat] 0 fuel Runs.stuck 1 2
                  ltac:(view_by_eval) ltac:(shape_by_eval) eq_refl ltac:(lia)
                  eq_refl eq_refl) as H.
    cbv zeta in H.
    change (loop_view _ _ _ _ _ _ _ _ _ _ _)
      with (@loop_view (Demo.stubborn (0, 1)) Demo.runtime 0 1 2 0 1 [1%nat] fuel
               [[1 # 2; 1 # 2]] [[1; 1]] [[0; 0]] [0%nat]) in H.
    rewrite stuck_loop_view in H. exact H.
  - intros fuel.
    pose proof (attack_batch_eq (C := Demo.stubborn (0, Demo.two_53 + 2))
                  (R := Demo.rounding) (ROk := rounding_ok)
                  [2%nat] 0 (Demo.two_53 + 2) Runs.sample [0%nat] [1%nat] 0 fuel
                  Runs.absorbed 1 2
                  ltac:(view_by_eval) ltac:(shape_by_eval) eq_refl ltac:(lia)
                  eq_refl eq_refl) as H.
    cbv zeta in H.
    change (loop_view _ _ _ _ _ _ _ _ _ _ _)
      with (@loop_view (Demo.stubborn (0, Demo.two_53 + 2)) Demo.rounding 1 1 2 0
               (Demo.two_53 + 2) [1%nat] fuel
               [[Demo.two_53; Demo.two_53]] [[1; 1]] [[0; 0]] [0%nat]) in H.
    rewrite absorbed_loop_view in H. exact H.
Qed.

(** C4 on the sample [0, 0] with [theta = 0.25]: eight steps separate it
    from [clip_max], and the loop ends within nine passes. *)
Lemma C4_loop_terminates_witness :
  exists passes w',
    @attack_batch (Demo.stubborn (0, 1)) Demo.runtime 20 [2%nat] 0 1 Runs.sample
                  [0%nat] [1%nat] 0 Runs.fresh = Ok passes w' /\
    (length passes <= 9)%nat.
Proof.
  destruct (C4_loop_terminates (C := Demo.stubborn (0, 1)) (R := Demo.runtime)
              [2%nat] 0 1 Runs.sample [0%nat] [1%nat] 0 20 Runs.fresh 1 2 2)
    as (passes & w' & E & Hlen & _).
  - view_by_eval.
  - shape_by_eval.
  - reflexivity.
  - lia.
  - reflexivity.
  - reflexivity.
  - reflexivity.
  - reflexivity.
  - discriminate.
  - reflexivity.
  - vm_compute. lia.
  - exists passes, w'. split; [exact E|exact Hlen].
Defined.

(** C5 on the state of the loop of C1. *)
Lemma C5_saliency_map_witness :
  exists feat_ind,
    @_saliency_map (Demo.stubborn (0, 1)) Demo.runtime (mkArr 0 0 1 [4%nat]) [1%nat]
                   (mkArr 1 0 1 [4%nat]) Runs.looping
      = Ok feat_ind (with_call Runs.looping (ClassGradient [[0; 0; 0; 0]] [1%nat])) /\
    length feat_ind = 1%nat.
Proof.
  destruct (C5_saliency_map_selection (C := Demo.stubborn (0, 1)) (R := Demo.runtime)
              (mkArr 0 0 1 [4%nat]) (mkArr 1 0 1 [4%nat]) [1%nat] Runs.looping 1 4)
    as (feat_ind & E & Hlen & _).
  - lia.
  - reflexivity.
  - shape_by_eval.
  - shape_by_eval.
  - exists feat_ind. split; [exact E|exact Hlen].
Defined.

(** C6 on a run of [generate] on the sample [0, 0]. *)
Lemma C6_output_within_clip_range_witness :
  exists a w',
    @generate (Demo.stubborn (0, 1)) Demo.runtime 20 (Demo.input_of [[0; 0]] [2%nat])
              Runs.to_class_1 (Demo.world_of [[0; 0]] (mkAttack (1 # 4) 1 1 0))
      = Ok a w' /\
    Forall (Forall (fun v => 0 <= v <= 1)) (view w' a).
Proof.
  eexists. eexists. split; [vm_compute; reflexivity|].
  apply (proj2 (C6_output_within_clip_range (C := Demo.stubborn (0, 1))
                  (R := Demo.runtime))
           20%nat (Demo.input_of [[0; 0]] [2%nat]) Runs.to_class_1
           (Demo.world_of [[0; 0]] (mkAttack (1 # 4) 1 1 0)) _ _ 1%nat).
  - view_by_eval.
  - shape_by_eval.
  - repeat constructor; discriminate.
  - vm_compute. reflexivity.
Defined.

(** C7 on the loop started in the state of C1. *)
Lemma C7_search_space_monotone_witness :
  exists passes w',
    @batch_loop (Demo.stubborn (0, 1)) Demo.runtime 20 [4%nat] 0 1
                (mkArr 0 0 1 [4%nat]) (mkArr 1 0 1 [4%nat]) (mkArr 2 0 1 [4%nat])
                [1%nat] [0%nat] Runs.looping = Ok passes w' /\
    forall r srow', view w' (mkArr 1 0 1 [4%nat]) !! r = Some srow' ->
      exists srow, view Runs.looping (mkArr 1 0 1 [4%nat]) !! r = Some srow /\
        (Forall (fun s => s = 0 \/ s = 1) srow -> Qsum srow' <= Qsum srow).
Proof.
  eexists. eexists. split; [vm_compute; reflexivity|].
  intros r srow' Hr.
  edestruct (C7_search_space_monotone (C := Demo.stubborn (0, 1)) (R := Demo.runtime)
               [4%nat] 0 1 (mkArr 0 0 1 [4%nat]) (mkArr 1 0 1 [4%nat])
               (mkArr 2 0 1 [4%nat]) [1%nat] [0%nat] Runs.looping 1 4)
    as (srow & H1 & _ & _ & H4).
  - constructor; first [view_by_eval | shape_by_eval | discriminate | reflexivity].
  - reflexivity.
  - right. exists 20%nat. eexists. vm_compute. reflexivity.
  - exact Hr.
  - exists srow. split; [exact H1|]. intros Hb. exact (proj2 (H4 Hb)).
Defined.

(** C8 on two samples predicted as class 0 and class 1, of two classes. *)
Lemma C8_random_target_witness :
  exists targets w',
    @resolve_targets (Demo.stubborn (0, 1)) Demo.runtime Runs.no_kwargs [0%nat; 1%nat]
                     Runs.fresh = Ok targets w' /\
    length targets = 2%nat.
Proof.
  destruct (C8_random_target_differs (C := Demo.stubborn (0, 1)) (R := Demo.runtime)
              Runs.no_kwargs [0%nat; 1%nat] Runs.fresh)
    as (targets & w' & E & Hlen & _).
  - reflexivity.
  - simpl. lia.
  - exists targets, w'. split; [exact E|exact Hlen].
Defined.

(** C10 on a run of [generate] on the sample [0, 0]. *)
Lemma C10_input_not_mutated_witness :
  exists a w',
    @generate (Demo.stubborn (0, 1)) Demo.runtime 20 (Demo.input_of [[0; 0]] [2%nat])
              Runs.to_class_1 (Demo.world_of [[0; 0]] (mkAttack (1 # 4) 1 1 0))
      = Ok a w' /\
    buf a <> 0%nat /\
    view w' (Demo.input_of [[0; 0]] [2%nat]) = [[0; 0]].
Proof.
  eexists. eexists. split; [vm_compute; reflexivity|].
  edestruct (proj1 (C10_input_not_mutated (C := Demo.stubborn (0, 1))
                      (R := Demo.runtime) 20 (Demo.input_of [[0; 0]] [2%nat])
                      Runs.to_class_1
                      (Demo.world_of [[0; 0]] (mkAttack (1 # 4) 1 1 0)) 1%nat
                      ltac:(view_by_eval) ltac:(shape_by_eval)))
    as (_ & Hne & _ & _ & _ & Hview).
  - vm_compute. reflexivity.
  - split; [exact Hne|exact Hview].
Defined.

(** * Further properties *)

(** ** The batches *)

Section Batching.

Lemma ceil_div (a : Z) (p : positive) :
  Qceiling (inject_Z a / inject_Z (Z.pos p)) = (- ((- a) / Z.pos p))%Z.
Proof.
  unfold Qceiling, Qfloor, Qdiv, Qmult, Qinv, Qopp, inject_Z. simpl.
  rewrite Z.mul_1_r. reflexivity.
Qed.

(** [k = ceil(a / b)] is the least [k] with [a <= k * b]. *)
Lemma nb_batches_spec (N : nat) (bs : Z) :
  (0 < bs)%Z ->
  (Z.of_nat N <= Z.of_nat (nb_batches N bs) * bs)%Z /\
  ((Z.of_nat (nb_batches N bs) - 1) * bs < Z.of_nat N \/ N = 0%nat)%Z.
Proof.
  intros Hbs. unfold nb_batches. destruct bs as [|p|p]; try lia.
  rewrite ceil_div.
  set (a := Z.of_nat N). assert (Ha : (0 <= a)%Z) by lia.
  pose proof (Z.div_mod (- a) (Z.pos p) ltac:(lia)) as Hdm.
  pose proof (Z.mod_pos_bound (- a) (Z.pos p) ltac:(lia)) as Hmod.
  set (q := (- a / Z.pos p)%Z) in *.
  assert (Hq : (q <= 0)%Z) by nia.
  rewrite Z2Nat.id by lia.
  split; [nia|].
  destruct (decide (N = 0%nat)) as [->|Hn]; [now right|left]. nia.
Qed.

Lemma batch_bounds (x : arr) (bs : Z) (id : nat) :
  (0 < bs)%Z ->
  off (batch_of x bs id) = (off x + Nat.min (id * Z.to_nat bs) (len x))%nat /\
  len (batch_of x bs id)
    = (Nat.min ((id + 1) * Z.to_nat bs) (len x) - Nat.min (id * Z.to_nat bs) (len x))%nat.
Proof.
  intros Hbs. unfold batch_of, slice. cbn [off len].
  replace (Z.to_nat (Z.of_nat id * bs)) with (id * Z.to_nat bs)%nat
    by (rewrite Z2Nat.inj_mul, Nat2Z.id; lia).
  replace (Z.to_nat ((Z.of_nat id + 1) * bs)) with ((id + 1) * Z.to_nat bs)%nat
    by (rewrite Z2Nat.inj_mul, Z2Nat.inj_add, Nat2Z.id by lia; reflexivity).
  split; reflexivity.
Qed.

Lemma nb_batches_nat (N : nat) (bs : Z) :
  (0 < bs)%Z ->
  (N <= nb_batches N bs * Z.to_nat bs)%nat /\
  (forall id, (id < nb_batches N bs)%nat -> (id * Z.to_nat bs < N)%nat).
Proof.
  intros Hbs. destruct (nb_batches_spec N bs Hbs) as [H1 H2].
  set (nb := nb_batches N bs) in *. set (b := Z.to_nat bs).
  assert (Hb : bs = Z.of_nat b) by (unfold b; lia).
  rewrite Hb in H1, H2. split; [nia|].
  intros id Hid. destruct H2 as [H2| ->]; [nia|].
  assert (nb = 0%nat); [|lia].
  unfold nb, nb_batches. destruct bs; try lia. rewrite ceil_div. simpl.
  rewrite Z.div_0_l by lia. reflexivity.
Qed.

(** X1. The batches [x_adv[id * batch_size : (id + 1) * batch_size]] for
    [id] below [ceil(N / batch_size)] are not empty, hold at most
    [batch_size] rows each, follow one another, and every row of [x_adv]
    lies in exactly one of them. *)
Theorem X1_batches_cover_every_sample (x_adv : arr) (bs : Z) :
  (0 < bs)%Z ->
  let nb := nb_batches (len x_adv) bs in
  (forall id, (id < nb)%nat ->
     off (batch_of x_adv bs id) = (off x_adv + id * Z.to_nat bs)%nat /\
     (0 < len (batch_of x_adv bs id) <= Z.to_nat bs)%nat /\
     (off (batch_of x_adv bs id) + len (batch_of x_adv bs id)
        <= off x_adv + len x_adv)%nat) /\
  (forall r, (r < len x_adv)%nat ->
     exists id, (id < nb)%nat /\
       (off (batch_of x_adv bs id) <= off x_adv + r
          < off (batch_of x_adv bs id) + len (batch_of x_adv bs id))%nat /\
       forall id', (id' < nb)%nat ->
         (off (batch_of x_adv bs id') <= off x_adv + r
            < off (batch_of x_adv bs id') + len (batch_of x_adv bs id'))%nat ->
         id' = id).
Proof.
  intros Hbs nb.
  destruct (nb_batches_nat (len x_adv) bs Hbs) as [Hcover Hlast]. fold nb in Hcover, Hlast.
  set (b := Z.to_nat bs) in *. assert (Hb : (0 < b)%nat) by (unfold b; lia).
  assert (Hin : forall id, (id < nb)%nat ->
            off (batch_of x_adv bs id) = (off x_adv + id * b)%nat /\
            len (batch_of x_adv bs id) = (Nat.min ((id + 1) * b) (len x_adv) - id * b)%nat).
  { intros id Hid. destruct (batch_bounds x_adv bs id Hbs) as [-> ->]. fold b.
    specialize (Hlast id Hid). rewrite (Nat.min_l (id * b)) by lia. auto. }
  split.
  - intros id Hid. destruct (Hin id Hid) as [-> ->]. specialize (Hlast id Hid).
    split; [reflexivity|]. split; nia.
  - intros r Hr. exists (r / b)%nat.
    pose proof (Nat.div_mod r b ltac:(lia)) as Hdm.
    pose proof (Nat.mod_upper_bound r b ltac:(lia)) as Hmod.
    assert (Hid : (r / b < nb)%nat) by nia.
    split; [assumption|]. split.
    + destruct (Hin _ Hid) as [-> ->]. nia.
    + intros id' Hid' Hr'. destruct (Hin _ Hid') as [E1 E2]. rewrite E1, E2 in Hr'.
      nia.
Qed.

End Batching.

(** ** How the loop ends, and what it leaves alone *)

Section LoopExit.

Context {C : Classifier} {R : Runtime}.
Variables (th ga : Q) (F : nat) (clip_min clip_max : Q) (target : list nat).

Local Abbreviation lview := (loop_view th ga F clip_min clip_max target).

Lemma loop_view_nil fuel (B S A : matrix) act Bf Sf :
  lview fuel B S A act = Some ([], Bf, Sf) -> act = [] /\ Bf = B /\ Sf = S.
Proof.
  destruct act as [|a act].
  - destruct fuel; simpl; intros [= <- <-]; auto.
  - destruct fuel as [|fuel]; [discriminate|]. cbn [loop_view].
    destruct (loop_view _ _ _ _ _ _ fuel _ _ _ _) as [[[tr Bf'] Sf']|]; discriminate.
Qed.

(** The loop stops on the first [active_indices] that is empty. *)
Lemma loop_view_exit fuel : forall (B S A : matrix) act tr Bf Sf,
  lview fuel B S A act = Some (tr, Bf, Sf) -> tr <> [] ->
  next_active ga F target Bf Sf A = [].
Proof.
  induction fuel as [|fuel IH]; intros B S A act tr Bf Sf E Htr.
  - destruct act; [|discriminate]. injection E as <- <- <-. contradiction.
  - destruct act as [|a act]; [injection E as <- <- <-; contradiction|].
    cbn [loop_view] in E.
    destruct (loop_view _ _ _ _ _ _ fuel _ _ _ _) as [[[tr' Bf'] Sf']|] eqn:E';
      [|discriminate].
    injection E as <- <- <-.
    destruct tr' as [|act' tr'].
    + apply loop_view_nil in E' as (Hact & -> & ->). exact Hact.
    + eapply IH; [exact E'|discriminate].
Qed.

(** A sample that is in no pass keeps its row. *)
Lemma loop_view_untouched fuel r : forall (B S A : matrix) act tr Bf Sf,
  lview fuel B S A act = Some (tr, Bf, Sf) ->
  (forall act', act' ∈ tr -> r ∉ act') ->
  Bf !! r = B !! r.
Proof.
  induction fuel as [|fuel IH]; intros B S A act tr Bf Sf E Hr.
  - destruct act; [|discriminate]. now injection E as <- <- <-.
  - destruct act as [|a act]; [now injection E as <- <- <-|].
    cbn [loop_view] in E.
    destruct (loop_view _ _ _ _ _ _ fuel _ _ _ _) as [[[tr' Bf'] Sf']|] eqn:E';
      [|discriminate].
    injection E as <- <- <-.
    rewrite (IH _ _ _ _ _ _ _ E').
    + unfold next_batch. apply lookup_put_rows_notin. apply Hr. apply list_elem_of_here.
    + intros act' Hin. apply Hr. now apply list_elem_of_further.
Qed.

End LoopExit.

Section BatchRuns.

Context {C : Classifier} {R : Runtime} {COk : ClassifierOk C} {ROk : RuntimeOk R}.

(** A run of [attack_batch] that returns, with the rows its loop ends on. *)
Lemma attack_batch_run dims clip_min clip_max x_adv preds targets batch_id fuel
    w N F passes w' :
  wf_view w x_adv -> has_shape N F (view w x_adv) ->
  nb_features (obj w) = F ->
  product dims = product (Numpy.dims x_adv) ->
  length preds = N ->
  attack_batch fuel dims clip_min clip_max x_adv preds targets batch_id w = Ok passes w' ->
  let batch := batch_of x_adv (batch_size (obj w)) batch_id in
  exists Bf,
    batch_post x_adv batch_id w w' Bf /\
    has_shape (len batch) F Bf /\
    moved (theta (obj w)) clip_min clip_max (view w batch) Bf /\
    (forall r, (forall act, act ∈ passes -> r ∉ act) -> Bf !! r = view w batch !! r).
Proof.
  intros Hwf HX HF Hdims Hpreds E batch.
  pose proof (batch_shape w N F x_adv (batch_size (obj w)) batch_id Hwf HX) as HB0.
  fold batch in HB0.
  destruct (le_lt_dec 2 F) as [HF2|HF2].
  - pose proof (attack_batch_eq dims clip_min clip_max x_adv preds targets batch_id
                  fuel w N F Hwf HX HF HF2 Hdims Hpreds) as H.
    cbv zeta in H. fold batch in H.
    set (B0 := view w batch) in *.
    assert (HN : len x_adv = N).
    { rewrite <- (has_shape_length _ _ _ HX). symmetry. now apply length_view. }
    pose proof (first_active_in_range x_adv preds targets (batch_size (obj w)) batch_id
                  ltac:(congruence)) as Hact.
    fold batch in Hact.
    assert (HA : length (map (map (fun _ : Q => 0)) B0) = len batch).
    { rewrite length_map. exact (has_shape_length _ _ _ HB0). }
    destruct (loop_view _ _ _ _ _ _ fuel B0 _ _ _) as [[[tr Bf] Sf]|] eqn:EL.
    + destruct H as (w1 & E1 & Post). rewrite E1 in E. injection E as <- <-.
      destruct (loop_view_moved (theta (obj w)) (gamma (obj w)) F clip_min clip_max
                  _ (len batch) _ HA fuel B0 _ tr Bf Sf HB0 Hact (NoDup_np_where _) EL)
        as (Hm & _ & HBf).
      exists Bf. split; [assumption|]. split; [assumption|]. split; [assumption|].
      intros r Hr. eapply loop_view_untouched; eauto.
    + rewrite H in E. discriminate.
  - exists (view w batch). split.
    + eapply attack_batch_small; eauto.
    + split; [assumption|]. split; [apply moved_refl|]. reflexivity.
Qed.

Lemma lookup_splice_out (X : matrix) o n new i :
  (o + n <= length X)%nat -> length new = n ->
  (i < o \/ o + n <= i)%nat ->
  splice X o n new !! i = X !! i.
Proof.
  intros HX Hn Hi. unfold splice. destruct Hi as [Hi|Hi].
  - rewrite lookup_app_l by (rewrite length_take; lia).
    now apply lookup_take_lt.
  - rewrite lookup_app_r by (rewrite length_take; lia).
    rewrite lookup_app_r by (rewrite length_take; lia).
    rewrite lookup_drop, length_take. f_equal. lia.
Qed.

Lemma iter_up th clip_min clip_max k v :
  0 < th -> v <= clip_max ->
  v <= Nat.iter k (clip_step th clip_min clip_max) v <= clip_max.
Proof.
  intros Hth Hv. induction k as [|k IH]; [split; [apply Qle_refl|assumption]|].
  rewrite Nat.iter_succ. set (u := Nat.iter k _ v) in *.
  unfold clip_step, clip_func, clip_value.
  assert (E : gtb th 0 = true) by now apply gtb_true_lt.
  rewrite E. destruct IH as [Hlo Hhi]. split; [|apply Q.le_min_l].
  apply Q.min_glb; [assumption|].
  apply Qle_trans with u; [assumption|].
  apply float_add_up. now apply Qlt_le_weak.
Qed.

Lemma iter_down th clip_min clip_max k v :
  th <= 0 -> clip_min <= v ->
  clip_min <= Nat.iter k (clip_step th clip_min clip_max) v <= v.
Proof.
  intros Hth Hv. induction k as [|k IH]; [split; [assumption|apply Qle_refl]|].
  rewrite Nat.iter_succ. set (u := Nat.iter k _ v) in *.
  unfold clip_step, clip_func, clip_value.
  assert (E : gtb th 0 = false) by now apply gtb_false_le.
  rewrite E. destruct IH as [Hlo Hhi]. split; [apply Q.le_max_l|].
  apply Q.max_lub; [assumption|].
  apply Qle_trans with u; [|assumption].
  now apply float_add_down.
Qed.

(** X3. With one target per sample, a batch changes nothing but the rows of the samples that were
    active in some pass: the other rows of the batch, the rows of [x_adv]
    outside the batch, and every other buffer that existed hold what they
    held. *)
Theorem X3_only_active_samples_change (dims : list nat) (clip_min clip_max : Q)
    (x_adv : arr) (preds targets : list nat) (batch_id fuel : nat) (w w' : world)
    (N F : nat) (passes : list (list nat)) :
  wf_view w x_adv -> has_shape N F (view w x_adv) ->
  nb_features (obj w) = F ->
  product dims = product (Numpy.dims x_adv) ->
  length preds = N -> length targets = N ->
  attack_batch fuel dims clip_min clip_max x_adv preds targets batch_id w = Ok passes w' ->
  let batch := batch_of x_adv (batch_size (obj w)) batch_id in
  (forall r, (forall act, act ∈ passes -> r ∉ act) ->
     view w' batch !! r = view w batch !! r) /\
  (forall i, (i < off batch \/ off batch + len batch <= i)%nat ->
     buffer w' (buf x_adv) !! i = buffer w (buf x_adv) !! i) /\
  (forall b, (b < mlen w)%nat -> b <> buf x_adv -> buffer w' b = buffer w b).
Proof.
  intros Hwf HX HF Hdims Hpreds Htargets E batch.
  destruct (attack_batch_run dims clip_min clip_max x_adv preds targets batch_id fuel
              w N F passes w' Hwf HX HF Hdims Hpreds E)
    as (Bf & [Pv _ _ _ Pfr Pbuf] & HBf & _ & Hun).
  fold batch in Pv, Pbuf, HBf, Hun.
  split; [|split].
  - intros r Hr. rewrite Pv. now apply Hun.
  - intros i Hi. rewrite Pbuf. apply lookup_splice_out; [| |assumption].
    + pose proof (wf_view_slice w x_adv (Z.to_nat (Z.of_nat batch_id * batch_size (obj w)))
                    (Z.to_nat ((Z.of_nat batch_id + 1) * batch_size (obj w))) Hwf)
        as [_ H2].
      exact H2.
    + exact (has_shape_length _ _ _ HBf).
  - exact Pfr.
Qed.

End BatchRuns.

Section LoopProperties.

Context {C : Classifier} {R : Runtime} {COk : ClassifierOk C} {ROk : RuntimeOk R}.

(** X2. When the loop ends after at least one pass, no sample meets the
    three conditions of line 120 on the arrays the loop leaves: its
    prediction on the final batch is its target, or the share of its
    used-feature mask exceeds [gamma], or its search space sums to 0. *)
Theorem X2_loop_exit_condition (dims : list nat) (clip_min clip_max : Q)
    (batch search_space all_feat : arr) (target active_indices : list nat)
    (fuel : nat) (w w' : world) (n F : nat) (passes : list (list nat)) :
  loop_inv dims batch search_space all_feat w n F ->
  length target = n ->
  in_range n active_indices = true ->
  batch_loop fuel dims clip_min clip_max batch search_space all_feat target
             active_indices w = Ok passes w' ->
  passes <> [] ->
  forall r p t a s,
    argmax_axis1 (predict (view w' batch)) !! r = Some p ->
    target !! r = Some t ->
    sum_axis1 (view w' all_feat) !! r = Some a ->
    sum_axis1 (view w' search_space) !! r = Some s ->
    p = t \/ gamma (obj w') < a / inject_Z (Z.of_nat F) \/ s <= 0.
Proof.
  intros Inv Htarget Hact E Hne r p t a s Hp Ht Ha Hs.
  destruct (le_lt_dec 2 F) as [HF|HF]; cycle 1.
  { destruct (batch_loop_small dims clip_min clip_max batch search_space all_feat
                target fuel w n F active_indices passes w' Inv HF Hact E)
      as (_ & -> & _). contradiction. }
  pose proof (batch_loop_eq dims clip_min clip_max batch search_space all_feat
                target fuel w n F active_indices Inv HF Hact) as H.
  destruct (loop_view _ _ _ _ _ _ fuel _ _ _ _) as [[[tr Bf] Sf]|] eqn:EL;
    [|rewrite H in E; discriminate].
  destruct H as (w1 & E1 & P1 & _). rewrite E1 in E. injection E as <- <-.
  destruct P1 as [Pb Ps Pf Pobj _ _ _ _ _].
  pose proof (loop_view_exit _ _ _ _ _ _ fuel _ _ _ _ _ _ _ EL Hne) as Hexit.
  rewrite <- Pb, <- Ps, <- Pf, <- Pobj in Hexit.
  assert (Hnot : and3 (ne_mask (argmax_axis1 (predict (view w1 batch))) target)
                   (map (fun s => leb (s / inject_Z (Z.of_nat F)) (gamma (obj w1)))
                        (sum_axis1 (view w1 all_feat)))
                   (map (fun s => gtb s 0) (sum_axis1 (view w1 search_space))) !! r
                 <> Some true).
  { intros Hr. apply elem_of_np_where in Hr. unfold next_active in Hexit.
    rewrite Hexit in Hr. inversion Hr. }
  unfold and3, ne_mask in Hnot. rewrite !lookup_zip_with in Hnot.
  change (map ?f ?l) with (f <$> l) in Hnot. rewrite !list_lookup_fmap in Hnot.
  change (sum_axis1 ?l) with (map Qsum l) in Ha, Hs.
  change (map ?f ?l) with (f <$> l) in Ha, Hs.
  rewrite Hp, Ht in Hnot. simpl in Hnot.
  unfold sum_axis1 in Hnot. change (map ?f ?l) with (f <$> l) in Hnot.
  rewrite Ha, Hs in Hnot. simpl in Hnot.
  destruct (Nat.eqb_spec p t) as [|Hpt]; [now left|right].
  destruct (leb (a / inject_Z (Z.of_nat F)) (gamma (obj w1))) eqn:El; cycle 1.
  { left. apply Qnot_le_lt. intros Hle. apply leb_le in Hle. congruence. }
  right. destruct (gtb s 0) eqn:Eg; [simpl in Hnot; congruence|].
  now apply gtb_false_le.
Qed.

(** X10. The loop keeps the search space equal to the mask of the values
    that can still move: when it is that mask as the loop starts, which is
    what lines 78 to 82 assign, it is that mask as the loop ends.  An entry
    is 1 where the value is below [clip_max] when [theta > 0], above
    [clip_min] otherwise, and 0 elsewhere. *)
Theorem X10_search_space_is_eligibility_mask (dims : list nat) (clip_min clip_max : Q)
    (batch search_space all_feat : arr) (target active_indices : list nat)
    (fuel : nat) (w w' : world) (n F : nat) (passes : list (list nat)) :
  loop_inv dims batch search_space all_feat w n F ->
  length target = n ->
  in_range n active_indices = true -> NoDup active_indices ->
  view w search_space = space_of (theta (obj w)) clip_min clip_max (view w batch) ->
  batch_loop fuel dims clip_min clip_max batch search_space all_feat target
             active_indices w = Ok passes w' ->
  view w' search_space = space_of (theta (obj w)) clip_min clip_max (view w' batch) /\
  forall r row f v, view w' batch !! r = Some row -> row !! f = Some v ->
    exists srow,
      view w' search_space !! r = Some srow /\
      srow !! f = Some (if (if gtb (theta (obj w)) 0 then ltb v clip_max
                            else gtb v clip_min)
                        then 1 else 0).
Proof.
  intros Inv Htarget Hact Hnd HS E.
  assert (Heq : view w' search_space
                = space_of (theta (obj w)) clip_min clip_max (view w' batch)).
  { destruct (le_lt_dec 2 F) as [HF|HF]; cycle 1.
    { destruct (batch_loop_small dims clip_min clip_max batch search_space all_feat
                  target fuel w n F active_indices passes w' Inv HF Hact E)
        as (_ & _ & ->). assumption. }
    pose proof (batch_loop_eq dims clip_min clip_max batch search_space all_feat
                  target fuel w n F active_indices Inv HF Hact) as H.
    rewrite HS in H.
    destruct (loop_view _ _ _ _ _ _ fuel _ _ _ _) as [[[tr Bf] Sf]|] eqn:EL;
      [|rewrite H in E; discriminate].
    destruct H as (w1 & E1 & P1 & _). rewrite E1 in E. injection E as <- <-.
    destruct P1 as [Pb Ps _ _ _ _ _ _ _].
    destruct Inv as [_ _ _ _ _ _ _ _ HB _ HA].
    destruct (loop_view_moved (theta (obj w)) (gamma (obj w)) F clip_min clip_max
                target n (view w all_feat) (has_shape_length _ _ _ HA) fuel
                (view w batch) active_indices tr Bf Sf HB Hact Hnd EL)
      as (_ & -> & _).
    now rewrite Ps, Pb. }
  split; [assumption|].
  intros r row f v Hr Hf. rewrite Heq. unfold space_of.
  change (map ?g ?l) with (g <$> l). rewrite list_lookup_fmap, Hr. simpl.
  eexists. split; [reflexivity|].
  change (map ?g ?l) with (g <$> l). rewrite list_lookup_fmap, Hf. reflexivity.
Qed.

End LoopProperties.

(** ** The calls to the classifier *)

Section CallCount.

Context {C : Classifier} {R : Runtime} {COk : ClassifierOk C} {ROk : RuntimeOk R}.

(** Every pass asks the classifier for one gradient and one prediction. *)
Lemma batch_loop_calls dims clip_min clip_max batch ss af target fuel :
  forall w n F act tr w',
  loop_inv dims batch ss af w n F -> (2 <= F)%nat -> in_range n act = true ->
  batch_loop fuel dims clip_min clip_max batch ss af target act w = Ok tr w' ->
  exists evs,
    calls w' = calls w ++ evs /\
    length evs = (2 * length tr)%nat /\
    length (filter is_gradient evs) = length tr.
Proof.
  induction fuel as [|fuel IH]; intros w n F act tr w' Inv HF Hact E.
  - destruct act; [|discriminate]. injection E as <- <-.
    exists []. now rewrite app_nil_r.
  - destruct act as [|a act].
    { injection E as <- <-. exists []. now rewrite app_nil_r. }
    cbn [batch_loop] in E.
    destruct (loop_body_eq dims clip_min clip_max batch ss af target w n F (a :: act)
                Inv HF Hact) as (w1 & E1 & P1 & Inv1).
    rewrite (bind_ok _ _ _ _ _ E1) in E.
    unfold bind at 1 in E.
    destruct (batch_loop fuel _ _ _ _ _ _ _ _ w1) as [tr1 w2| |] eqn:E2;
      try discriminate.
    unfold ret in E. injection E as <- <-.
    assert (HA : length (view w af) = n).
    { destruct Inv. eapply has_shape_length; eauto. }
    destruct (IH w1 n F _ tr1 w2 Inv1 HF (in_range_next_active _ _ _ _ _ _ n HA) E2)
      as (evs & H1 & H2 & H3).
    destruct P1 as [_ _ _ _ _ _ _ _ Pcalls _ _ _].
    eexists (_ :: _ :: evs). rewrite H1, Pcalls, <- app_assoc. simpl.
    split; [reflexivity|]. split; [lia|].
    rewrite !filter_cons. simpl. rewrite H3. reflexivity.
Qed.

(** The calls of a batch follow those made before: two per pass, one of
    them a gradient. *)
Lemma attack_batch_calls dims clip_min clip_max x_adv preds targets batch_id fuel
    w w' N F passes :
  wf_view w x_adv -> has_shape N F (view w x_adv) ->
  nb_features (obj w) = F ->
  product dims = product (Numpy.dims x_adv) ->
  length preds = N ->
  attack_batch fuel dims clip_min clip_max x_adv preds targets batch_id w = Ok passes w' ->
  exists evs,
    calls w' = calls w ++ evs /\
    length evs = (2 * length passes)%nat /\
    length (filter is_gradient evs) = length passes.
Proof.
  intros Hwf HX HF Hdims Hpreds E.
  assert (HN : len x_adv = N).
  { rewrite <- (has_shape_length _ _ _ HX). symmetry. now apply length_view. }
  destruct (attack_batch_prefix dims clip_min clip_max x_adv preds targets batch_id
              fuel w N F Hwf HX HF Hdims)
    as (ss & af & w3 & E3 & Inv & _ & _ & _ & _ & _ & Hcalls & _).
  rewrite E3 in E. clear E3.
  set (batch := batch_of x_adv (batch_size (obj w)) batch_id) in *.
  pose proof (first_active_in_range x_adv preds targets (batch_size (obj w)) batch_id
                ltac:(congruence)) as Hact.
  fold batch in Hact.
  unfold bind at 1 in E.
  destruct (batch_loop _ _ _ _ _ _ _ _ _ w3) as [tr w4| |] eqn:EL; try discriminate.
  unfold setitem_all, bind, load, store, ret in E. injection E as <- <-.
  change (calls (store_world w4 batch (view w4 batch))) with (calls w4).
  rewrite <- Hcalls.
  destruct (le_lt_dec 2 F) as [HF2|HF2].
  - exact (batch_loop_calls dims clip_min clip_max batch ss af _ fuel w3
             (len batch) F _ tr w4 Inv HF2 Hact EL).
  - destruct (batch_loop_small dims clip_min clip_max batch ss af _ fuel w3
                (len batch) F _ tr w4 Inv HF2 Hact EL) as (_ & -> & ->).
    exists []. now rewrite app_nil_r.
Qed.

Lemma passes_run_app w w' evs :
  calls w' = calls w ++ evs ->
  passes_run w' = (passes_run w + length (filter is_gradient evs))%nat.
Proof. intros H. unfold passes_run. now rewrite H, filter_app, length_app. Qed.

(** X8. A batch asks the classifier for exactly one gradient and one
    prediction per pass of its loop, and for nothing else: the calls made
    before the batch are followed by two calls per pass, one of them a
    gradient. *)
Theorem X8_two_classifier_calls_per_pass (dims : list nat) (clip_min clip_max : Q)
    (x_adv : arr) (preds targets : list nat) (batch_id fuel : nat) (w w' : world)
    (N F : nat) (passes : list (list nat)) :
  wf_view w x_adv -> has_shape N F (view w x_adv) ->
  nb_features (obj w) = F ->
  product dims = product (Numpy.dims x_adv) ->
  length preds = N -> length targets = N ->
  attack_batch fuel dims clip_min clip_max x_adv preds targets batch_id w = Ok passes w' ->
  passes_run w' = (passes_run w + length passes)%nat /\
  length (calls w') = (length (calls w) + 2 * length passes)%nat /\
  take (length (calls w)) (calls w') = calls w.
Proof.
  intros Hwf HX HF Hdims Hpreds Htargets E.
  destruct (attack_batch_calls dims clip_min clip_max x_adv preds targets batch_id fuel
              w w' N F passes Hwf HX HF Hdims Hpreds E) as (evs & H1 & H2 & H3).
  split; [rewrite (passes_run_app w w' evs H1); lia|].
  rewrite H1. split; [rewrite length_app; lia|].
  now rewrite take_app_length.
Qed.

End CallCount.

(** ** A saturated sample (C3) *)

Section SaturatedSample.

Context {C : Classifier} {R : Runtime} {COk : ClassifierOk C} {ROk : RuntimeOk R}.

(** A loop that starts with an active sample makes a first pass, and the
    first thing the pass does is ask for the gradient at the active rows. *)
Lemma batch_loop_first_pass dims clip_min clip_max batch ss af target fuel
    w n F act tr w' :
  loop_inv dims batch ss af w n F -> (2 <= F)%nat -> in_range n act = true ->
  act <> [] ->
  batch_loop fuel dims clip_min clip_max batch ss af target act w = Ok tr w' ->
  exists rest evs,
    tr = act :: rest /\
    calls w' =
      calls w ++ ClassGradient (rows_at (view w batch) act) (targets_at target act)
              :: evs.
Proof.
  intros Inv HF Hact Hne E.
  destruct act as [|a act]; [contradiction|].
  destruct fuel as [|fuel]; [discriminate|].
  cbn [batch_loop] in E.
  destruct (loop_body_eq dims clip_min clip_max batch ss af target w n F (a :: act)
              Inv HF Hact) as (w1 & E1 & P1 & Inv1).
  rewrite (bind_ok _ _ _ _ _ E1) in E.
  unfold bind at 1 in E.
  destruct (batch_loop fuel _ _ _ _ _ _ _ _ w1) as [tr1 w2| |] eqn:E2;
    try discriminate.
  unfold ret in E. injection E as <- <-.
  assert (HA : length (view w af) = n).
  { destruct Inv. eapply has_shape_length; eauto. }
  destruct (batch_loop_calls dims clip_min clip_max batch ss af target fuel w1 n F _
              tr1 w2 Inv1 HF (in_range_next_active _ _ _ _ _ _ n HA) E2)
    as (evs & H1 & _).
  destruct P1 as [_ _ _ _ _ _ _ _ Pcalls _ _ _].
  exists tr1, (Predict (view w1 batch) :: evs).
  split; [reflexivity|].
  rewrite H1, Pcalls, <- app_assoc. reflexivity.
Qed.

(** C3 as amended.  A sample whose values all equal [clip_max], with
    [theta > 0], is in the first active set exactly when its prediction
    differs from its target.  When it is, the loop body runs for it: the
    first pass is made on the first active set, and it starts by asking the
    classifier for the gradient at the rows of that set, the row of the
    sample among them.  The sample is active in no later pass; when it is
    not in the first active set it is active in no pass at all.  [batch]
    holds [clip_max] at every feature of it when the loop has ended, and
    the loop ends without an error.  The batch has one prediction and one
    target per sample, the batch size is positive, and the values are such
    that no sum is rounded. *)
Theorem C3_saturated_sample_first_pass_only (dims : list nat) (clip_min clip_max : Q)
    (x_adv : arr) (preds targets : list nat) (batch_id fuel : nat) (w : world)
    (N F r e : nat) (row : list Q) :
  wf_view w x_adv -> has_shape N F (view w x_adv) ->
  nb_features (obj w) = F -> (2 <= F)%nat ->
  product dims = product (Numpy.dims x_adv) ->
  length preds = N -> length targets = N ->
  (0 < batch_size (obj w))%Z ->
  0 < theta (obj w) ->
  let bs := batch_size (obj w) in
  let batch := batch_of x_adv bs batch_id in
  let first := first_active preds targets bs batch_id in
  addition_exact e (theta (obj w)) clip_min clip_max (view w batch) = true ->
  view w batch !! r = Some row ->
  Forall (fun v => v == clip_max) row ->
  (S (batch_steps (theta (obj w)) clip_min clip_max (view w batch)) <= fuel)%nat ->
  exists passes w',
    attack_batch fuel dims clip_min clip_max x_adv preds targets batch_id w
      = Ok passes w' /\
    (r ∈ first <->
     exists p t,
       slice_list preds (Z.to_nat (Z.of_nat batch_id * bs))
                  (Z.to_nat ((Z.of_nat batch_id + 1) * bs)) !! r = Some p /\
       batch_target targets bs batch_id !! r = Some t /\ p <> t) /\
    (r ∈ first ->
     exists rest evs,
       passes = first :: rest /\
       (forall act, act ∈ rest -> r ∉ act) /\
       calls w' =
         calls w ++ ClassGradient (rows_at (view w batch) first)
                                  (targets_at (batch_target targets bs batch_id) first)
                 :: evs /\
       row ∈ rows_at (view w batch) first) /\
    (r ∉ first -> forall act, act ∈ passes -> r ∉ act) /\
    (forall i act, passes !! i = Some act -> r ∈ act -> i = 0%nat) /\
    (active_count r passes <= 1)%nat /\
    exists row',
      view w' batch !! r = Some row' /\ length row' = F /\
      Forall (fun v => v == clip_max) row'.
Proof.
  intros Hwf HX HF HF2 Hdims Hpreds Htargets _ Hth bs batch first Hex Hrow Hsat Hfuel.
  destruct (addition_exact_on _ _ _ _ _ Hex) as [HG HGB].
  set (G := fun v => on_grid e v = true) in *.
  set (B0 := view w batch) in *.
  assert (Hth0 : ~ theta (obj w) == 0).
  { intros E. rewrite E in Hth. exact (Qlt_irrefl 0 Hth). }
  assert (HN : len x_adv = N).
  { rewrite <- (has_shape_length _ _ _ HX). symmetry. now apply length_view. }
  pose proof (batch_shape w N F x_adv bs batch_id Hwf HX) as HB0.
  fold batch in HB0. fold B0 in HB0.
  pose proof (first_active_in_range x_adv preds targets bs batch_id
                ltac:(congruence)) as Hact.
  fold batch first in Hact.
  set (n := len batch) in *.
  assert (HA : length (map (map (fun _ : Q => 0)) B0) = n).
  { rewrite length_map. exact (has_shape_length _ _ _ HB0). }
  destruct (loop_view_total (theta (obj w)) (gamma (obj w)) F clip_min clip_max
              (batch_target targets bs batch_id) n _ HA Hth0 HF2 G HG fuel B0
              first HB0 Hact (NoDup_np_where _) HGB Hfuel)
    as (tr & Bf & E & HBf & _ & _).
  pose proof (attack_batch_eq dims clip_min clip_max x_adv preds targets batch_id
                fuel w N F Hwf HX HF HF2 Hdims Hpreds) as H.
  cbv zeta in H. fold bs batch B0 first in H. rewrite E in H.
  destruct H as (w' & Ew & Post).
  destruct (loop_view_moved (theta (obj w)) (gamma (obj w)) F clip_min clip_max
              (batch_target targets bs batch_id) n _ HA fuel B0 _ tr Bf _
              HB0 Hact (NoDup_np_where _) E) as (Hmoved & _ & _).
  pose proof (saturated_not_eligible (theta (obj w)) clip_min clip_max B0 r row
                Hth Hrow Hsat) as Hne.
  pose proof (trace_saturated (theta (obj w)) (gamma (obj w)) F clip_min clip_max
                (batch_target targets bs batch_id) n _ HA fuel B0 _ tr Bf _ r
                HB0 Hact (NoDup_np_where _) E Hne) as Htr.
  exists tr, w'. split; [exact Ew|].
  split; [apply elem_of_first_active|].
  split; [|split; [|split; [|split]]].
  - intros Hin.
    destruct (attack_batch_prefix dims clip_min clip_max x_adv preds targets batch_id
                fuel w N F Hwf HX HF Hdims)
      as (ss & af & w3 & E3 & Inv & Vb & _ & _ & _ & _ & Hcalls & _).
    fold bs batch first in E3, Inv, Vb. rewrite E3 in Ew.
    unfold bind at 1 in Ew.
    destruct (batch_loop _ _ _ _ _ _ _ _ _ w3) as [tr0 w4| |] eqn:EL; try discriminate.
    unfold setitem_all, bind, load, store, ret in Ew. injection Ew as -> <-.
    destruct (batch_loop_first_pass dims clip_min clip_max batch ss af
                (batch_target targets bs batch_id) fuel w3
                n F first tr w4 Inv HF2 Hact) as (rest & evs & -> & Hc); [|exact EL|].
    { intros Hnil. rewrite Hnil in Hin. inversion Hin. }
    exists rest, evs. split; [reflexivity|].
    split.
    { destruct Htr as [Hnil|(tr' & Heq & Hrest)]; [discriminate|].
      injection Heq as <-. exact Hrest. }
    split.
    { change (calls (store_world w4 batch (view w4 batch))) with (calls w4).
      rewrite Hc, Hcalls, Vb. reflexivity. }
    unfold rows_at. apply list_elem_of_fmap. exists r.
    split; [|exact Hin]. fold B0. now rewrite Hrow.
  - intros Hnin act Hin.
    destruct Htr as [->|(tr' & -> & Hrest)]; [inversion Hin|].
    apply elem_of_cons in Hin as [->|Hin]; [exact Hnin|now apply Hrest].
  - intros i act Hi Hin. destruct Htr as [->|(tr' & -> & Hrest)]; [discriminate|].
    destruct i as [|i]; [reflexivity|]. simpl in Hi. exfalso.
    apply (Hrest act); [|assumption]. eapply list_elem_of_lookup_2; eauto.
  - destruct Htr as [->|(tr' & -> & Hrest)]; [unfold active_count; simpl; lia|].
    unfold active_count. rewrite filter_cons.
    assert (Hnil : filter (fun act => r ∈ act) tr' = []).
    { clear -Hrest. induction tr' as [|a tr' IH]; [reflexivity|].
      rewrite filter_cons. destruct (decide (r ∈ a)) as [Hin|_].
      - exfalso. apply (Hrest a); [apply list_elem_of_here|exact Hin].
      - apply IH. intros act' H. apply Hrest. now apply list_elem_of_further. }
    rewrite Hnil. case_decide; simpl; lia.
  - destruct Post as [Pv _ _ _ _ _]. fold bs batch in Pv. rewrite Pv.
    destruct Hmoved as [_ Hm]. destruct (Hm r row Hrow) as (row' & Hr' & Hf).
    exists row'. split; [assumption|].
    split; [exact (has_shape_lookup _ _ _ _ _ HBf Hr')|].
    apply Forall_lookup. intros f v' Hv'.
    destruct (Hf f) as (j & Hj). rewrite Hv' in Hj.
    destruct (row !! f) as [v|] eqn:Hv; [|discriminate].
    simpl in Hj. injection Hj as ->.
    apply iter_saturated; [assumption|].
    rewrite Forall_lookup in Hsat. exact (Hsat f v Hv).
Qed.

End SaturatedSample.

(** C3 on the saturated sample [1, 1], whose prediction 0 is not its target
    1: one pass, which starts with the gradient at the sample, and the
    sample is still at [clip_max]. *)
Lemma C3_saturated_sample_witness :
  exists passes w',
    @attack_batch (Demo.stubborn (0, 1)) Demo.runtime 20 [2%nat] 0 1 Runs.sample
                  [0%nat] [1%nat] 0 Runs.saturated = Ok passes w' /\
    (exists rest evs,
       passes = [0%nat] :: rest /\
       calls w' = ClassGradient [[1; 1]] [1%nat] :: evs) /\
    (active_count 0 passes <= 1)%nat /\
    exists row', view w' Runs.sample !! 0%nat = Some row' /\
                 Forall (fun v => v == 1) row'.
Proof.
  destruct (C3_saturated_sample_first_pass_only (C := Demo.stubborn (0, 1))
              (R := Demo.runtime) [2%nat] 0 1 Runs.sample [0%nat] [1%nat] 0 20
              Runs.saturated 1 2 0 2 [1; 1])
    as (passes & w' & E & _ & Hfirst & _ & _ & Hc & row' & Hr & _ & Hs).
  - view_by_eval.
  - shape_by_eval.
  - reflexivity.
  - lia.
  - reflexivity.
  - reflexivity.
  - reflexivity.
  - reflexivity.
  - reflexivity.
  - reflexivity.
  - reflexivity.
  - repeat constructor.
  - vm_compute. lia.
  - exists passes, w'. split; [exact E|].
    destruct Hfirst as (rest & evs & Hp & _ & Hcalls & _).
    { vm_compute. apply list_elem_of_here. }
    split; [exists rest, evs; split; [exact Hp|exact Hcalls]|].
    split; [exact Hc|].
    exists row'. split; [exact Hr|exact Hs].
Defined.

(** ** Steps left in a batch *)

Section StepSums.

Context {R : Runtime} {ROk : RuntimeOk R}.
Variables (th clip_min clip_max : Q).
Variable G : Q -> Prop.
Hypothesis G_exact : exact_on th clip_min clip_max G.

Local Abbreviation cstep := (clip_step th clip_min clip_max).
Local Abbreviation sleft := (steps_left th clip_min clip_max).
Local Abbreviation rsteps := (row_steps th clip_min clip_max).
Local Abbreviation bsteps := (batch_steps th clip_min clip_max).








End StepSums.

(** ** [generate] around its batches *)

Section GenerateRuns.

Context {C : Classifier} {R : Runtime} {COk : ClassifierOk C} {ROk : RuntimeOk R}.

Lemma Forall_True (X : matrix) : Forall (Forall (fun _ : Q => True)) X.
Proof.
  induction X as [|row rows IH]; constructor; [|assumption].
  induction row; constructor; auto.
Qed.

(** [generate] with targets given, up to its loop over the batches: the
    parameters are saved, the input is copied into a new buffer and the
    classifier is asked for the predictions of [x]. *)
Lemma generate_prefix fuel x kw w N F y :
  wf_view w x -> has_shape N F (view w x) ->
  product (dims x) = F -> F <> 0%nat -> dims x <> [] ->
  kw_y kw = Some y ->
  let o1 := Attack_set_params kw (obj w) in
  valid_params o1 = true ->
  let o2 := mkAttack (theta o1) (gamma o1) (batch_size o1) F in
  let w5 := with_call (alloc_world (with_obj w o2) (view w x)) (Predict (view w x)) in
  let x_adv := mkArr (mlen w) 0 N [F] in
  let preds := argmax_axis1 (predict (view w x)) in
  generate fuel x kw w =
    bind (for_each (seq 0 (nb_batches N (batch_size o1)))
            (fun batch_id =>
               do _ <- attack_batch fuel (dims x) clip_values.1 clip_values.2 x_adv
                                    preds (argmax_axis1 y) batch_id ;
               ret tt))
         (fun _ =>
            do x_adv' <- np_reshape x_adv (dims x) ;
            do _ <- classifier_predict x ;
            do _ <- classifier_predict x_adv' ;
            ret x_adv') w5 /\
  gen_inv (mlen w) N F o2 w (fun _ => True) w5 /\
  calls w5 = calls w ++ [Predict (view w x)] /\
  buffer w5 (mlen w) = view w x.
Proof.
  intros Hwf HX HF HF0 Hd Hy o1 Hv o2 w5 x_adv preds.
  assert (HN : length (view w x) = N) by (eapply has_shape_length; eauto).
  assert (Hlen : len x = N) by (rewrite <- HN; symmetry; now apply length_view).
  split; [|split; [|split]].
  - unfold generate.
    unfold bind at 1. rewrite set_params_eq. cbv zeta. fold o1.
    change (obj (with_obj w o1)) with o1. rewrite Hv.
    destruct clip_values as [clip_min clip_max] eqn:Hclip. cbn [fst snd].
    erewrite bind_ok by reflexivity.
    erewrite bind_ok by reflexivity.
    erewrite bind_ok by reflexivity.
    simpl obj. simpl nb_features. simpl batch_size. rewrite HF. fold o2.
    unfold np_copy.
    erewrite bind_ok by reflexivity.
    rewrite (decide_False (P := dims x = [])) by assumption.
    unfold np_reshape_flat at 1. simpl dims.
    rewrite decide_False by (intros [?|?]; congruence).
    erewrite bind_ok by reflexivity.
    erewrite bind_ok by apply classifier_predict_eq.
    unfold resolve_targets. rewrite Hy.
    erewrite bind_ok by reflexivity.
    change (view (with_obj (with_obj w o1) o2) x) with (view w x).
    rewrite HN.
    change (length (mem (with_obj (with_obj w o1) o2))) with (mlen w).
    change (view (alloc_world (with_obj (with_obj w o1) o2) (view w x)) x)
      with (view (alloc_world w (view w x)) x).
    rewrite view_alloc_old by (destruct Hwf; assumption).
    reflexivity.
  - split.
    + change (mlen w5) with (mlen (alloc_world w (view w x))). rewrite mlen_alloc. lia.
    + change (buffer w5 (mlen w)) with (buffer (alloc_world w (view w x)) (mlen w)).
      rewrite buffer_alloc_new. exact HX.
    + reflexivity.
    + intros b Hb. change (buffer w5 b) with (buffer (alloc_world w (view w x)) b).
      now apply buffer_alloc_old.
    + apply Forall_True.
  - reflexivity.
  - change (buffer w5 (mlen w)) with (buffer (alloc_world w (view w x)) (mlen w)).
    apply buffer_alloc_new.
Qed.

(** The end of [generate], after the batches. *)
Lemma generate_suffix x w0 N F o (w6 : world) :
  wf_view w0 x -> product (dims x) = F ->
  gen_inv (mlen w0) N F o w0 (fun _ => True) w6 ->
  let a := mkArr (mlen w0) 0 N (dims x) in
  (do x_adv' <- np_reshape (mkArr (mlen w0) 0 N [F]) (dims x) ;
   do _ <- classifier_predict x ;
   do _ <- classifier_predict x_adv' ;
   ret x_adv') w6
  = Ok a (with_call (with_call w6 (Predict (view w0 x)))
                    (Predict (buffer w6 (mlen w0)))) /\
  view w6 a = buffer w6 (mlen w0).
Proof.
  intros Hwf HF [Gb Gs Go Gf _] a.
  assert (Hva : view w6 a = buffer w6 (mlen w0)).
  { unfold view, a. simpl. rewrite drop_0. apply take_ge.
    rewrite (has_shape_length _ _ _ Gs). lia. }
  assert (Hvx : view w6 x = view w0 x).
  { unfold view. rewrite Gf by (destruct Hwf; assumption). reflexivity. }
  split; [|assumption].
  erewrite bind_ok by (apply np_reshape_eq; simpl; lia).
  erewrite bind_ok by apply classifier_predict_eq.
  erewrite bind_ok by apply classifier_predict_eq.
  unfold ret. cbn [buf off len]. fold a.
  rewrite Hvx. change (view (with_call w6 (Predict (view w0 x))) a) with (view w6 a).
  now rewrite Hva.
Qed.

End GenerateRuns.

Section Potential.

Context {C : Classifier} {R : Runtime} {COk : ClassifierOk C} {ROk : RuntimeOk R}.
Variables (th ga : Q) (F : nat) (clip_min clip_max : Q) (target : list nat).
Variables (n : nat) (A : matrix).
Hypothesis A_rows : length A = n.
Hypothesis th_nonzero : ~ th == 0.
Hypothesis F_two : (2 <= F)%nat.
Variable G : Q -> Prop.
Hypothesis G_exact : exact_on th clip_min clip_max G.

Local Abbreviation bsteps := (batch_steps th clip_min clip_max).
Local Abbreviation ssteps := (sample_steps th clip_min clip_max).
Local Abbreviation nbatch := (next_batch th clip_min clip_max target).
Local Abbreviation nspace := (next_space th clip_min clip_max).
Local Abbreviation nactive := (next_active ga F target).
Local Abbreviation space := (space_of th clip_min clip_max).
Local Abbreviation lview := (loop_view th ga F clip_min clip_max target).
Local Abbreviation alive := (live th clip_min clip_max).



End Potential.

Section GenerateTotal.

Context {C : Classifier} {R : Runtime} {COk : ClassifierOk C} {ROk : RuntimeOk R}.





End GenerateTotal.

(** ** Edge cases *)

Section GenerateEdges.

Context {C : Classifier} {R : Runtime} {COk : ClassifierOk C} {ROk : RuntimeOk R}.





(** X9. [generate] leaves its parameters on the attack object: when it has
    returned, the attributes are those the keyword arguments were saved
    as, and [_nb_features] is the product of the trailing dimensions of
    [x]. *)
Theorem X9_generate_keeps_parameters (fuel : nat) (x : arr) (kw : kwargs)
    (w w' : world) (a : arr) (N : nat) :
  wf_view w x -> has_shape N (product (dims x)) (view w x) ->
  (forall y, kw_y kw = Some y -> length y = N) ->
  generate fuel x kw w = Ok a w' ->
  let saved := Attack_set_params kw (obj w) in
  theta (obj w') = theta saved /\ gamma (obj w') = gamma saved /\
  batch_size (obj w') = batch_size saved /\
  nb_features (obj w') = product (dims x) /\
  ~ refused saved.
Proof.
  intros Hwf HX Hy E saved.
  destruct (generate_post fuel x kw w a w' N (product (dims x)) (fun _ => True)
              Hwf HX eq_refl (fun _ _ => I) (Forall_True _) E)
    as (_ & _ & _ & Hobj & _).
  rewrite Hobj. simpl. repeat (split; [reflexivity|]).
  intros Href. apply valid_params_refused in Href.
  unfold generate in E. unfold bind at 1 in E. rewrite set_params_eq in E.
  cbv zeta in E. change (obj (with_obj w (Attack_set_params kw (obj w)))) with saved in E.
  rewrite Href in E. discriminate.
Qed.

(** X11. Samples without features: when a trailing dimension of [x] is 0,
    [generate] with accepted parameters raises [ValueError] where the copy
    is reshaped, before the classifier is asked anything. *)
Theorem X11_no_features_raises (fuel : nat) (x : arr) (kw : kwargs) (w : world) :
  product (dims x) = 0%nat ->
  ~ refused (Attack_set_params kw (obj w)) ->
  exists w',
    generate fuel x kw w = Raise ValueError w' /\
    calls w' = calls w /\
    nb_features (obj w') = 0%nat /\
    forall b, (b < mlen w)%nat -> buffer w' b = buffer w b.
Proof.
  intros HF Href.
  set (saved := Attack_set_params kw (obj w)) in *.
  assert (Hv : valid_params saved = true).
  { destruct (valid_params saved) eqn:E; [reflexivity|].
    apply valid_params_refused in E. contradiction. }
  unfold generate.
  unfold bind at 1. rewrite set_params_eq. cbv zeta. fold saved.
  change (obj (with_obj w saved)) with saved. rewrite Hv.
  destruct clip_values as [clip_min clip_max].
  erewrite bind_ok by reflexivity.
  erewrite bind_ok by reflexivity.
  erewrite bind_ok by reflexivity.
  unfold np_copy.
  erewrite bind_ok by reflexivity.
  rewrite (decide_False (P := dims x = []))
    by (intros Hd; rewrite Hd in HF; discriminate).
  unfold np_reshape_flat at 1. simpl nb_features. rewrite HF.
  rewrite decide_True by now left.
  eexists. split; [reflexivity|]. split; [reflexivity|]. split; [reflexivity|].
  intros b Hb.
  change (buffer (alloc_world ?w0 ?rows) b)
    with (buffer (alloc_world w rows) b).
  now apply buffer_alloc_old.
Qed.

(** X15. An input without trailing dimensions: for a one-dimensional [x],
    [np.product] of the empty shape is the float [1.0], and [generate] with
    accepted parameters raises [TypeError] where the copy is reshaped,
    before the classifier is asked anything and without a change to any
    buffer that existed. *)
Theorem X15_flat_input_raises (fuel : nat) (x : arr) (kw : kwargs) (w : world) :
  dims x = [] ->
  ~ refused (Attack_set_params kw (obj w)) ->
  exists w',
    generate fuel x kw w = Raise TypeError w' /\
    calls w' = calls w /\
    forall b, (b < mlen w)%nat -> buffer w' b = buffer w b.
Proof.
  intros Hd Href.
  set (saved := Attack_set_params kw (obj w)) in *.
  assert (Hv : valid_params saved = true).
  { destruct (valid_params saved) eqn:E; [reflexivity|].
    apply valid_params_refused in E. contradiction. }
  unfold generate.
  unfold bind at 1. rewrite set_params_eq. cbv zeta. fold saved.
  change (obj (with_obj w saved)) with saved. rewrite Hv.
  destruct clip_values as [clip_min clip_max].
  erewrite bind_ok by reflexivity.
  erewrite bind_ok by reflexivity.
  erewrite bind_ok by reflexivity.
  unfold np_copy.
  erewrite bind_ok by reflexivity.
  rewrite (decide_True (P := dims x = [])) by assumption.
  eexists. split; [reflexivity|]. split; [reflexivity|].
  intros b Hb.
  change (buffer (alloc_world ?w0 ?rows) b)
    with (buffer (alloc_world w rows) b).
  now apply buffer_alloc_old.
Qed.

(** X6. Samples of fewer than two features: a batch with a sample whose
    prediction is not its target raises [ValueError] in its first pass,
    where [np.argpartition] is asked for the last two of a row that has
    not two, and has written to no buffer that existed. *)
Theorem X6_single_feature_raises (dims : list nat) (clip_min clip_max : Q)
    (x_adv : arr) (preds targets : list nat) (batch_id fuel : nat) (w : world)
    (N F : nat) :
  wf_view w x_adv -> has_shape N F (view w x_adv) ->
  nb_features (obj w) = F -> (F < 2)%nat ->
  product dims = product (Numpy.dims x_adv) ->
  length preds = N -> length targets = N ->
  first_active preds targets (batch_size (obj w)) batch_id <> [] ->
  exists w',
    attack_batch (S fuel) dims clip_min clip_max x_adv preds targets batch_id w
      = Raise ValueError w' /\
    forall b, (b < mlen w)%nat -> buffer w' b = buffer w b.
Proof.
  intros Hwf HX HF HF2 Hdims Hpreds Htargets Hne.
  assert (HN : len x_adv = N).
  { rewrite <- (has_shape_length _ _ _ HX). symmetry. now apply length_view. }
  destruct (attack_batch_prefix dims clip_min clip_max x_adv preds targets batch_id
              (S fuel) w N F Hwf HX HF Hdims)
    as (ss & af & w3 & E3 & Inv & _ & _ & _ & _ & _ & _ & Hm & _ & Hfr).
  set (batch := batch_of x_adv (batch_size (obj w)) batch_id) in *.
  pose proof (first_active_in_range x_adv preds targets (batch_size (obj w)) batch_id
                ltac:(congruence)) as Hact.
  fold batch in Hact.
  destruct (first_active preds targets (batch_size (obj w)) batch_id) as [|a act] eqn:Ea;
    [contradiction|].
  destruct (loop_body_raise dims clip_min clip_max batch ss af
              (batch_target targets (batch_size (obj w)) batch_id) w3 (len batch) F
              (a :: act) Inv HF2 Hact) as (w4 & E4 & Hfr4).
  exists w4. split.
  - rewrite E3. apply bind_raise. cbn [batch_loop]. now apply bind_raise.
  - intros b Hb. rewrite Hfr4 by lia. now apply Hfr.
Qed.

End GenerateEdges.

Section EmptyInput.

Context {C : Classifier} {R : Runtime} {COk : ClassifierOk C} {ROk : RuntimeOk R}.



End EmptyInput.

(** ** The direction of the perturbation *)

Section GenerateDirection.

Context {C : Classifier} {R : Runtime} {COk : ClassifierOk C} {ROk : RuntimeOk R}.

Lemma lookup_splice_in (X : matrix) o n new i :
  (o + n <= length X)%nat -> length new = n -> (i < n)%nat ->
  splice X o n new !! (o + i)%nat = new !! i.
Proof.
  intros HX Hn Hi. unfold splice.
  rewrite lookup_app_r by (rewrite length_take; lia).
  rewrite length_take, Nat.min_l by lia.
  replace (o + i - o)%nat with i by lia.
  now rewrite lookup_app_l by lia.
Qed.

Lemma moved_splice th clip_min clip_max (X : matrix) o n Bf :
  (o + n <= length X)%nat ->
  moved th clip_min clip_max (take n (drop o X)) Bf ->
  moved th clip_min clip_max X (splice X o n Bf).
Proof.
  intros HX [Hlen Hrows].
  assert (Hn : length Bf = n) by (rewrite Hlen, length_take, length_drop; lia).
  split; [now apply length_splice|].
  intros r row Hr.
  destruct (decide (r < o \/ o + n <= r)%nat) as [Hout|Hin].
  - exists row. rewrite lookup_splice_out by assumption. split; [assumption|].
    intros f. exists 0%nat. now destruct (row !! f).
  - assert (Hi : (r - o < n)%nat) by lia.
    destruct (Hrows (r - o)%nat row) as (row' & Hr' & Hf).
    { rewrite lookup_take_lt by assumption. rewrite lookup_drop.
      now replace (o + (r - o))%nat with r by lia. }
    exists row'. split; [|assumption]. rewrite <- Hr'.
    replace r with (o + (r - o))%nat at 1 by lia.
    now apply lookup_splice_in.
Qed.

Lemma for_each_keeps {A} (body : A -> M unit) (I : world -> Prop) (ids : list A) :
  (forall a w w1, I w -> body a w = Ok tt w1 -> I w1) ->
  forall w w', I w -> for_each ids body w = Ok tt w' -> I w'.
Proof.
  intros Hstep. induction ids as [|a ids IH]; intros w w' Hw E; simpl in E.
  - now injection E as <-.
  - unfold bind at 1 in E.
    destruct (body a w) as [[] w1| |] eqn:E1; try discriminate.
    eapply IH; [|exact E]. eapply Hstep; eauto.
Qed.

(** One batch moves the working copy by clamped updates. *)
Lemma attack_batch_moved fuel dims clip_min clip_max c N F preds targets o w0 w
    batch_id passes w1 (X : matrix) :
  nb_features o = F -> product dims = F -> length preds = N ->
  gen_inv c N F o w0 (fun _ => True) w ->
  moved (theta o) clip_min clip_max X (buffer w c) ->
  attack_batch fuel dims clip_min clip_max (mkArr c 0 N [F]) preds targets batch_id w
    = Ok passes w1 ->
  gen_inv c N F o w0 (fun _ => True) w1 /\
  moved (theta o) clip_min clip_max X (buffer w1 c).
Proof.
  intros Ho Hd Hp G HmX E.
  set (x_adv := mkArr c 0 N [F]) in *.
  pose proof (wf_whole dims c N F preds o w0 (fun _ => True) Ho Hd Hp w G) as Hwf.
  pose proof (view_whole dims c N F preds o w0 (fun _ => True) Ho Hd Hp w G) as Hv.
  fold x_adv in Hwf, Hv.
  pose proof G as [Gb Gs Go Gf _].
  assert (HX : has_shape N F (view w x_adv)) by now rewrite Hv.
  assert (HoF : nb_features (obj w) = F) by now rewrite Go.
  assert (Hdx : product dims = product (Numpy.dims x_adv)) by (simpl; lia).
  split.
  { exact (attack_batch_inv fuel dims clip_min clip_max c N F preds targets o w0
             (fun _ => True) Ho Hd Hp (fun _ _ => I) w batch_id passes w1 G E). }
  destruct (attack_batch_run dims clip_min clip_max x_adv preds targets batch_id fuel
              w N F passes w1 Hwf HX HoF Hdx Hp E)
    as (Bf & [_ _ _ _ _ Pbuf] & _ & Hm & _).
  change (buf x_adv) with c in Pbuf. rewrite Pbuf, Go in *.
  eapply moved_trans; [exact HmX|].
  apply moved_splice; [|exact Hm].
  pose proof (wf_view_slice w x_adv (Z.to_nat (Z.of_nat batch_id * batch_size o))
                (Z.to_nat ((Z.of_nat batch_id + 1) * batch_size o)) Hwf) as [_ H2].
  exact H2.
Qed.

(** What [generate] returns is the input moved by clamped updates. *)
Lemma generate_moved fuel x kw w a w' N F :
  wf_view w x -> has_shape N F (view w x) ->
  product (dims x) = F ->
  generate fuel x kw w = Ok a w' ->
  moved (theta (Attack_set_params kw (obj w))) clip_values.1 clip_values.2
        (view w x) (view w' a).
Proof.
  intros Hwf HX HF E.
  unfold generate in E.
  unfold bind at 1 in E. rewrite set_params_eq in E. cbv zeta in E.
  set (o1 := Attack_set_params kw (obj w)) in *.
  destruct (valid_params (obj (with_obj w o1))) eqn:Hv; [|discriminate].
  destruct clip_values as [clip_min clip_max] eqn:Hclip. cbn [fst snd].
  erewrite bind_ok in E by reflexivity.
  erewrite bind_ok in E by reflexivity.
  erewrite bind_ok in E by reflexivity.
  simpl obj in E. simpl nb_features in E. simpl batch_size in E.
  rewrite HF in E.
  set (o2 := mkAttack (theta o1) (gamma o1) (batch_size o1) F) in *.
  set (w2 := with_obj (with_obj w o1) o2) in *.
  unfold np_copy in E.
  erewrite bind_ok in E by reflexivity.
  change (view w2 x) with (view w x) in E.
  change (length (mem w2)) with (mlen w) in E.
  assert (HN : length (view w x) = N) by (eapply has_shape_length; eauto).
  assert (Hlen : len x = N) by (rewrite <- HN; symmetry; now apply length_view).
  rewrite HN in E.
  destruct (decide (dims x = [])) as [|Hd]; [discriminate|].
  unfold np_reshape_flat at 1 in E. simpl dims in E.
  destruct (decide (F = 0%nat \/ F <> product (dims x))) as [|HF0]; [discriminate|].
  erewrite bind_ok in E by reflexivity.
  set (x_adv := mkArr (mlen w) 0 N [F]) in *.
  set (w3 := alloc_world w2 (view w x)) in *.
  erewrite bind_ok in E by apply classifier_predict_eq.
  change (view w3 x) with (view (alloc_world w (view w x)) x) in E.
  rewrite view_alloc_old in E by (destruct Hwf; assumption).
  set (preds := argmax_axis1 (predict (view w x))) in *.
  set (w4 := with_call w3 (Predict (view w x))) in *.
  unfold bind at 1 in E.
  destruct (resolve_targets kw preds w4) as [targets w5| |] eqn:ET; try discriminate.
  apply resolve_targets_frame in ET as (Hmem5 & Hcalls5 & Hobj5).
  unfold bind at 1 in E.
  destruct (for_each _ _ w5) as [[] w6| |] eqn:EF; try discriminate.
  assert (Hb5 : buffer w5 (mlen w) = view w x).
  { unfold buffer. rewrite Hmem5. change (default [] (mem w4 !! mlen w))
      with (buffer (alloc_world w (view w x)) (mlen w)).
    apply buffer_alloc_new. }
  assert (G5 : gen_inv (mlen w) N F o2 w (fun _ => True) w5).
  { split.
    - unfold mlen at 2. rewrite Hmem5. change (length (mem w4)) with (mlen w3).
      unfold w3. rewrite mlen_alloc. unfold w2. simpl. unfold mlen. simpl. lia.
    - rewrite Hb5. exact HX.
    - rewrite Hobj5. reflexivity.
    - intros b Hb. unfold buffer at 1. rewrite Hmem5.
      change (default [] (mem w4 !! b)) with (buffer (alloc_world w (view w x)) b).
      now apply buffer_alloc_old.
    - apply Forall_True. }
  assert (Hpreds : length preds = N).
  { unfold preds, argmax_axis1. rewrite length_map, predict_rows. exact HN. }
  assert (J6 : gen_inv (mlen w) N F o2 w (fun _ => True) w6 /\
               moved (theta o2) clip_min clip_max (view w x) (buffer w6 (mlen w))).
  { eapply (for_each_keeps _ (fun w1 =>
              gen_inv (mlen w) N F o2 w (fun _ => True) w1 /\
              moved (theta o2) clip_min clip_max (view w x) (buffer w1 (mlen w))));
      [|split; [exact G5|rewrite Hb5; apply moved_refl]|exact EF].
    intros id w7 w8 [G7 M7] E8. unfold bind at 1 in E8.
    destruct (attack_batch _ _ _ _ _ _ _ id w7) as [tr w9| |] eqn:E9; try discriminate.
    unfold ret in E8. injection E8 as <-.
    eapply (attack_batch_moved fuel (dims x) clip_min clip_max (mlen w) N F preds
              targets o2 w w7 id tr w9); eauto. }
  destruct J6 as [G6 M6].
  erewrite bind_ok in E by (apply np_reshape_eq; simpl; lia).
  erewrite bind_ok in E by apply classifier_predict_eq.
  erewrite bind_ok in E by apply classifier_predict_eq.
  unfold ret in E. injection E as <- <-.
  destruct G6 as [Gb Gs Go Gf GP].
  assert (Hview : forall e1 e2,
            view (with_call (with_call w6 e1) e2) (mkArr (mlen w) 0 N (dims x))
            = buffer w6 (mlen w)).
  { intros e1 e2. unfold view. simpl. rewrite !buffer_call, drop_0.
    apply take_ge. rewrite (has_shape_length _ _ _ Gs). lia. }
  simpl buf; simpl off; simpl len; simpl dims. rewrite Hview. exact M6.
Qed.

(** X4. [generate] moves every value in the direction of [theta] and not
    past the clip value.  With [theta > 0] a value that was at most
    [clip_max] ends between what it was and [clip_max]; with [theta <= 0] a
    value that was at least [clip_min] ends between [clip_min] and what it
    was.  Every sample keeps its number of features. *)
Theorem X4_generate_moves_towards_clip_value (fuel : nat) (x : arr) (kw : kwargs)
    (w w' : world) (a : arr) (N : nat) :
  wf_view w x -> has_shape N (product (dims x)) (view w x) ->
  (forall y, kw_y kw = Some y -> length y = N) ->
  generate fuel x kw w = Ok a w' ->
  let th := theta (Attack_set_params kw (obj w)) in
  forall r row, view w x !! r = Some row ->
    exists row',
      view w' a !! r = Some row' /\ length row' = length row /\
      forall f v, row !! f = Some v ->
        exists v', row' !! f = Some v' /\
          (0 < th -> v <= clip_values.2 -> v <= v' <= clip_values.2) /\
          (th <= 0 -> clip_values.1 <= v -> clip_values.1 <= v' <= v).
Proof.
  intros Hwf HX Hy E th r row Hrow.
  destruct (generate_moved fuel x kw w a w' N (product (dims x)) Hwf HX eq_refl E)
    as [_ Hm].
  destruct (generate_post fuel x kw w a w' N (product (dims x)) (fun _ => True)
              Hwf HX eq_refl (fun _ _ => I) (Forall_True _) E)
    as (_ & _ & Hshape & _ & _).
  destruct (Hm r row Hrow) as (row' & Hr' & Hf).
  exists row'. split; [assumption|]. split.
  - rewrite (has_shape_lookup _ _ _ _ _ Hshape Hr').
    symmetry. exact (has_shape_lookup _ _ _ _ _ HX Hrow).
  - intros f v Hv. destruct (Hf f) as [k Hk]. rewrite Hv in Hk. simpl in Hk.
    eexists. split; [exact Hk|]. split.
    + intros Hth Hle. now apply iter_up.
    + intros Hth Hle. now apply iter_down.
Qed.

End GenerateDirection.

(** ** Progress of a pass, and the random generator *)

Section PassProgress.

Context {C : Classifier} {R : Runtime} {COk : ClassifierOk C} {ROk : RuntimeOk R}.

(** X13. Every pass makes progress where no sum is rounded: with [theta]
    other than 0, values whose sums with [theta] are exact, and the search
    space the mask of the values that can still move, a pass takes at
    least one step of size [theta] off every active sample that has such a
    value, and adds steps to no sample. *)
Theorem X13_pass_makes_progress (dims : list nat) (clip_min clip_max : Q)
    (batch search_space all_feat : arr) (target active_indices : list nat)
    (w : world) (n F e : nat) :
  loop_inv dims batch search_space all_feat w n F ->
  length target = n -> (2 <= F)%nat ->
  in_range n active_indices = true -> NoDup active_indices ->
  ~ theta (obj w) == 0 ->
  addition_exact e (theta (obj w)) clip_min clip_max (view w batch) = true ->
  view w search_space = space_of (theta (obj w)) clip_min clip_max (view w batch) ->
  exists active_indices' w',
    loop_body dims clip_min clip_max batch search_space all_feat target
              active_indices w = Ok active_indices' w' /\
    forall r,
      let before := sample_steps (theta (obj w)) clip_min clip_max (view w batch) r in
      let after := sample_steps (theta (obj w)) clip_min clip_max (view w' batch) r in
      (after <= before)%nat /\
      (r ∈ active_indices ->
       has_eligible (theta (obj w)) clip_min clip_max (view w batch) r ->
       (after < before)%nat).
Proof.
  intros Inv Htarget HF Hact Hnd Hth Hex HS.
  destruct (addition_exact_on _ _ _ _ _ Hex) as [HG HGB].
  set (G := fun v => on_grid e v = true) in *.
  destruct (loop_body_eq dims clip_min clip_max batch search_space all_feat target
              w n F active_indices Inv HF Hact) as (w' & E & Post & _).
  eexists _, w'. split; [exact E|].
  destruct Post as [Pb _ _ _ _ _ _ _ _ _ _ _].
  destruct Inv as [_ _ _ _ _ _ _ _ HB _ _].
  intros r. cbv zeta. rewrite Pb, HS.
  set (th := theta (obj w)) in *. set (B := view w batch) in *.
  split.
  - exact (sample_steps_next th F clip_min clip_max target G HG n B active_indices r
             Hth HB Hact Hnd HGB).
  - intros Hr (row & f & v & Hrow & Hf & Hv).
    unfold sample_steps. rewrite Hrow.
    pose proof (proj1 (Forall_lookup _ _) HGB r row Hrow) as HGrow.
    destruct (lookup_next_batch th F clip_min clip_max target n B
                (space_of th clip_min clip_max B) active_indices r row HB
                (has_shape_space th F clip_min clip_max n B HB) Hact Hnd Hrow)
      as [[Hnin _]|(k & ij & Hk & Hij & H)]; [contradiction|].
    rewrite H. simpl.
    destruct (selects_eligible th F clip_min clip_max target n B active_indices k r
                row ij HF HB Hact Hk Hrow Hij) as [Hne Hsel].
    destruct (Hsel f v Hf Hv) as (v2 & Hv2 & He2).
    eapply (row_steps_step_lt th clip_min clip_max G HG); eauto.
Qed.

End PassProgress.

Section Randomness.

Context {C : Classifier} {R : Runtime} {COk : ClassifierOk C} {ROk : RuntimeOk R}.

Lemma attack_batch_rng fuel dims clip_min clip_max c N F preds targets o w0 w
    batch_id passes w1 :
  nb_features o = F -> product dims = F -> length preds = N ->
  gen_inv c N F o w0 (fun _ => True) w ->
  attack_batch fuel dims clip_min clip_max (mkArr c 0 N [F]) preds targets batch_id w
    = Ok passes w1 ->
  gen_inv c N F o w0 (fun _ => True) w1 /\ rng w1 = rng w.
Proof.
  intros Ho Hd Hp G E.
  set (x_adv := mkArr c 0 N [F]) in *.
  pose proof (wf_whole dims c N F preds o w0 (fun _ => True) Ho Hd Hp w G) as Hwf.
  pose proof (view_whole dims c N F preds o w0 (fun _ => True) Ho Hd Hp w G) as Hv.
  fold x_adv in Hwf, Hv.
  pose proof G as [Gb Gs Go Gf _].
  assert (HX : has_shape N F (view w x_adv)) by now rewrite Hv.
  assert (HoF : nb_features (obj w) = F) by now rewrite Go.
  assert (Hdx : product dims = product (Numpy.dims x_adv)) by (simpl; lia).
  split.
  { exact (attack_batch_inv fuel dims clip_min clip_max c N F preds targets o w0
             (fun _ => True) Ho Hd Hp (fun _ _ => I) w batch_id passes w1 G E). }
  destruct (attack_batch_run dims clip_min clip_max x_adv preds targets batch_id fuel
              w N F passes w1 Hwf HX HoF Hdx Hp E)
    as (Bf & [_ _ Prng _ _ _] & _).
  exact Prng.
Qed.

(** X14. A [generate] that is given its targets does not touch the random
    generator: when it returns, the generator is where it was. *)
Theorem X14_targeted_generate_draws_nothing (fuel : nat) (x : arr) (kw : kwargs)
    (w w' : world) (a : arr) (N : nat) (y : matrix) :
  wf_view w x -> has_shape N (product (dims x)) (view w x) ->
  kw_y kw = Some y -> length y = N ->
  generate fuel x kw w = Ok a w' ->
  rng w' = rng w.
Proof.
  intros Hwf HX Hy Hylen E.
  set (saved := Attack_set_params kw (obj w)) in *.
  set (F := product (dims x)) in *.
  assert (Hv : valid_params saved = true).
  { destruct (valid_params saved) eqn:Ev; [reflexivity|].
    unfold generate in E. unfold bind at 1 in E. rewrite set_params_eq in E.
    cbv zeta in E. change (obj (with_obj w (Attack_set_params kw (obj w)))) with saved in E.
    rewrite Ev in E. discriminate. }
  assert (Hd : dims x <> []).
  { intros Hd.
    unfold generate in E. unfold bind at 1 in E. rewrite set_params_eq in E.
    cbv zeta in E. change (obj (with_obj w (Attack_set_params kw (obj w)))) with saved in E.
    rewrite Hv in E. destruct clip_values as [clip_min clip_max].
    erewrite bind_ok in E by reflexivity.
    erewrite bind_ok in E by reflexivity.
    erewrite bind_ok in E by reflexivity.
    unfold np_copy in E. erewrite bind_ok in E by reflexivity.
    rewrite (decide_True (P := dims x = [])) in E by assumption. discriminate. }
  assert (HF0 : F <> 0%nat).
  { intros HF0.
    unfold generate in E. unfold bind at 1 in E. rewrite set_params_eq in E.
    cbv zeta in E. change (obj (with_obj w (Attack_set_params kw (obj w)))) with saved in E.
    rewrite Hv in E. destruct clip_values as [clip_min clip_max].
    erewrite bind_ok in E by reflexivity.
    erewrite bind_ok in E by reflexivity.
    erewrite bind_ok in E by reflexivity.
    unfold np_copy in E. erewrite bind_ok in E by reflexivity.
    rewrite (decide_False (P := dims x = [])) in E by assumption.
    unfold np_reshape_flat at 1 in E. simpl nb_features in E. fold F in E.
    rewrite decide_True in E by now left. discriminate. }
  destruct (generate_prefix fuel x kw w N F y Hwf HX eq_refl HF0 Hd Hy Hv)
    as (E5 & G5 & _ & _).
  fold saved in E5, G5.
  set (o2 := mkAttack (theta saved) (gamma saved) (batch_size saved) F) in *.
  set (w5 := with_call (alloc_world (with_obj w o2) (view w x)) (Predict (view w x)))
    in *.
  set (preds := argmax_axis1 (predict (view w x))) in *.
  assert (Hpreds : length preds = N).
  { unfold preds, argmax_axis1. rewrite length_map, predict_rows.
    eapply has_shape_length; eauto. }
  rewrite E5 in E. unfold bind at 1 in E.
  destruct (for_each _ _ w5) as [[] w6| |] eqn:EF; try discriminate.
  assert (J6 : gen_inv (mlen w) N F o2 w (fun _ => True) w6 /\ rng w6 = rng w5).
  { eapply (for_each_keeps _ (fun w1 =>
              gen_inv (mlen w) N F o2 w (fun _ => True) w1 /\ rng w1 = rng w5));
      [|split; [exact G5|reflexivity]|exact EF].
    intros id w7 w8 [G7 R7] E8. unfold bind at 1 in E8.
    destruct (attack_batch _ _ _ _ _ _ _ id w7) as [tr w9| |] eqn:E9; try discriminate.
    unfold ret in E8. injection E8 as <-.
    destruct (attack_batch_rng fuel (dims x) clip_values.1 clip_values.2 (mlen w) N F
                preds (argmax_axis1 y) o2 w w7 id tr w9 eq_refl eq_refl Hpreds G7 E9)
      as [G9 R9].
    split; [assumption|congruence]. }
  destruct J6 as [G6 R6].
  destruct (generate_suffix x w N F o2 w6 Hwf eq_refl G6) as [E7 _].
  rewrite E7 in E. injection E as _ <-. simpl. exact R6.
Qed.

End Randomness.

(** ** The further properties on concrete runs *)

Ltac accepted_by_eval :=
  let H := fresh in
  intros H; apply valid_params_refused in H; vm_compute in H; discriminate.

Ltac never_in_pass :=
  let act := fresh "act" in
  let H := fresh in
  let H' := fresh in
  intros act H H';
  repeat (apply elem_of_cons in H as [-> | H];
          [repeat (apply elem_of_cons in H' as [H' | H']; [discriminate|]);
           inversion H'|]);
  inversion H.

(** X1 on five samples in batches of two: the third batch starts at row 4
    and holds one row. *)
Lemma X1_batches_witness :
  off (batch_of MoreRuns.five_samples 2 2) = 4%nat /\
  (0 < len (batch_of MoreRuns.five_samples 2 2) <= 2)%nat.
Proof.
  destruct (proj1 (X1_batches_cover_every_sample MoreRuns.five_samples 2 ltac:(lia))
              2%nat ltac:(vm_compute; lia)) as (H1 & H2 & _).
  split; [exact H1|exact H2].
Defined.

(** X2 on the loop started in the state of C1. *)
Lemma X2_loop_exit_witness :
  exists passes w',
    @batch_loop (Demo.stubborn (0, 1)) Demo.runtime 20 [4%nat] 0 1
                (mkArr 0 0 1 [4%nat]) (mkArr 1 0 1 [4%nat]) (mkArr 2 0 1 [4%nat])
                [1%nat] [0%nat] Runs.looping = Ok passes w' /\
    forall s, sum_axis1 (view w' (mkArr 1 0 1 [4%nat])) !! 0%nat = Some s -> s <= 0.
Proof.
  eexists. eexists. split; [vm_compute; reflexivity|].
  intros s Hs.
  let run := eval vm_compute in
    (@batch_loop (Demo.stubborn (0, 1)) Demo.runtime 20 [4%nat] 0 1
                 (mkArr 0 0 1 [4%nat]) (mkArr 1 0 1 [4%nat]) (mkArr 2 0 1 [4%nat])
                 [1%nat] [0%nat] Runs.looping) in
  lazymatch run with
  | Ok ?passes ?w' =>
      destruct (X2_loop_exit_condition (C := Demo.stubborn (0, 1)) (R := Demo.runtime)
                  [4%nat] 0 1 (mkArr 0 0 1 [4%nat]) (mkArr 1 0 1 [4%nat])
                  (mkArr 2 0 1 [4%nat]) [1%nat] [0%nat] 20 Runs.looping w' 1 4 passes
                  ltac:(constructor;
                        first [view_by_eval | shape_by_eval | discriminate | reflexivity])
                  eq_refl eq_refl ltac:(vm_compute; reflexivity) ltac:(discriminate)
                  0%nat 0%nat 1%nat 0 s
                  ltac:(vm_compute; reflexivity) eq_refl ltac:(vm_compute; reflexivity)
                  Hs)
        as [H|[H|H]]
  end.
  - discriminate H.
  - vm_compute in H. discriminate H.
  - exact H.
Defined.

(** X3 on two samples of which the second is never active. *)
Lemma X3_only_active_samples_witness :
  exists passes w',
    @attack_batch (Demo.stubborn (0, 1)) Demo.runtime 20 [2%nat] 0 1
                  MoreRuns.two_samples [0%nat; 1%nat] [1%nat; 1%nat] 0 MoreRuns.pair
      = Ok passes w' /\
    view w' MoreRuns.two_samples !! 1%nat = Some [1; 1].
Proof.
  eexists. eexists. split; [vm_compute; reflexivity|].
  let run := eval vm_compute in
    (@attack_batch (Demo.stubborn (0, 1)) Demo.runtime 20 [2%nat] 0 1
                   MoreRuns.two_samples [0%nat; 1%nat] [1%nat; 1%nat] 0 MoreRuns.pair) in
  lazymatch run with
  | Ok ?passes ?w' =>
      exact (proj1 (X3_only_active_samples_change
                      (C := Demo.stubborn (0, 1)) (R := Demo.runtime)
                      [2%nat] 0 1 MoreRuns.two_samples [0%nat; 1%nat] [1%nat; 1%nat]
                      0 20 MoreRuns.pair w' 2 2 passes
                      ltac:(view_by_eval) ltac:(shape_by_eval) eq_refl eq_refl eq_refl eq_refl
                      ltac:(vm_compute; reflexivity))
                   1%nat ltac:(never_in_pass))
  end.
Defined.


(** X6 on one sample of one feature. *)
Lemma X6_single_feature_witness :
  exists w',
    @attack_batch (Demo.stubborn (0, 1)) Demo.runtime 1 [1%nat] 0 1
                  MoreRuns.one_feature [0%nat] [1%nat] 0 MoreRuns.lone
      = Raise ValueError w'.
Proof.
  destruct (X6_single_feature_raises (C := Demo.stubborn (0, 1)) (R := Demo.runtime)
              [1%nat] 0 1 MoreRuns.one_feature [0%nat] [1%nat] 0 0 MoreRuns.lone 1 1
              ltac:(view_by_eval) ltac:(shape_by_eval) eq_refl ltac:(lia) eq_refl eq_refl eq_refl
              ltac:(vm_compute; discriminate))
    as (w' & E & _).
  exists w'. exact E.
Defined.


(** X8 on the sample [0, 0] with [theta = 0.25]: four passes, eight calls. *)
Lemma X8_two_calls_witness :
  exists passes w',
    @attack_batch (Demo.stubborn (0, 1)) Demo.runtime 20 [2%nat] 0 1 Runs.sample
                  [0%nat] [1%nat] 0 Runs.fresh = Ok passes w' /\
    passes_run w' = (passes_run Runs.fresh + length passes)%nat.
Proof.
  eexists. eexists. split; [vm_compute; reflexivity|].
  let run := eval vm_compute in
    (@attack_batch (Demo.stubborn (0, 1)) Demo.runtime 20 [2%nat] 0 1 Runs.sample
                   [0%nat] [1%nat] 0 Runs.fresh) in
  lazymatch run with
  | Ok ?passes ?w' =>
      exact (proj1 (X8_two_classifier_calls_per_pass
                      (C := Demo.stubborn (0, 1)) (R := Demo.runtime)
                      [2%nat] 0 1 Runs.sample [0%nat] [1%nat] 0 20 Runs.fresh w' 1 2
                      passes
                      ltac:(view_by_eval) ltac:(shape_by_eval) eq_refl eq_refl eq_refl eq_refl
                      ltac:(vm_compute; reflexivity)))
  end.
Defined.

(** X9 on a run of [generate] on the sample [0, 0]. *)
Lemma X9_generate_keeps_parameters_witness :
  exists a w',
    @generate (Demo.stubborn (0, 1)) Demo.runtime 20 (Demo.input_of [[0; 0]] [2%nat])
              Runs.to_class_1 (Demo.world_of [[0; 0]] (mkAttack (1 # 4) 1 1 0))
      = Ok a w' /\
    nb_features (obj w') = 2%nat.
Proof.
  eexists. eexists. split; [vm_compute; reflexivity|].
  let run := eval vm_compute in
    (@generate (Demo.stubborn (0, 1)) Demo.runtime 20 (Demo.input_of [[0; 0]] [2%nat])
               Runs.to_class_1 (Demo.world_of [[0; 0]] (mkAttack (1 # 4) 1 1 0))) in
  lazymatch run with
  | Ok ?a ?w' =>
      destruct (X9_generate_keeps_parameters
                  (C := Demo.stubborn (0, 1)) (R := Demo.runtime)
                  20 (Demo.input_of [[0; 0]] [2%nat]) Runs.to_class_1
                  (Demo.world_of [[0; 0]] (mkAttack (1 # 4) 1 1 0)) w' a 1
                  ltac:(view_by_eval) ltac:(shape_by_eval)
                  ltac:(intros y [= <-]; reflexivity)
                  ltac:(vm_compute; reflexivity))
        as (_ & _ & _ & H & _)
  end.
  exact H.
Defined.

(** X10 on the loop started in the state of C1. *)
Lemma X10_search_space_witness :
  exists passes w',
    @batch_loop (Demo.stubborn (0, 1)) Demo.runtime 20 [4%nat] 0 1
                (mkArr 0 0 1 [4%nat]) (mkArr 1 0 1 [4%nat]) (mkArr 2 0 1 [4%nat])
                [1%nat] [0%nat] Runs.looping = Ok passes w' /\
    view w' (mkArr 1 0 1 [4%nat])
      = space_of (3 # 10) 0 1 (view w' (mkArr 0 0 1 [4%nat])).
Proof.
  eexists. eexists. split; [vm_compute; reflexivity|].
  let run := eval vm_compute in
    (@batch_loop (Demo.stubborn (0, 1)) Demo.runtime 20 [4%nat] 0 1
                 (mkArr 0 0 1 [4%nat]) (mkArr 1 0 1 [4%nat]) (mkArr 2 0 1 [4%nat])
                 [1%nat] [0%nat] Runs.looping) in
  lazymatch run with
  | Ok ?passes ?w' =>
      exact (proj1 (X10_search_space_is_eligibility_mask
                      (C := Demo.stubborn (0, 1)) (R := Demo.runtime)
                      [4%nat] 0 1 (mkArr 0 0 1 [4%nat]) (mkArr 1 0 1 [4%nat])
                      (mkArr 2 0 1 [4%nat]) [1%nat] [0%nat] 20 Runs.looping w' 1 4
                      passes
                      ltac:(constructor;
                            first [view_by_eval | shape_by_eval | discriminate
                                  | reflexivity])
                      eq_refl eq_refl ltac:(repeat constructor; inversion 1)
                      eq_refl ltac:(vm_compute; reflexivity)))
  end.
Defined.

(** X15 on a one-dimensional input of two entries. *)
Lemma X15_flat_input_witness :
  exists w',
    @generate (Demo.stubborn (0, 1)) Demo.runtime 5 (Demo.input_of [[0]; [0]] [])
              Runs.to_class_1 (Demo.world_of [[0]; [0]] (mkAttack (1 # 4) 1 1 0))
      = Raise TypeError w'.
Proof.
  destruct (X15_flat_input_raises (C := Demo.stubborn (0, 1)) (R := Demo.runtime)
              5 (Demo.input_of [[0]; [0]] []) Runs.to_class_1
              (Demo.world_of [[0]; [0]] (mkAttack (1 # 4) 1 1 0))
              eq_refl ltac:(accepted_by_eval))
    as (w' & E & _).
  exists w'. exact E.
Defined.

(** X11 on one sample of no features. *)
Lemma X11_no_features_witness :
  exists w',
    @generate (Demo.stubborn (0, 1)) Demo.runtime 5 (Demo.input_of [[]] [0%nat])
              Runs.to_class_1 (Demo.world_of [[]] (mkAttack (1 # 4) 1 1 0))
      = Raise ValueError w'.
Proof.
  destruct (X11_no_features_raises (C := Demo.stubborn (0, 1)) (R := Demo.runtime)
              5 (Demo.input_of [[]] [0%nat]) Runs.to_class_1
              (Demo.world_of [[]] (mkAttack (1 # 4) 1 1 0))
              eq_refl ltac:(accepted_by_eval))
    as (w' & E & _).
  exists w'. exact E.
Defined.


(** X4 on a run of [generate] on the sample [0, 0]. *)
Lemma X4_generate_moves_witness :
  exists a w',
    @generate (Demo.stubborn (0, 1)) Demo.runtime 20 (Demo.input_of [[0; 0]] [2%nat])
              Runs.to_class_1 (Demo.world_of [[0; 0]] (mkAttack (1 # 4) 1 1 0))
      = Ok a w' /\
    exists row', view w' a !! 0%nat = Some row' /\ length row' = 2%nat.
Proof.
  eexists. eexists. split; [vm_compute; reflexivity|].
  let run := eval vm_compute in
    (@generate (Demo.stubborn (0, 1)) Demo.runtime 20 (Demo.input_of [[0; 0]] [2%nat])
               Runs.to_class_1 (Demo.world_of [[0; 0]] (mkAttack (1 # 4) 1 1 0))) in
  lazymatch run with
  | Ok ?a ?w' =>
      destruct (X4_generate_moves_towards_clip_value
                  (C := Demo.stubborn (0, 1)) (R := Demo.runtime)
                  20 (Demo.input_of [[0; 0]] [2%nat]) Runs.to_class_1
                  (Demo.world_of [[0; 0]] (mkAttack (1 # 4) 1 1 0)) w' a 1
                  ltac:(view_by_eval) ltac:(shape_by_eval)
                  ltac:(intros y [= <-]; reflexivity)
                  ltac:(vm_compute; reflexivity) 0%nat [0; 0] eq_refl)
        as (row' & H1 & H2 & _)
  end.
  exists row'. split; [exact H1|exact H2].
Defined.

(** X13 on the state of the loop of C1. *)
Lemma X13_pass_makes_progress_witness :
  exists active_indices' w',
    @loop_body (Demo.stubborn (0, 1)) Demo.runtime [4%nat] 0 1
               (mkArr 0 0 1 [4%nat]) (mkArr 1 0 1 [4%nat]) (mkArr 2 0 1 [4%nat])
               [1%nat] [0%nat] MoreRuns.in_quarters = Ok active_indices' w' /\
    (sample_steps (1 # 4) 0 1 (view w' (mkArr 0 0 1 [4%nat])) 0
     < sample_steps (1 # 4) 0 1 (view MoreRuns.in_quarters (mkArr 0 0 1 [4%nat])) 0)%nat.
Proof.
  destruct (X13_pass_makes_progress (C := Demo.stubborn (0, 1)) (R := Demo.runtime)
              [4%nat] 0 1 (mkArr 0 0 1 [4%nat]) (mkArr 1 0 1 [4%nat])
              (mkArr 2 0 1 [4%nat]) [1%nat] [0%nat] MoreRuns.in_quarters 1 4 2
              ltac:(constructor;
                    first [view_by_eval | shape_by_eval | discriminate | reflexivity])
              eq_refl ltac:(lia) eq_refl ltac:(repeat constructor; inversion 1)
              ltac:(intros H; vm_compute in H; discriminate) eq_refl eq_refl)
    as (act' & w' & E & H).
  exists act', w'. split; [exact E|].
  apply (proj2 (H 0%nat)); [apply list_elem_of_here|].
  exists [0; 0; 0; 0], 0%nat, 0. repeat split.
Defined.

(** X14 on a run of [generate] on the sample [0, 0]. *)
Lemma X14_targeted_generate_witness :
  exists a w',
    @generate (Demo.stubborn (0, 1)) Demo.runtime 20 (Demo.input_of [[0; 0]] [2%nat])
              Runs.to_class_1 (Demo.world_of [[0; 0]] (mkAttack (1 # 4) 1 1 0))
      = Ok a w' /\
    rng w' = 0%nat.
Proof.
  eexists. eexists. split; [vm_compute; reflexivity|].
  let run := eval vm_compute in
    (@generate (Demo.stubborn (0, 1)) Demo.runtime 20 (Demo.input_of [[0; 0]] [2%nat])
               Runs.to_class_1 (Demo.world_of [[0; 0]] (mkAttack (1 # 4) 1 1 0))) in
  lazymatch run with
  | Ok ?a ?w' =>
      exact (X14_targeted_generate_draws_nothing
               (C := Demo.stubborn (0, 1)) (R := Demo.runtime)
               20 (Demo.input_of [[0; 0]] [2%nat]) Runs.to_class_1
               (Demo.world_of [[0; 0]] (mkAttack (1 # 4) 1 1 0)) w' a 1 [[0; 1]]
               ltac:(view_by_eval) ltac:(shape_by_eval) eq_refl eq_refl
               ltac:(vm_compute; reflexivity))
  end.
Defined.
